(** * Unparser derivation of langkit: a shallow embedding of
    [langkit/unparsers.py] and the properties of its combinators,
    derivation, structural equality and registry passes. *)

From stdpp Require Import base option strings list gmap.

Set Warnings "-register-all".

(** ** Python values, exceptions and the two monads of the embedding *)

(** The arguments of the diagnostic primitive are Python objects that are
    tested for truth: a boolean, or a (message) string. *)
Inductive pyval :=
| PyBool (b : bool)
| PyStr (s : string).

Definition truthy (v : pyval) : bool :=
  match v with
  | PyBool b => b
  | PyStr s => negb (String.eqb s "")
  end.

Inductive exn :=
| DiagnosticError (message : pyval)
| AssertionError
| AttributeError
| IndexError
| NotImplementedError (what : string)
| RecursionError.

Inductive result (A : Type) :=
| OK (a : A)
| Raise (e : exn).
Arguments OK {A} a.
Arguments Raise {A} e.

Definition bindR {A B} (m : result A) (k : A -> result B) : result B :=
  match m with
  | OK a => k a
  | Raise e => Raise e
  end.

Notation "x <~ e ;; k" := (bindR e (fun x => k))
  (at level 100, e at next level, right associativity).
Notation "e ~;; k" := (bindR e (fun _ => k))
  (at level 100, right associativity).

Definition assert (b : bool) : result unit :=
  if b then OK tt else Raise AssertionError.

(** Modelled from the spec: [langkit.diagnostics.check_source_language] is
    not part of the sources at hand.  It is the fatal assertion primitive
    of the diagnostics sink: when its first argument (the predicate) is
    not true it raises with its second argument (the message) and stops
    the compilation.  The order of the arguments is the one of every call
    in [unparsers.py] that passes a condition first. *)
Definition check_source_language (predicate message : pyval) : result unit :=
  if truthy predicate then OK tt else Raise (DiagnosticError message).

(** Short-circuiting [all(f(x) for x in l)] over a fallible [f]. *)
Definition allR {A} (f : A -> result bool) : list A -> result bool :=
  fix go (l : list A) : result bool :=
    match l with
    | [] => OK true
    | x :: l' => b <~ f x ;; if b then go l' else OK false
    end.

(** A list comprehension [[f(x) for x in l]] over a fallible [f]. *)
Definition mapR {A B} (f : A -> result B) : list A -> result (list B) :=
  fix go (l : list A) : result (list B) :=
    match l with
    | [] => OK []
    | x :: l' => y <~ f x ;; r <~ go l' ;; OK (y :: r)
    end.

(** [' '.join(...)]. *)
Fixpoint join (sep : string) (l : list string) : string :=
  match l with
  | [] => ""
  | [s] => s
  | s :: l' => s +:+ sep +:+ join sep l'
  end.

(** ** Lexer tokens *)

Record Literal := { to_match : string }.

(** A token kind of the lexer ([langkit.lexer.TokenAction]); [matcher] is
    the literal it is matched by, when there is one. *)
Record TokenAction := { tok_name : string; matcher : option Literal }.

Global Instance Literal_eq_dec : EqDecision Literal.
Proof. solve_decision. Defined.
Global Instance TokenAction_eq_dec : EqDecision TokenAction.
Proof. solve_decision. Defined.

Global Instance Literal_countable : Countable Literal.
Proof. exact (inj_countable' to_match Build_Literal (fun l => match l with Build_Literal _ => eq_refl end)). Defined.
Global Instance TokenAction_countable : Countable TokenAction.
Proof.
  exact (inj_countable' (fun t => (tok_name t, matcher t))
           (fun p => Build_TokenAction (fst p) (snd p))
           (fun t => match t with Build_TokenAction _ _ => eq_refl end)).
Defined.

Module LexerToken.
Definition Termination : TokenAction :=
    {| tok_name := "Termination"; matcher := None |}.
End LexerToken.

(** ** Node types *)

(** What the pass reads of a parse field and of a compiled type
    ([langkit.compiled_types]): names, the kind flags and the parse fields.
    [is_root_list_type] stands for [element_type.list == node_type]. *)
Record Field := { qualname : string }.

Record CompiledType := {
  name : string;
  dsl_name : string;
  is_ast_node : bool;
  abstract : bool;
  synthetic : bool;
  is_token_node : bool;
  is_list_type : bool;
  is_root_list_type : bool;
  get_parse_fields : list Field
}.

Global Instance Field_eq_dec : EqDecision Field.
Proof. solve_decision. Defined.
Global Instance CompiledType_eq_dec : EqDecision CompiledType.
Proof. solve_decision. Defined.
Global Instance Field_countable : Countable Field.
Proof. exact (inj_countable' qualname Build_Field (fun f => match f with Build_Field _ => eq_refl end)). Defined.
Global Instance CompiledType_countable : Countable CompiledType.
Proof.
  exact (inj_countable'
    (fun t => (name t, dsl_name t, is_ast_node t, abstract t, synthetic t,
               is_token_node t, is_list_type t, is_root_list_type t,
               get_parse_fields t))
    (fun '(a, b, c, d, e, f, g, h, i) => Build_CompiledType a b c d e f g h i)
    (fun t => match t with Build_CompiledType _ _ _ _ _ _ _ _ _ => eq_refl end)).
Defined.

(** ** Parser combinators *)

(** The [_booleanize] attribute of an [Opt] parser when it is set: whether
    it is an [EnumNode] subclass, the type of its "present" alternative and
    the types of all its alternatives. *)
Record Booleanize := {
  is_enum_node : bool;
  _alt_present : CompiledType;
  _alternatives : list CompiledType
}.

(** The closed set of combinators of [langkit.parsers], with the attributes
    that [unparsers.py] reads. *)
Inductive Parser :=
| Defer (rule : string)
| DontSkip (subparser : Parser)
| List (parser : Parser) (sep : option Parser) (typ : CompiledType)
| NoBacktrack
| Null (typ : CompiledType)
| Opt (parser : Parser) (_booleanize : option Booleanize) (_is_error : bool)
| Or (parsers : list Parser)
| Predicate (parser : Parser)
| Skip (dest_node : CompiledType)
| _Extract (parser : Parser) (index : nat)
| _Row (parsers : list Parser)
| _Token (_val : TokenAction) (match_text : string)
| _Transform (parser : Parser) (typ : CompiledType).

(** The parser kinds, as [type(p)] gives them. *)
Inductive kind :=
| KDefer | KDontSkip | KList | KNoBacktrack | KNull | KOpt | KOr
| KPredicate | KSkip | KExtract | KRow | KToken | KTransform.

Global Instance kind_eq_dec : EqDecision kind.
Proof. solve_decision. Defined.

Definition type_of (p : Parser) : kind :=
  match p with
  | Defer _ => KDefer | DontSkip _ => KDontSkip | List _ _ _ => KList
  | NoBacktrack => KNoBacktrack | Null _ => KNull | Opt _ _ _ => KOpt
  | Or _ => KOr | Predicate _ => KPredicate | Skip _ => KSkip
  | _Extract _ _ => KExtract | _Row _ => KRow | _Token _ _ => KToken
  | _Transform _ _ => KTransform
  end.

Definition isinstance (p : Parser) (k : kind) : bool :=
  bool_decide (type_of p = k).

Definition unwrap_dont_skip (parser : Parser) : Parser :=
  match parser with
  | DontSkip subparser => subparser
  | _ => parser
  end.

(** Modelled from the spec: the [children] method of the parser classes is
    not part of the sources at hand.  Every combinator exposes its child
    sub-parsers: the elements of a sequence or of an alternation, the
    wrapped sub-parser of a wrapper, the element parser of a list followed
    by its separator when it has one; the error-recovery insertion is
    skipped entirely and the leaves have none. *)
Definition children (p : Parser) : list Parser :=
  match p with
  | Defer _ | NoBacktrack | Null _ | Skip _ | _Token _ _ => []
  | DontSkip sub => [sub]
  | List elt sep _ => elt :: match sep with Some s => [s] | None => [] end
  | Opt sub _ _ | Predicate sub | _Extract sub _ | _Transform sub _ => [sub]
  | Or ps | _Row ps => ps
  end.

(** What the pass asks of a parser through methods and properties that
    live outside [unparsers.py]: the type it yields, whether its result is
    discarded in a sequence, its printed form, the name of its rule,
    whether it was generated for a [DontSkip], and the parser a deferred
    reference resolves to. *)
Class ParserOps := {
  get_type : Parser -> CompiledType;
  discard : Parser -> bool;
  repr : Parser -> string;
  rule_name : Parser -> string;
  is_dont_skip_parser : Parser -> bool;
  resolve : Parser -> Parser
}.

(** ** Token unparsers *)

(** [bool(match_text)] for a [str|None]. *)
Definition str_truthy (s : option string) : bool :=
  match s with
  | Some s => negb (String.eqb s "")
  | None => false
  end.

Module TokenUnparser.

Record t := {
    token : TokenAction;
    match_text : option string
  }.

Definition __init__ (tok : TokenAction) (text : option string) : result t :=
    assert (Bool.eqb (bool_decide (matcher tok = None)) (str_truthy text)) ~;;
    OK {| token := tok; match_text := text |}.

  (** [_dump], as the text that [dumps] returns. *)
Definition dumps (self : t) : result string :=
    if str_truthy (match_text self)
    then OK (default "" (match_text self))
    else match matcher (token self) with
         | Some l => OK (to_match l)
         | None => Raise AttributeError
         end.

Definition equivalent (token1 token2 : option t) : result bool :=
    match token1, token2 with
    | Some t1, Some t2 =>
        s1 <~ dumps t1 ;; s2 <~ dumps t2 ;; OK (String.eqb s1 s2)
    | None, None => OK true
    | _, _ => OK false
    end.

Definition dump_or_none (tok : option t) : result string :=
    match tok with
    | None => OK "<none>"
    | Some tok => dumps tok
    end.

End TokenUnparser.

Global Instance TokenUnparser_eq_dec : EqDecision TokenUnparser.t.
Proof. solve_decision. Defined.

(** ** Token sequences *)

Definition nl : string := String (Ascii.ascii_of_nat 10) "".

Module TokenSequenceUnparser.

Record t := { tokens : list TokenUnparser.t }.

Definition __init__ (init_tokens : list TokenUnparser.t) : t :=
    {| tokens := init_tokens |}.

Definition dumps (self : t) : result string :=
    l <~ mapR TokenUnparser.dumps (tokens self) ;; OK (join " " l).

Definition __len__ (self : t) : nat := length (tokens self).

Definition __add__ (self other : t) : t :=
    __init__ (tokens self ++ tokens other).

Definition append (self : t) (tok : TokenUnparser.t) : t :=
    {| tokens := tokens self ++ [tok] |}.

  (** The condition that [check_equivalence] hands to the diagnostics. *)
Definition equivalent (self other : t) : result bool :=
    if Nat.eqb (length (tokens self)) (length (tokens other))
    then allR (fun '(tok1, tok2) => TokenUnparser.equivalent (Some tok1) (Some tok2))
              (zip (tokens self) (tokens other))
    else OK false.

Definition check_equivalence (self : t) (sequence_name : string) (other : t)
    : result unit :=
    cond <~ equivalent self other ;;
    d1 <~ dumps self ;;
    d2 <~ dumps other ;;
    check_source_language (PyBool cond)
      (PyStr ("Inconsistent " +:+ sequence_name +:+ ":" +:+ nl +:+ "  " +:+ d1
              +:+ nl +:+ "and:" +:+ nl +:+ "  " +:+ d2)).

End TokenSequenceUnparser.

Global Instance TokenSequenceUnparser_eq_dec : EqDecision TokenSequenceUnparser.t.
Proof. solve_decision. Defined.

(** ** Field unparsers *)

Module FieldUnparser.

Record t := {
    node : CompiledType;
    field : Field;
    always_absent : bool;
    pre_tokens : TokenSequenceUnparser.t;
    post_tokens : TokenSequenceUnparser.t
  }.

Definition __init__ (n : CompiledType) (f : Field) : t :=
    {| node := n; field := f; always_absent := true;
       pre_tokens := TokenSequenceUnparser.__init__ [];
       post_tokens := TokenSequenceUnparser.__init__ [] |}.

Definition _combine (self other : t) : result t :=
    assert (bool_decide (node other = node self)) ~;;
    assert (bool_decide (field other = field self)) ~;;
    if always_absent self then OK other
    else if always_absent other then OK self
    else
      TokenSequenceUnparser.check_equivalence (pre_tokens self)
        ("prefix tokens for " +:+ qualname (field self)) (pre_tokens other) ~;;
      TokenSequenceUnparser.check_equivalence (post_tokens self)
        ("postfix tokens for " +:+ qualname (field self)) (post_tokens other) ~;;
      OK self.

  (** [Unparser.combine]: both operands are field unparsers. *)
Definition combine (self other : t) : result t := _combine self other.

End FieldUnparser.

Global Instance FieldUnparser_eq_dec : EqDecision FieldUnparser.t.
Proof. solve_decision. Defined.

(** ** Node unparsers *)

(** [for i, x in enumerate(l): f(i, x)] over a fallible body. *)
Fixpoint for_enumerate {A} (f : nat -> A -> result unit) (i : nat) (l : list A)
  : result unit :=
  match l with
  | [] => OK tt
  | x :: l' => f i x ~;; for_enumerate f (S i) l'
  end.

(** [l[i]] *)
Definition getitem {A} (l : list A) (i : nat) : result A :=
  match l !! i with
  | Some x => OK x
  | None => Raise IndexError
  end.

Module RegularNodeUnparser.

Record t := {
    node : CompiledType;
    pre_tokens : TokenSequenceUnparser.t;
    field_unparsers : list FieldUnparser.t;
    inter_tokens : list TokenSequenceUnparser.t;
    post_tokens : TokenSequenceUnparser.t
  }.

Definition __init__ (n : CompiledType) : t :=
    let parse_fields := get_parse_fields n in
    {| node := n;
       pre_tokens := TokenSequenceUnparser.__init__ [];
       field_unparsers := map (FieldUnparser.__init__ n) parse_fields;
       inter_tokens :=
         replicate (length parse_fields - 1) (TokenSequenceUnparser.__init__ []);
       post_tokens := TokenSequenceUnparser.__init__ [] |}.

Definition zip_fields (self : t)
    : list (FieldUnparser.t * TokenSequenceUnparser.t) :=
    zip (field_unparsers self)
        (TokenSequenceUnparser.__init__ [] :: inter_tokens self).

Definition _combine (self other : t) : result t :=
    assert (bool_decide (node self = node other)) ~;;
    assert (Nat.eqb (length (field_unparsers self)) (length (field_unparsers other))) ~;;
    assert (Nat.eqb (length (inter_tokens self)) (length (inter_tokens other))) ~;;
    TokenSequenceUnparser.check_equivalence (pre_tokens self)
      ("prefix tokens for " +:+ dsl_name (node self)) (pre_tokens other) ~;;
    for_enumerate
      (fun i '(self_inter, other_inter) =>
         fu <~ getitem (field_unparsers self) i ;;
         TokenSequenceUnparser.check_equivalence self_inter
           ("tokens after " +:+ qualname (FieldUnparser.field fu)) other_inter)
      0 (zip (inter_tokens self) (inter_tokens other)) ~;;
    fus <~ mapR (fun '(self_fu, other_fu) => FieldUnparser.combine self_fu other_fu)
                (zip (field_unparsers self) (field_unparsers other)) ;;
    OK {| node := node self;
          pre_tokens := pre_tokens self;
          field_unparsers := fus;
          inter_tokens := inter_tokens self;
          post_tokens := post_tokens self |}.

End RegularNodeUnparser.

Module ListNodeUnparser.

Record t := {
    node : CompiledType;
    separator : option TokenUnparser.t
  }.

Definition _combine (self other : t) : result t :=
    assert (bool_decide (node self = node other)) ~;;
    d1 <~ TokenUnparser.dump_or_none (separator self) ;;
    d2 <~ TokenUnparser.dump_or_none (separator other) ;;
    eqv <~ TokenUnparser.equivalent (separator self) (separator other) ;;
    check_source_language
      (PyStr ("Inconsistent separation token for " +:+ dsl_name (node self)
              +:+ ": " +:+ d1 +:+ " and " +:+ d2))
      (PyBool eqv) ~;;
    OK self.

End ListNodeUnparser.

Module TokenNodeUnparser.

Record t := { node : CompiledType }.

Definition _combine (self other : t) : result t :=
    assert (bool_decide (node self = node other)) ~;;
    OK self.

End TokenNodeUnparser.

Module NullNodeUnparser.

Record t := { node : CompiledType }.

End NullNodeUnparser.

(** The closed set of node unparsers. *)
Inductive NodeUnparser :=
| RegularNode (u : RegularNodeUnparser.t)
| ListNode (u : ListNodeUnparser.t)
| TokenNode (u : TokenNodeUnparser.t)
| NullNode (u : NullNodeUnparser.t).

Definition is_NullNodeUnparser (u : NodeUnparser) : bool :=
  match u with NullNode _ => true | _ => false end.

(** [type(u1) == type(u2)] *)
Definition same_class (u1 u2 : NodeUnparser) : bool :=
  match u1, u2 with
  | RegularNode _, RegularNode _ | ListNode _, ListNode _
  | TokenNode _, TokenNode _ | NullNode _, NullNode _ => true
  | _, _ => false
  end.

(** [Unparser.combine] on node unparsers: the operands must be of the same
    class, and the class decides the [_combine] that runs; the null
    unparser does not override [_combine]. *)
Definition combine (self other : NodeUnparser) : result NodeUnparser :=
  assert (same_class self other) ~;;
  match self, other with
  | RegularNode a, RegularNode b =>
      r <~ RegularNodeUnparser._combine a b ;; OK (RegularNode r)
  | ListNode a, ListNode b =>
      r <~ ListNodeUnparser._combine a b ;; OK (ListNode r)
  | TokenNode a, TokenNode b =>
      r <~ TokenNodeUnparser._combine a b ;; OK (TokenNode r)
  | _, _ => Raise (NotImplementedError "_combine")
  end.

(** ** The compilation context and its registry of unparsers *)

Inductive WarningSet := unparser_bad_grammar | unused_node_type.

(** The state that the pass reads and writes: the context's request flag
    and node types, the four tables of the [Unparsers] registry, the
    warnings emitted so far, and the [parser] and [unparser] attributes
    that the passes attach to node types.  The two [defaultdict]s are maps
    whose missing keys read as the empty list. *)
Record Context := {
  generate_unparser : bool;
  astnode_types : list CompiledType;
  nodes_to_rules : gmap CompiledType (list Parser);
  unparsers : gmap CompiledType (list NodeUnparser);
  token_unparsers : gmap (TokenAction * option string) TokenUnparser.t;
  token_sequence_unparsers : list TokenSequenceUnparser.t;
  warnings : list (WarningSet * string);
  node_parser : gmap CompiledType Parser;
  node_unparser : gmap CompiledType NodeUnparser
}.

Definition M (A : Type) : Type := Context -> result (A * Context).

Definition ret {A} (a : A) : M A := fun ctx => OK (a, ctx).

Definition bind {A B} (m : M A) (k : A -> M B) : M B :=
  fun ctx => match m ctx with
             | OK (a, ctx') => k a ctx'
             | Raise e => Raise e
             end.

Definition lift {A} (r : result A) : M A :=
  fun ctx => match r with OK a => OK (a, ctx) | Raise e => Raise e end.

Definition get : M Context := fun ctx => OK (ctx, ctx).
Definition modify (f : Context -> Context) : M unit := fun ctx => OK (tt, f ctx).

Notation "x <- e ;; k" := (bind e (fun x => k))
  (at level 100, e at next level, right associativity).
Notation "e ;; k" := (bind e (fun _ => k))
  (at level 100, right associativity).

Definition set_warnings (l : list (WarningSet * string)) (ctx : Context) : Context :=
  {| generate_unparser := generate_unparser ctx;
     astnode_types := astnode_types ctx;
     nodes_to_rules := nodes_to_rules ctx;
     unparsers := unparsers ctx;
     token_unparsers := token_unparsers ctx;
     token_sequence_unparsers := token_sequence_unparsers ctx;
     warnings := l;
     node_parser := node_parser ctx;
     node_unparser := node_unparser ctx |}.

(** Modelled from the spec: the warning primitive of [langkit.diagnostics]
    is not part of the sources at hand; it records the warning when its
    condition holds and continues. *)
Definition warn_if (w : WarningSet) (cond : bool) (message : string) : M unit :=
  modify (fun ctx =>
    if cond then set_warnings (warnings ctx ++ [(w, message)]) ctx else ctx).

Definition set_generate_unparser (b : bool) (ctx : Context) : Context :=
  {| generate_unparser := b;
     astnode_types := astnode_types ctx;
     nodes_to_rules := nodes_to_rules ctx;
     unparsers := unparsers ctx;
     token_unparsers := token_unparsers ctx;
     token_sequence_unparsers := token_sequence_unparsers ctx;
     warnings := warnings ctx;
     node_parser := node_parser ctx;
     node_unparser := node_unparser ctx |}.

Definition set_nodes_to_rules (m : gmap CompiledType (list Parser)) (ctx : Context)
  : Context :=
  {| generate_unparser := generate_unparser ctx;
     astnode_types := astnode_types ctx;
     nodes_to_rules := m;
     unparsers := unparsers ctx;
     token_unparsers := token_unparsers ctx;
     token_sequence_unparsers := token_sequence_unparsers ctx;
     warnings := warnings ctx;
     node_parser := node_parser ctx;
     node_unparser := node_unparser ctx |}.

Definition set_unparsers (m : gmap CompiledType (list NodeUnparser)) (ctx : Context)
  : Context :=
  {| generate_unparser := generate_unparser ctx;
     astnode_types := astnode_types ctx;
     nodes_to_rules := nodes_to_rules ctx;
     unparsers := m;
     token_unparsers := token_unparsers ctx;
     token_sequence_unparsers := token_sequence_unparsers ctx;
     warnings := warnings ctx;
     node_parser := node_parser ctx;
     node_unparser := node_unparser ctx |}.

Definition set_token_unparsers
  (m : gmap (TokenAction * option string) TokenUnparser.t) (ctx : Context) : Context :=
  {| generate_unparser := generate_unparser ctx;
     astnode_types := astnode_types ctx;
     nodes_to_rules := nodes_to_rules ctx;
     unparsers := unparsers ctx;
     token_unparsers := m;
     token_sequence_unparsers := token_sequence_unparsers ctx;
     warnings := warnings ctx;
     node_parser := node_parser ctx;
     node_unparser := node_unparser ctx |}.

Definition set_token_sequence_unparsers (l : list TokenSequenceUnparser.t)
  (ctx : Context) : Context :=
  {| generate_unparser := generate_unparser ctx;
     astnode_types := astnode_types ctx;
     nodes_to_rules := nodes_to_rules ctx;
     unparsers := unparsers ctx;
     token_unparsers := token_unparsers ctx;
     token_sequence_unparsers := l;
     warnings := warnings ctx;
     node_parser := node_parser ctx;
     node_unparser := node_unparser ctx |}.

Definition set_node_parser (m : gmap CompiledType Parser) (ctx : Context) : Context :=
  {| generate_unparser := generate_unparser ctx;
     astnode_types := astnode_types ctx;
     nodes_to_rules := nodes_to_rules ctx;
     unparsers := unparsers ctx;
     token_unparsers := token_unparsers ctx;
     token_sequence_unparsers := token_sequence_unparsers ctx;
     warnings := warnings ctx;
     node_parser := m;
     node_unparser := node_unparser ctx |}.

Definition set_node_unparser (m : gmap CompiledType NodeUnparser) (ctx : Context)
  : Context :=
  {| generate_unparser := generate_unparser ctx;
     astnode_types := astnode_types ctx;
     nodes_to_rules := nodes_to_rules ctx;
     unparsers := unparsers ctx;
     token_unparsers := token_unparsers ctx;
     token_sequence_unparsers := token_sequence_unparsers ctx;
     warnings := warnings ctx;
     node_parser := node_parser ctx;
     node_unparser := m |}.

(** [check_source_language(False, message)] in a position where a value is
    expected: it always raises. *)
Definition fatal {A} (message : string) : M A :=
  lift (check_source_language (PyBool false) (PyStr message) ~;;
        Raise (NotImplementedError "unreachable")).

(** Loops of the pass over lists of parsers, with the body as a
    parameter. *)
Section Loops.

Context {A B : Type}.

  (** [for x in l: acc = f(acc, x)] *)
Definition foldM (f : B -> A -> M B) : list A -> B -> M B :=
    fix go (l : list A) (acc : B) : M B :=
      match l with
      | [] => ret acc
      | x :: l' => acc' <- f acc x ;; go l' acc'
      end.

  (** [for x in l: f(x)] *)
Definition forM_ (f : A -> M unit) : list A -> M unit :=
    fix go (l : list A) : M unit :=
      match l with
      | [] => ret tt
      | x :: l' => f x ;; go l'
      end.

  (** [f(l[i])], where an index out of range raises. *)
Definition on_item (f : A -> M B) : list A -> nat -> M B :=
    fix go (l : list A) (i : nat) : M B :=
      match l, i with
      | [], _ => lift (Raise IndexError)
      | x :: _, 0 => f x
      | _ :: l', S i' => go l' i'
      end.

End Loops.

(** ** Derivation of unparsers from parsers *)

(** [TokenUnparser.from_parser] on a token parser: fetch its token
    unparser from the cache of the registry, creating it on a miss. *)
Definition TokenUnparser_from_token (tok : TokenAction) (text : string)
  : M TokenUnparser.t :=
  let match_text := if String.eqb text "" then None else Some text in
  let key := (tok, match_text) in
  ctx <- get ;;
  match token_unparsers ctx !! key with
  | Some r => ret r
  | None =>
      r <- lift (TokenUnparser.__init__ tok match_text) ;;
      modify (fun ctx => set_token_unparsers (<[key := r]> (token_unparsers ctx)) ctx) ;;
      ret r
  end.

(** [TokenUnparser.from_parser] *)
Definition TokenUnparser_from_parser (parser : option Parser)
  : M (option TokenUnparser.t) :=
  match parser with
  | None => ret None
  | Some (_Token tok text) => r <- TokenUnparser_from_token tok text ;; ret (Some r)
  | Some _ => lift (Raise AssertionError)
  end.

Definition FieldUnparser_tokens (fu : FieldUnparser.t) (always_absent : bool)
  (pre_tokens post_tokens : TokenSequenceUnparser.t) : FieldUnparser.t :=
  {| FieldUnparser.node := FieldUnparser.node fu;
     FieldUnparser.field := FieldUnparser.field fu;
     FieldUnparser.always_absent := always_absent;
     FieldUnparser.pre_tokens := pre_tokens;
     FieldUnparser.post_tokens := post_tokens |}.

Definition set_always_absent (b : bool) (fu : FieldUnparser.t) : FieldUnparser.t :=
  FieldUnparser_tokens fu b (FieldUnparser.pre_tokens fu) (FieldUnparser.post_tokens fu).

Section Derivation.

Context {ops : ParserOps}.

Fixpoint _emit_to_token_sequence (parser : Parser)
    (token_sequence : TokenSequenceUnparser.t) {struct parser}
    : M TokenSequenceUnparser.t :=
    match unwrap_dont_skip parser with
    | _Row parsers =>
        foldM (fun seq subparser => _emit_to_token_sequence subparser seq)
              parsers token_sequence
    | _Token tok text =>
        u <- TokenUnparser_from_token tok text ;;
        ret (TokenSequenceUnparser.append token_sequence u)
    | Opt sub _ true => _emit_to_token_sequence sub token_sequence
    | DontSkip _ | NoBacktrack => ret token_sequence
    | p => fatal ("Static sequence of tokens expected, but got: " +:+ repr p)
    end.

Definition _split_extract (parser : Parser)
    : M (TokenSequenceUnparser.t * Parser * TokenSequenceUnparser.t) :=
    match parser with
    | _Extract (_Row subparsers) index =>
        pre_toks <- foldM (fun seq pre_parser => _emit_to_token_sequence pre_parser seq)
                          (take index subparsers) (TokenSequenceUnparser.__init__ []) ;;
        node_parser <- lift (getitem subparsers index) ;;
        post_toks <- foldM (fun seq post_parser => _emit_to_token_sequence post_parser seq)
                           (drop (S index) subparsers) (TokenSequenceUnparser.__init__ []) ;;
        ret (TokenSequenceUnparser.__init__ (TokenSequenceUnparser.tokens pre_toks),
             node_parser,
             TokenSequenceUnparser.__init__ (TokenSequenceUnparser.tokens post_toks))
    | _ => lift (Raise AssertionError)
    end.

  (** The token sequence that a discarded sub-parser of a row goes to, and
      the result with that sequence replaced. *)
Definition emit_discarded (subp : Parser) (next_field : nat)
    (result : RegularNodeUnparser.t) : M RegularNodeUnparser.t :=
    let fields := RegularNodeUnparser.field_unparsers result in
    if Nat.eqb next_field 0 then
      tok_seq <- _emit_to_token_sequence subp (RegularNodeUnparser.pre_tokens result) ;;
      ret {| RegularNodeUnparser.node := RegularNodeUnparser.node result;
             RegularNodeUnparser.pre_tokens := tok_seq;
             RegularNodeUnparser.field_unparsers := fields;
             RegularNodeUnparser.inter_tokens := RegularNodeUnparser.inter_tokens result;
             RegularNodeUnparser.post_tokens := RegularNodeUnparser.post_tokens result |}
    else if Nat.ltb next_field (length fields) then
      tok_seq <- lift (getitem (RegularNodeUnparser.inter_tokens result) (next_field - 1)) ;;
      tok_seq <- _emit_to_token_sequence subp tok_seq ;;
      ret {| RegularNodeUnparser.node := RegularNodeUnparser.node result;
             RegularNodeUnparser.pre_tokens := RegularNodeUnparser.pre_tokens result;
             RegularNodeUnparser.field_unparsers := fields;
             RegularNodeUnparser.inter_tokens :=
               <[next_field - 1 := tok_seq]> (RegularNodeUnparser.inter_tokens result);
             RegularNodeUnparser.post_tokens := RegularNodeUnparser.post_tokens result |}
    else
      tok_seq <- _emit_to_token_sequence subp (RegularNodeUnparser.post_tokens result) ;;
      ret {| RegularNodeUnparser.node := RegularNodeUnparser.node result;
             RegularNodeUnparser.pre_tokens := RegularNodeUnparser.pre_tokens result;
             RegularNodeUnparser.field_unparsers := fields;
             RegularNodeUnparser.inter_tokens := RegularNodeUnparser.inter_tokens result;
             RegularNodeUnparser.post_tokens := tok_seq |}.

Definition set_field_unparser (next_field : nat) (fu : FieldUnparser.t)
    (result : RegularNodeUnparser.t) : RegularNodeUnparser.t :=
    {| RegularNodeUnparser.node := RegularNodeUnparser.node result;
       RegularNodeUnparser.pre_tokens := RegularNodeUnparser.pre_tokens result;
       RegularNodeUnparser.field_unparsers :=
         <[next_field := fu]> (RegularNodeUnparser.field_unparsers result);
       RegularNodeUnparser.inter_tokens := RegularNodeUnparser.inter_tokens result;
       RegularNodeUnparser.post_tokens := RegularNodeUnparser.post_tokens result |}.

Definition set_pre_tokens (seq : TokenSequenceUnparser.t)
    (result : RegularNodeUnparser.t) : RegularNodeUnparser.t :=
    {| RegularNodeUnparser.node := RegularNodeUnparser.node result;
       RegularNodeUnparser.pre_tokens := seq;
       RegularNodeUnparser.field_unparsers := RegularNodeUnparser.field_unparsers result;
       RegularNodeUnparser.inter_tokens := RegularNodeUnparser.inter_tokens result;
       RegularNodeUnparser.post_tokens := RegularNodeUnparser.post_tokens result |}.

  (** [NodeUnparser.from_parser] and [NodeUnparser._emit_to_field_unparser].
      A field unparser under elaboration is an object that the source
      completes in place; here the completed one is returned. *)
Fixpoint from_parser (node : CompiledType) (parser : Parser) {struct parser}
    : M NodeUnparser :=
    lift (assert (negb (abstract node) && negb (synthetic node))) ;;
    if is_token_node node then
      lift (check_source_language
              (PyBool (isinstance (unwrap_dont_skip parser) KTransform))
              (PyStr ("Unsupported token node parser for unparsers generation: "
                      +:+ repr (unwrap_dont_skip parser)))) ;;
      ret (TokenNode {| TokenNodeUnparser.node := node |})
    else
      match unwrap_dont_skip parser with
      | _Transform (_Row subparsers) _ =>
          r <- foldM
                 (fun '(next_field, result) subp =>
                    if discard subp then
                      result' <- emit_discarded subp next_field result ;;
                      ret (next_field, result')
                    else
                      fu <- lift (getitem (RegularNodeUnparser.field_unparsers result)
                                          next_field) ;;
                      fu' <- _emit_to_field_unparser subp fu ;;
                      ret (S next_field, set_field_unparser next_field fu' result))
                 subparsers (0, RegularNodeUnparser.__init__ node) ;;
          ret (RegularNode (snd r))
      | _Transform _ _ => lift (Raise AssertionError)
      | List _ sep _ =>
          s <- TokenUnparser_from_parser sep ;;
          ret (ListNode {| ListNodeUnparser.node := node;
                           ListNodeUnparser.separator := s |})
      | Opt sub (Some booleanize) _ =>
          let result := RegularNodeUnparser.__init__ node in
          if bool_decide (node = _alt_present booleanize) then
            seq <- _emit_to_token_sequence sub (RegularNodeUnparser.pre_tokens result) ;;
            ret (RegularNode (set_pre_tokens seq result))
          else ret (RegularNode result)
      | Opt sub None _ => from_parser node sub
      | Null _ => ret (NullNode {| NullNodeUnparser.node := node |})
      | p => fatal ("Unsupported parser for unparsers generation: " +:+ repr p)
      end

with _emit_to_field_unparser (parser : Parser) (field_unparser : FieldUnparser.t)
    {struct parser} : M FieldUnparser.t :=
    match unwrap_dont_skip parser with
    | (Defer _ | List _ _ _ | Null _ | _Transform _ _) as p =>
        ret (set_always_absent
               (FieldUnparser.always_absent field_unparser && isinstance p KNull)
               field_unparser)
    | Opt sub None _ =>
        _emit_to_field_unparser sub (set_always_absent false field_unparser)
    | Opt _ (Some _) _ => ret field_unparser
    | Or parsers =>
        let field_unparser := set_always_absent false field_unparser in
        forM_ (fun subparser =>
                 if isinstance subparser KDefer then ret tt
                 else from_parser (get_type subparser) subparser ;; ret tt)
              parsers ;;
        ret field_unparser
    | _Extract sub index =>
        r <- _split_extract (_Extract sub index) ;;
        let '(pre_toks, _, post_toks) := r in
        let field_unparser :=
          FieldUnparser_tokens field_unparser false
            (TokenSequenceUnparser.__add__ (FieldUnparser.pre_tokens field_unparser) pre_toks)
            (TokenSequenceUnparser.__add__ post_toks (FieldUnparser.post_tokens field_unparser)) in
        match sub with
        | _Row subparsers =>
            on_item (fun node_parser => _emit_to_field_unparser node_parser field_unparser)
                    subparsers index
        | _ => lift (Raise AssertionError)
        end
    | p => fatal ("Unsupported parser for node field: " +:+ repr p)
    end.

End Derivation.

(** ** Node creation and structural equality of parsers *)

(** Modelled from the spec: [langkit.utils.is_same] is not part of the
    sources at hand; it tells whether all the elements of a collection are
    the same. *)
Definition is_same {A} `{EqDecision A} (coll : list A) : bool :=
  match coll with
  | [] => true
  | x :: l => forallb (fun y => bool_decide (y = x)) l
  end.

(** [zip] applied to the unpacked list of rows: the columns, up to the
    shortest row. *)
Fixpoint zip_star_upto {A} (n : nat) (lists : list (list A)) : list (list A) :=
  match n with
  | 0 => []
  | S n' =>
      if forallb (fun l => negb (Nat.eqb (length l) 0)) lists
      then omap head lists :: zip_star_upto n' (map tail lists)
      else []
  end.

Definition zip_star {A} (lists : list (list A)) : list (list A) :=
  match lists with
  | [] => []
  | l :: _ => zip_star_upto (length l) lists
  end.

Definition is_termination (term : Parser) : bool :=
  match term with
  | _Token v _ => bool_decide (v = LexerToken.Termination)
  | _ => false
  end.

Fixpoint depth (p : Parser) : nat :=
  match p with
  | Defer _ | NoBacktrack | Null _ | Skip _ | _Token _ _ => 1
  | DontSkip sub | Opt sub _ _ | Predicate sub | _Extract sub _ | _Transform sub _ =>
      S (depth sub)
  | List elt sep _ =>
      S (Nat.max (depth elt) (match sep with Some s => depth s | None => 0 end))
  | Or ps | _Row ps => S (list_max (map depth ps))
  end.

Section StructuralEquality.

Context {ops : ParserOps}.

Fixpoint creates_node (p : Parser) : result bool :=
    match p with
    | Or parsers => allR creates_node parsers
    | Defer _ => OK (is_ast_node (get_type p))
    | Opt sub booleanize _ =>
        c <~ creates_node sub ;;
        if c then OK true
        else OK (match booleanize with Some b => is_enum_node b | None => false end)
    | Predicate sub => creates_node sub
    | _Extract (_Row parsers) _ | _Extract (Or parsers) _ =>
        match parsers with
        | [node; term] => c <~ creates_node node ;; OK (c && is_termination term)
        | _ => OK false
        end
    | _Extract _ _ => Raise AttributeError
    | _Transform _ _ | Skip _ | List _ _ _ => OK true
    | _ => OK false
    end.

Definition token_val (p : Parser) : option TokenAction :=
    match p with _Token v _ => Some v | _ => None end.

Definition extract_parser (p : Parser) : Parser :=
    match p with _Extract sub _ => sub | _ => p end.

Definition extract_index (p : Parser) : option nat :=
    match p with _Extract _ i => Some i | _ => None end.

  (** [unparser_struct_eq], with the depth of the recursion bounded by
      [fuel]. *)
Fixpoint unparser_struct_eq_rec (fuel : nat) (parsers : list Parser)
    (toplevel : bool) : result bool :=
    match fuel with
    | 0 => Raise RecursionError
    | S fuel =>
        let parsers :=
          map unwrap_dont_skip
              (filter (fun p => isinstance p KNull = false) parsers) in
        if Nat.eqb (length parsers) 1 then OK true
        else
          let parsers_types := remove_dups (map type_of parsers) in
          settled <~
            match parsers_types with
            | [typ] =>
                if bool_decide (typ ∈ [KRow; KTransform; KList; KOpt]) then
                  let children_lists :=
                    map (fun p => filter (fun subp => isinstance subp KNoBacktrack = false)
                                         (children p)) parsers in
                  if is_same (map length children_lists) then
                    b <~ allR (fun c => unparser_struct_eq_rec fuel c false)
                              (zip_star children_lists) ;;
                    OK (Some b)
                  else OK (Some false)
                else if bool_decide (typ = KToken) then
                  OK (Some (is_same (map token_val parsers)))
                else if bool_decide (typ = KExtract) then
                  b <~ unparser_struct_eq_rec fuel (map extract_parser parsers) true ;;
                  if b then OK (Some (is_same (map extract_index parsers)))
                  else OK (Some false)
                else if bool_decide (typ ∈ [KDefer; KOr]) then OK None
                else Raise (NotImplementedError "Parser type not handled")
            | _ => OK None
            end ;;
          match settled with
          | Some b => OK b
          | None =>
              if negb toplevel then
                let resolved_parsers :=
                  map (fun p => if isinstance p KDefer then resolve p else p) parsers in
                allR creates_node resolved_parsers
              else OK false
          end
    end.

Definition unparser_struct_eq (parsers : list Parser) (toplevel : bool)
    : result bool :=
    unparser_struct_eq_rec (S (list_max (map depth parsers))) parsers toplevel.

Fixpoint has_null (parser : Parser) : bool :=
    match parser with
    | Null _ => true
    | Defer _ | NoBacktrack | Skip _ | _Token _ _ => false
    | DontSkip sub | Opt sub _ _ | Predicate sub | _Extract sub _ | _Transform sub _ =>
        has_null sub
    | List elt sep _ =>
        has_null elt || match sep with Some s => has_null s | None => false end
    | Or ps | _Row ps => existsb has_null ps
    end.

  (** [funcy.split] gives the parsers that satisfy the predicate, then the
      others. *)
Definition find_canonical_parser (parsers : list Parser) : result Parser :=
    let nulls := filter (fun p => has_null p = true) parsers in
    let no_nulls := filter (fun p => has_null p = false) parsers in
    match no_nulls with
    | p :: _ => OK p
    | [] => getitem nulls 0
    end.

End StructuralEquality.

(** ** The passes of the [Unparsers] registry *)

(** [d[k].append(x)] on a [defaultdict(list)]. *)
Definition dict_append {K V} `{Countable K} (k : K) (x : V) (d : gmap K (list V))
  : gmap K (list V) :=
  <[k := default [] (d !! k) ++ [x]]> d.

Definition FieldUnparser_collect (self : FieldUnparser.t) : M unit :=
  modify (fun ctx =>
    set_token_sequence_unparsers
      (token_sequence_unparsers ctx
         ++ [FieldUnparser.pre_tokens self; FieldUnparser.post_tokens self]) ctx).

Definition tok_seq_list_append (seq : TokenSequenceUnparser.t) : M unit :=
  modify (fun ctx =>
    set_token_sequence_unparsers (token_sequence_unparsers ctx ++ [seq]) ctx).

(** [collect]: the list and token node unparsers have nothing to
    register, the null unparser does not override the method. *)
Definition collect (self : NodeUnparser) : M unit :=
  match self with
  | RegularNode u =>
      tok_seq_list_append (RegularNodeUnparser.pre_tokens u) ;;
      forM_ (fun '(field_unparser, inter_tokens) =>
               FieldUnparser_collect field_unparser ;;
               tok_seq_list_append inter_tokens)
            (RegularNodeUnparser.zip_fields u) ;;
      tok_seq_list_append (RegularNodeUnparser.post_tokens u)
  | ListNode _ | TokenNode _ => ret tt
  | NullNode _ => lift (Raise (NotImplementedError "collect"))
  end.

Section Registry.

Context {ops : ParserOps}.

Definition abort_unparser (message : string) : M unit :=
    ctx <- get ;;
    let extra_info :=
      if generate_unparser ctx
      then nl +:+ "For more information, enable the the unparser_eq trace."
      else "" in
    warn_if unparser_bad_grammar true
      (message +:+ " This prevents the generation of an automatic unparser."
       +:+ extra_info) ;;
    modify (set_generate_unparser false).

  (** The local [append] of [compute]. *)
Definition append (node : CompiledType) (parser : Parser) : M unit :=
    modify (fun ctx => set_nodes_to_rules (dict_append node parser (nodes_to_rules ctx)) ctx) ;;
    ctx <- get ;;
    if generate_unparser ctx then
      u <- from_parser node parser ;;
      modify (fun ctx => set_unparsers (dict_append node u (unparsers ctx)) ctx)
    else ret tt.

  (** The guard of [compute_internal] on an extraction: the row is a node
      followed by the termination token. *)
Definition node_then_termination (subparsers : list Parser) : bool :=
    Nat.eqb (length subparsers) 2
    && match subparsers !! 1 with
       | Some term => is_termination term
       | None => false
       end.

  (** What [compute_internal] does on [p] before it visits the children,
      and the [toplevel] it visits them with. *)
Definition compute_visit (p : Parser) (toplevel : bool) : M bool :=
    match p with
    | Skip _ => ret toplevel
    | Opt _ (Some booleanize) _ =>
        forM_ (fun alt => append alt p) (_alternatives booleanize) ;;
        ret false
    | List _ _ _ | _Transform _ _ =>
        append (get_type p) p ;;
        ret false
    | Null _ | Or _ => ret toplevel
    | _Extract sub _ =>
        match sub with
        | _Row subparsers =>
            ctx <- get ;;
            lift (check_source_language
                    (PyBool (negb (generate_unparser ctx)
                             || negb toplevel
                             || node_then_termination subparsers))
                    (PyStr "Top-level information loss prevents unparsers generation")) ;;
            ret toplevel
        | _ => lift (Raise AssertionError)
        end
    | _ => ret toplevel
    end.

Fixpoint compute_internal (p : Parser) (toplevel : bool) {struct p} : M unit :=
    toplevel <- compute_visit p toplevel ;;
    match p with
    | Defer _ | NoBacktrack | Null _ | Skip _ | _Token _ _ => ret tt
    | DontSkip c | Opt c _ _ | Predicate c | _Extract c _ | _Transform c _ =>
        compute_internal c toplevel
    | List c sep _ =>
        compute_internal c toplevel ;;
        match sep with
        | Some s => compute_internal s toplevel
        | None => ret tt
        end
    | Or cs | _Row cs => forM_ (fun c => compute_internal c toplevel) cs
    end.

Definition compute (parser : Parser) : M unit :=
    if is_dont_skip_parser parser then ret tt
    else
      compute_internal parser true ;;
      creates <- lift (creates_node parser) ;;
      if negb creates then
        abort_unparser ("'" +:+ rule_name parser +:+ "' toplevel rule loses information.")
      else ret tt.

  (** The second loop of [check_nodes_to_rules], over the items of
      [nodes_to_rules]; it returns at the first node whose parsers are not
      structurally equal. *)
Fixpoint check_items (items : list (CompiledType * list Parser)) : M unit :=
    match items with
    | [] => ret tt
    | (node, parsers) :: items' =>
        eq <- lift (unparser_struct_eq parsers true) ;;
        if negb eq then
          abort_unparser ("Node " +:+ name node
                          +:+ " is parsed in different incompatible ways.")
        else
          canonical <- lift (find_canonical_parser parsers) ;;
          modify (fun ctx => set_node_parser (<[node := canonical]> (node_parser ctx)) ctx) ;;
          check_items items'
    end.

Definition check_nodes_to_rules : M unit :=
    ctx <- get ;;
    forM_ (fun node_type =>
             ctx <- get ;;
             warn_if unused_node_type
               (bool_decide (nodes_to_rules ctx !! node_type = None)
                && negb (abstract node_type)
                && negb (synthetic node_type)
                && negb (is_list_type node_type && is_root_list_type node_type))
               (name node_type
                +:+ " has no parser, and is marked neither abstract nor synthetic"))
          (astnode_types ctx) ;;
    ctx <- get ;;
    if negb (generate_unparser ctx) then ret tt
    else check_items (map_to_list (nodes_to_rules ctx)).

  (** The body of the loop of [finalize] for one node type. *)
Definition finalize_node (node : CompiledType) : M unit :=
    ctx <- get ;;
    let unparsers := default [] (unparsers ctx !! node) in
    match unparsers with
    | [] => ret tt
    | _ =>
        let unparsers := filter (fun u => is_NullNodeUnparser u = false) unparsers in
        match unparsers with
        | [] => lift (Raise AssertionError)
        | combined :: unparsers =>
            combined <- foldM (fun combined unparser =>
                                 combined <- lift (combine combined unparser) ;;
                                 lift (assert (same_class unparser combined)) ;;
                                 ret combined)
                              unparsers combined ;;
            modify (fun ctx => set_node_unparser (<[node := combined]> (node_unparser ctx)) ctx) ;;
            collect combined
        end
    end.

Definition finalize : M unit :=
    ctx <- get ;;
    forM_ finalize_node (astnode_types ctx).

End Registry.

(** * Predicates of the statements and example data *)

(** The invariant that the constructor of token unparsers asserts. *)
Definition wf_token (t : TokenUnparser.t) : bool :=
  Bool.eqb (bool_decide (matcher (TokenUnparser.token t) = None))
           (str_truthy (TokenUnparser.match_text t)).

Definition wf_sequence (s : TokenSequenceUnparser.t) : Prop :=
  Forall (fun t => wf_token t = true) (TokenSequenceUnparser.tokens s).

(** Two token unparsers that render to the same text. *)
Definition same_text (t1 t2 : TokenUnparser.t) : Prop :=
  exists s, TokenUnparser.dumps t1 = OK s /\ TokenUnparser.dumps t2 = OK s.

Definition pairwise_equivalent (s1 s2 : TokenSequenceUnparser.t) : Prop :=
  Forall2 same_text (TokenSequenceUnparser.tokens s1) (TokenSequenceUnparser.tokens s2).

Definition wf_field (fu : FieldUnparser.t) : Prop :=
  wf_sequence (FieldUnparser.pre_tokens fu) /\ wf_sequence (FieldUnparser.post_tokens fu).

(** A small grammar to run the pass on: punctuation tokens, an identifier
    token without literal, a regular node with one field, a list node. *)
Module Ex.

Definition literal (n text : string) : TokenAction :=
    {| tok_name := n; matcher := Some {| to_match := text |} |}.

Definition LPar : TokenAction := literal "LPar" "(".
Definition RPar : TokenAction := literal "RPar" ")".
Definition Comma : TokenAction := literal "Comma" ",".
Definition Semicolon : TokenAction := literal "Semicolon" ";".
Definition Identifier : TokenAction := {| tok_name := "Identifier"; matcher := None |}.

Definition node_type (n : string) (fields : list string) : CompiledType :=
    {| name := n; dsl_name := n; is_ast_node := true; abstract := false;
       synthetic := false; is_token_node := false; is_list_type := false;
       is_root_list_type := false;
       get_parse_fields := map Build_Field fields |}.

Definition Paren : CompiledType := node_type "Paren" ["Paren.f_expr"].
Definition Name : CompiledType := node_type "Name" [].
Definition NameList : CompiledType :=
    {| name := "NameList"; dsl_name := "Name.list"; is_ast_node := true;
       abstract := false; synthetic := false; is_token_node := false;
       is_list_type := true; is_root_list_type := true; get_parse_fields := [] |}.

Definition unparser (tok : TokenAction) : TokenUnparser.t :=
    {| TokenUnparser.token := tok; TokenUnparser.match_text := None |}.

Definition sequence (toks : list TokenAction) : TokenSequenceUnparser.t :=
    TokenSequenceUnparser.__init__ (map unparser toks).

  (** The methods of the parsers on this grammar: tokens and the
      no-backtrack marker are discarded in a row, a parser yields the type
      it carries, deferred references resolve to a name. *)
Definition ops : ParserOps :=
    {| get_type p :=
         match p with
         | _Transform _ t | List _ _ t | Null t | Skip t => t
         | _ => Name
         end;
       discard p :=
         match p with
         | _Token _ _ | NoBacktrack => true
         | _ => false
         end;
       repr _ := "<parser>";
       rule_name _ := "main_rule";
       is_dont_skip_parser _ := false;
       resolve _ := _Transform (_Row [_Token Identifier ""]) Name |}.

Definition empty_context (generate : bool) : Context :=
    {| generate_unparser := generate;
       astnode_types := [Paren; Name; NameList];
       nodes_to_rules := ∅;
       unparsers := ∅;
       token_unparsers := ∅;
       token_sequence_unparsers := [];
       warnings := [];
       node_parser := ∅;
       node_unparser := ∅ |}.

Definition comma_list : ListNodeUnparser.t :=
    {| ListNodeUnparser.node := NameList;
       ListNodeUnparser.separator := Some (unparser Comma) |}.

Definition semicolon_list : ListNodeUnparser.t :=
    {| ListNodeUnparser.node := NameList;
       ListNodeUnparser.separator := Some (unparser Semicolon) |}.

Definition no_separator_list : ListNodeUnparser.t :=
    {| ListNodeUnparser.node := NameList;
       ListNodeUnparser.separator := None |}.

Definition field_unparser (absent : bool) (pre post : list TokenAction)
    : FieldUnparser.t :=
    {| FieldUnparser.node := Paren;
       FieldUnparser.field := Build_Field "Paren.f_expr";
       FieldUnparser.always_absent := absent;
       FieldUnparser.pre_tokens := sequence pre;
       FieldUnparser.post_tokens := sequence post |}.

End Ex.

Definition token_parser (t : TokenAction * string) : Parser := _Token t.1 t.2.

(** The parsers that [unparser_struct_eq] compares: the always-empty ones
    are discarded and the [DontSkip] wrappers stripped. *)
Definition remaining (parsers : list Parser) : list Parser :=
  map unwrap_dont_skip (filter (fun p => isinstance p KNull = false) parsers).

(** The token unparser that a token parser stands for. *)
Definition token_unparser_of (t : TokenAction * string) : TokenUnparser.t :=
  {| TokenUnparser.token := t.1;
     TokenUnparser.match_text := if String.eqb t.2 "" then None else Some t.2 |}.

(** The cache of token unparsers holds, under a key, the token unparser of
    that key. *)
Definition cache_ok (ctx : Context) : Prop :=
  forall k u, token_unparsers ctx !! k = Some u ->
              u = {| TokenUnparser.token := k.1; TokenUnparser.match_text := k.2 |}.

(** A field parser that goes directly to node creation. *)
Definition direct_field (p : Parser) : Prop :=
  type_of (unwrap_dont_skip p) ∈ [KDefer; KList; KNull; KTransform].

(** The unparser of a rule that puts one field between two tokens. *)
Definition parenthesized_result (node : CompiledType) (f : Field)
  (open close : TokenAction * string) (absent : bool) : NodeUnparser :=
  RegularNode
    {| RegularNodeUnparser.node := node;
       RegularNodeUnparser.pre_tokens :=
         TokenSequenceUnparser.__init__ [token_unparser_of open];
       RegularNodeUnparser.field_unparsers :=
         [ {| FieldUnparser.node := node;
              FieldUnparser.field := f;
              FieldUnparser.always_absent := absent;
              FieldUnparser.pre_tokens := TokenSequenceUnparser.__init__ [];
              FieldUnparser.post_tokens := TokenSequenceUnparser.__init__ [] |} ];
       RegularNodeUnparser.inter_tokens := [];
       RegularNodeUnparser.post_tokens :=
         TokenSequenceUnparser.__init__ [token_unparser_of close] |}.

(** ** Induction on parsers *)

Section ParserInduction.

Variable P : Parser -> Prop.

Hypothesis HDefer : forall rule, P (Defer rule).
Hypothesis HDontSkip : forall sub, P sub -> P (DontSkip sub).
Hypothesis HList : forall elt sep typ,
  P elt -> match sep with Some s => P s | None => True end -> P (List elt sep typ).
Hypothesis HNoBacktrack : P NoBacktrack.
Hypothesis HNull : forall typ, P (Null typ).
Hypothesis HOpt : forall sub b e, P sub -> P (Opt sub b e).
Hypothesis HOr : forall ps, Forall P ps -> P (Or ps).
Hypothesis HPredicate : forall sub, P sub -> P (Predicate sub).
Hypothesis HSkip : forall n, P (Skip n).
Hypothesis HExtract : forall sub i, P sub -> P (_Extract sub i).
Hypothesis HRow : forall ps, Forall P ps -> P (_Row ps).
Hypothesis HToken : forall v m, P (_Token v m).
Hypothesis HTransform : forall sub typ, P sub -> P (_Transform sub typ).

Fixpoint Parser_nested_ind (p : Parser) : P p :=
  let all := fix all (ps : list Parser) : Forall P ps :=
    match ps with
    | [] => @List.Forall_nil _ P
    | q :: ps' => @List.Forall_cons _ P q ps' (Parser_nested_ind q) (all ps')
    end in
  match p with
  | Defer rule => HDefer rule
  | DontSkip sub => HDontSkip sub (Parser_nested_ind sub)
  | List elt sep typ =>
      HList elt sep typ (Parser_nested_ind elt)
        (match sep as o return match o with Some s => P s | None => True end with
         | Some s => Parser_nested_ind s
         | None => I
         end)
  | NoBacktrack => HNoBacktrack
  | Null typ => HNull typ
  | Opt sub b e => HOpt sub b e (Parser_nested_ind sub)
  | Or ps => HOr ps (all ps)
  | Predicate sub => HPredicate sub (Parser_nested_ind sub)
  | Skip n => HSkip n
  | _Extract sub i => HExtract sub i (Parser_nested_ind sub)
  | _Row ps => HRow ps (all ps)
  | _Token v m => HToken v m
  | _Transform sub typ => HTransform sub typ (Parser_nested_ind sub)
  end.

End ParserInduction.

(** Every extraction of the parser wraps a row, as the pass asserts. *)
Fixpoint extracts_rows (p : Parser) : bool :=
  match p with
  | Defer _ | NoBacktrack | Null _ | Skip _ | _Token _ _ => true
  | DontSkip sub | Opt sub _ _ | Predicate sub | _Transform sub _ => extracts_rows sub
  | _Extract sub _ => isinstance sub KRow && extracts_rows sub
  | List elt sep _ =>
      extracts_rows elt && match sep with Some s => extracts_rows s | None => true end
  | Or ps | _Row ps => forallb extracts_rows ps
  end.

(** The row of a top-level extraction that loses no information: a node
    followed by the termination token. *)
Definition whitelisted_row (row : list Parser) : Prop :=
  exists node text, row = [node; _Token LexerToken.Termination text].


Section Recording.

Context {ops : ParserOps}.

(** The (node type, parser) pairs that the walk of [compute] records for a
    parser, in the order of the walk. *)
Definition recorded_here (p : Parser) : list (CompiledType * Parser) :=
  match p with
  | Opt _ (Some booleanize) _ => map (fun alt => (alt, p)) (_alternatives booleanize)
  | List _ _ _ | _Transform _ _ => [(get_type p, p)]
  | _ => []
  end.

Fixpoint recorded (p : Parser) : list (CompiledType * Parser) :=
  recorded_here p ++
  match p with
  | Defer _ | NoBacktrack | Null _ | Skip _ | _Token _ _ => []
  | DontSkip c | Opt c _ _ | Predicate c | _Extract c _ | _Transform c _ => recorded c
  | List c sep _ => recorded c ++ match sep with Some s => recorded s | None => [] end
  | Or cs | _Row cs => concat (map recorded cs)
  end.

Definition record_all (pairs : list (CompiledType * Parser))
  (table : gmap CompiledType (list Parser)) : gmap CompiledType (list Parser) :=
  foldl (fun table '(node, parser) => dict_append node parser table) table pairs.



End Recording.

Definition top_level_information_loss : exn :=
  DiagnosticError (PyStr "Top-level information loss prevents unparsers generation").

(** The context after the walk of [compute] has recorded [pairs]. *)
Definition after_recording (pairs : list (CompiledType * Parser)) (ctx : Context)
  : Context :=
  set_nodes_to_rules (record_all pairs (nodes_to_rules ctx)) ctx.



(** * Further predicates: what the derivation and the walk keep *)

(** A computation all of whose returns relate the contexts by [R]. *)
Definition respects (R : Context -> Context -> Prop) {A} (m : M A) : Prop :=
  forall ctx a ctx', m ctx = OK (a, ctx') -> R ctx ctx'.

(** The only table that the derivation writes is the cache of token
    unparsers, which it only extends, keeping it consistent. *)
Definition cache_step (ctx ctx' : Context) : Prop :=
  ctx' = set_token_unparsers (token_unparsers ctx') ctx
  /\ token_unparsers ctx ⊆ token_unparsers ctx'
  /\ (cache_ok ctx -> cache_ok ctx').

(** An optional token unparser that satisfies the constructor's
    invariant when it is present. *)
Definition wf_separator (o : option TokenUnparser.t) : Prop :=
  forall t, o = Some t -> wf_token t = true.

(** What the field derivation keeps of the field unparser it completes:
    its node and field, the tokens it has (new ones come after the prefix
    tokens and before the postfix tokens), and the knowledge that the field
    may be present. *)
Definition field_step (fu fu' : FieldUnparser.t) : Prop :=
  FieldUnparser.node fu' = FieldUnparser.node fu
  /\ FieldUnparser.field fu' = FieldUnparser.field fu
  /\ (FieldUnparser.always_absent fu = false -> FieldUnparser.always_absent fu' = false)
  /\ TokenSequenceUnparser.tokens (FieldUnparser.pre_tokens fu)
       `prefix_of` TokenSequenceUnparser.tokens (FieldUnparser.pre_tokens fu')
  /\ TokenSequenceUnparser.tokens (FieldUnparser.post_tokens fu)
       `suffix_of` TokenSequenceUnparser.tokens (FieldUnparser.post_tokens fu').

(** The shape of a regular unparser that the row loop of the derivation
    keeps. *)
Definition regular_step (r r' : RegularNodeUnparser.t) : Prop :=
  RegularNodeUnparser.node r' = RegularNodeUnparser.node r
  /\ map FieldUnparser.field (RegularNodeUnparser.field_unparsers r')
     = map FieldUnparser.field (RegularNodeUnparser.field_unparsers r)
  /\ map FieldUnparser.node (RegularNodeUnparser.field_unparsers r')
     = map FieldUnparser.node (RegularNodeUnparser.field_unparsers r)
  /\ length (RegularNodeUnparser.inter_tokens r')
     = length (RegularNodeUnparser.inter_tokens r).

(** The node type that an unparser is for. *)
Definition node_of (u : NodeUnparser) : CompiledType :=
  match u with
  | RegularNode r => RegularNodeUnparser.node r
  | ListNode l => ListNodeUnparser.node l
  | TokenNode t => TokenNodeUnparser.node t
  | NullNode n => NullNodeUnparser.node n
  end.

(** An unparser of the shape of its node type: one field unparser per
    parse field, in order, and one token sequence between two fields. *)
Definition well_shaped (u : NodeUnparser) : Prop :=
  match u with
  | RegularNode r =>
      map FieldUnparser.field (RegularNodeUnparser.field_unparsers r)
      = get_parse_fields (RegularNodeUnparser.node r)
      /\ Forall (fun fu => FieldUnparser.node fu = RegularNodeUnparser.node r)
                (RegularNodeUnparser.field_unparsers r)
      /\ length (RegularNodeUnparser.inter_tokens r)
         = length (get_parse_fields (RegularNodeUnparser.node r)) - 1
  | _ => True
  end.

(** The relation between the token sequence and context before and after
    an emission of tokens. *)
Definition emission_step (a b : TokenSequenceUnparser.t * Context) : Prop :=
  TokenSequenceUnparser.tokens a.1 `prefix_of` TokenSequenceUnparser.tokens b.1
  /\ cache_step a.2 b.2.

(** The relation between the state of the row loop of the derivation,
    with the context, before and after some of its steps. *)
Definition row_step (a b : nat * RegularNodeUnparser.t * Context) : Prop :=
  cache_step a.2 b.2 /\ regular_step a.1.2 b.1.2.

(** The number of entries that a table of the registry holds for a node
    type. *)
Definition occurrences {V} (table : gmap CompiledType (list V)) (node : CompiledType)
  : nat :=
  length (default [] (table !! node)).

(** What the walk of [compute] keeps: the request flag; and, while
    generation is enabled, as many occurrences are derived for a node type
    as parsers are recorded for it. *)
Definition walk_step (ctx ctx' : Context) : Prop :=
  generate_unparser ctx' = generate_unparser ctx
  /\ warnings ctx' = warnings ctx
  /\ (cache_ok ctx -> cache_ok ctx')
  /\ (generate_unparser ctx = true ->
      forall node,
        occurrences (unparsers ctx') node + occurrences (nodes_to_rules ctx) node
        = occurrences (unparsers ctx) node + occurrences (nodes_to_rules ctx') node)
  /\ (generate_unparser ctx = false -> unparsers ctx' = unparsers ctx).

(** The two tables of the registry are parallel: a node type has as many
    derived occurrences as recorded parsers. *)
Definition parallel (ctx : Context) : Prop :=
  forall node, occurrences (unparsers ctx) node = occurrences (nodes_to_rules ctx) node.

(** The condition under which [check_nodes_to_rules] warns about a node
    type: no parser is recorded for it, it is concrete, and it is not a
    root list type. *)
Definition warns_unused (ctx : Context) (node_type : CompiledType) : bool :=
  bool_decide (nodes_to_rules ctx !! node_type = None)
  && negb (abstract node_type)
  && negb (synthetic node_type)
  && negb (is_list_type node_type && is_root_list_type node_type).

Definition unused_warning (node_type : CompiledType) : WarningSet * string :=
  (unused_node_type,
   name node_type +:+ " has no parser, and is marked neither abstract nor synthetic").

(** The children of a parser that the structural comparison looks at:
    the no-backtrack markers are left out. *)
Definition compared_children (p : Parser) : list Parser :=
  filter (fun subp => isinstance subp KNoBacktrack = false) (children p).

(** What [combine] keeps of its first operand: its class, its node type
    and, for a regular unparser, its tokens outside the fields and the
    layout of its fields; a list or token unparser is kept as it is. *)
Definition keeps_frame (u u' : NodeUnparser) : Prop :=
  match u, u' with
  | RegularNode r, RegularNode r' =>
      RegularNodeUnparser.node r' = RegularNodeUnparser.node r
      /\ RegularNodeUnparser.pre_tokens r' = RegularNodeUnparser.pre_tokens r
      /\ RegularNodeUnparser.inter_tokens r' = RegularNodeUnparser.inter_tokens r
      /\ RegularNodeUnparser.post_tokens r' = RegularNodeUnparser.post_tokens r
      /\ map FieldUnparser.field (RegularNodeUnparser.field_unparsers r')
         = map FieldUnparser.field (RegularNodeUnparser.field_unparsers r)
      /\ map FieldUnparser.node (RegularNodeUnparser.field_unparsers r')
         = map FieldUnparser.node (RegularNodeUnparser.field_unparsers r)
  | ListNode l, ListNode l' => l' = l
  | TokenNode t, TokenNode t' => t' = t
  | _, _ => False
  end.

(** An unparser whose tokens, the postfix tokens of the node apart, can be
    rendered, and whose sequences between fields each follow a field. *)
Definition wf_unparser (u : NodeUnparser) : Prop :=
  match u with
  | RegularNode r =>
      wf_sequence (RegularNodeUnparser.pre_tokens r)
      /\ Forall wf_field (RegularNodeUnparser.field_unparsers r)
      /\ Forall wf_sequence (RegularNodeUnparser.inter_tokens r)
      /\ length (RegularNodeUnparser.inter_tokens r)
         <= length (RegularNodeUnparser.field_unparsers r)
  | ListNode l => wf_separator (ListNodeUnparser.separator l)
  | TokenNode _ => True
  | NullNode _ => False
  end.

(** The token sequences of an unparser, in the order of its rendering:
    the prefix tokens, then for each field its own prefix and postfix
    tokens followed by the tokens that come before it, then the postfix
    tokens. *)
Definition sequences_of (u : NodeUnparser) : list TokenSequenceUnparser.t :=
  match u with
  | RegularNode r =>
      RegularNodeUnparser.pre_tokens r
      :: flat_map (fun '(fu, inter) =>
                     [FieldUnparser.pre_tokens fu; FieldUnparser.post_tokens fu; inter])
                  (RegularNodeUnparser.zip_fields r)
      ++ [RegularNodeUnparser.post_tokens r]
  | _ => []
  end.

(** What the finalization pass may change: the unparser attached to the
    node types it visits, and the list of token sequences, which only
    grows. *)
Definition finalize_step (nodes : list CompiledType) (ctx ctx' : Context) : Prop :=
  generate_unparser ctx' = generate_unparser ctx
  /\ astnode_types ctx' = astnode_types ctx
  /\ nodes_to_rules ctx' = nodes_to_rules ctx
  /\ (forall n, default [] (unparsers ctx' !! n) = default [] (unparsers ctx !! n))
  /\ token_unparsers ctx' = token_unparsers ctx
  /\ warnings ctx' = warnings ctx
  /\ node_parser ctx' = node_parser ctx
  /\ token_sequence_unparsers ctx `prefix_of` token_sequence_unparsers ctx'
  /\ (forall n, n ∉ nodes -> node_unparser ctx' !! n = node_unparser ctx !! n).

(** The unparsers recorded for a node type, none when the table has no
    entry for it. *)
Definition recorded_unparsers (ctx : Context) (n : CompiledType) : list NodeUnparser :=
  default [] (unparsers ctx !! n).

(** The node type [n] has an unparser attached in [ctx'] that has the
    frame of the first unparser recorded for it in [ctx] that is not the
    null unparser. *)
Definition attached (ctx ctx' : Context) (n : CompiledType) : Prop :=
  exists first rest u,
    filter (fun u => is_NullNodeUnparser u = false) (recorded_unparsers ctx n)
    = first :: rest
    /\ node_unparser ctx' !! n = Some u
    /\ keeps_frame first u.

(** A regular unparser for the parenthesized node of the example grammar,
    with its one field. *)
Definition paren_unparser (pre post : list TokenAction) (fu : FieldUnparser.t)
  : RegularNodeUnparser.t :=
  {| RegularNodeUnparser.node := Ex.Paren;
     RegularNodeUnparser.pre_tokens := Ex.sequence pre;
     RegularNodeUnparser.field_unparsers := [fu];
     RegularNodeUnparser.inter_tokens := [];
     RegularNodeUnparser.post_tokens := Ex.sequence post |}.

(** A context whose registry has the unparsers [us] recorded for the list
    node of the example grammar, its only node type. *)
Definition registry_with (us : list NodeUnparser) : Context :=
  {| generate_unparser := true;
     astnode_types := [Ex.NameList];
     nodes_to_rules := ∅;
     unparsers := {[Ex.NameList := us]};
     token_unparsers := ∅;
     token_sequence_unparsers := [];
     warnings := [];
     node_parser := ∅;
     node_unparser := ∅ |}.

(** A tower of extractions around [inner]: each layer, from the outermost
    to the innermost, is a row that puts a run of token parsers before and
    a run of token parsers after the element it extracts. *)
Fixpoint nested_extract
  (layers : list (list (TokenAction * string) * list (TokenAction * string)))
  (inner : Parser) : Parser :=
  match layers with
  | [] => inner
  | (pre, post) :: layers =>
      _Extract (_Row (map token_parser pre
                      ++ nested_extract layers inner :: map token_parser post))
               (length pre)
  end.

(** The token unparsers of the leading runs of the layers, from the
    outermost layer to the innermost. *)
Definition leading_runs
  (layers : list (list (TokenAction * string) * list (TokenAction * string)))
  : list TokenUnparser.t :=
  concat (map (fun layer => map token_unparser_of layer.1) layers).

(** The token unparsers of the trailing runs of the layers, from the
    innermost layer to the outermost. *)
Definition trailing_runs
  (layers : list (list (TokenAction * string) * list (TokenAction * string)))
  : list TokenUnparser.t :=
  concat (map (fun layer => map token_unparser_of layer.2) (rev layers)).

(** The field unparser [fu] once the runs of the layers have been
    accumulated: not always absent, the leading runs after its prefix
    tokens, the trailing runs before its postfix tokens. *)
Definition accumulated
  (layers : list (list (TokenAction * string) * list (TokenAction * string)))
  (fu : FieldUnparser.t) : FieldUnparser.t :=
  {| FieldUnparser.node := FieldUnparser.node fu;
     FieldUnparser.field := FieldUnparser.field fu;
     FieldUnparser.always_absent := false;
     FieldUnparser.pre_tokens :=
       TokenSequenceUnparser.__init__
         (TokenSequenceUnparser.tokens (FieldUnparser.pre_tokens fu)
          ++ leading_runs layers);
     FieldUnparser.post_tokens :=
       TokenSequenceUnparser.__init__
         (trailing_runs layers
          ++ TokenSequenceUnparser.tokens (FieldUnparser.post_tokens fu)) |}.

(** The tokens of the runs of the layers are all well formed. *)
Definition wf_layers
  (layers : list (list (TokenAction * string) * list (TokenAction * string))) : Prop :=
  Forall (fun layer =>
            Forall (fun t => wf_token (token_unparser_of t) = true) layer.1
            /\ Forall (fun t => wf_token (token_unparser_of t) = true) layer.2)
         layers.
(** * Properties *)

(** ** Reasoning in the two monads *)

Lemma bindR_OK {A B} (m : result A) (k : A -> result B) (b : B) :
  bindR m k = OK b -> exists a, m = OK a /\ k a = OK b.
Proof. destruct m as [a|e]; simpl; [eauto | discriminate]. Qed.

Lemma bind_OK {A B} (m : M A) (k : A -> M B) ctx b ctx' :
  bind m k ctx = OK (b, ctx') ->
  exists a ctx1, m ctx = OK (a, ctx1) /\ k a ctx1 = OK (b, ctx').
Proof.
  unfold bind. destruct (m ctx) as [[a ctx1]|e]; [eauto | discriminate].
Qed.

Lemma lift_OK {A} (r : result A) ctx a ctx' :
  lift r ctx = OK (a, ctx') -> r = OK a /\ ctx' = ctx.
Proof. unfold lift. destruct r; intros [= -> ->] || discriminate. auto. Qed.

Lemma mapR_cons {A B} (f : A -> result B) x l :
  mapR f (x :: l) = (y <~ f x ;; r <~ mapR f l ;; OK (y :: r)).
Proof. reflexivity. Qed.

Lemma allR_cons {A} (f : A -> result bool) x l :
  allR f (x :: l) = (b <~ f x ;; if b then allR f l else OK false).
Proof. reflexivity. Qed.

Lemma string_eqb_eq (s1 s2 : string) : String.eqb s1 s2 = true <-> s1 = s2.
Proof. apply String.eqb_eq. Qed.

(** A message that starts with a fixed non-empty text is a true value. *)
Lemma truthy_message (c : Ascii.ascii) (s s' : string) :
  truthy (PyStr (String c s +:+ s')) = true.
Proof. reflexivity. Qed.

(** ** Token unparsers and sequences *)

Lemma init_wf tok text t :
  TokenUnparser.__init__ tok text = OK t ->
  wf_token t = true /\ t = TokenUnparser.Build_t tok text.
Proof.
  unfold TokenUnparser.__init__, assert, wf_token.
  destruct (Bool.eqb _ _) eqn:E; simpl; [|discriminate].
  intros [= <-]. simpl. auto.
Qed.

Lemma wf_token_dumps t :
  wf_token t = true -> exists s, TokenUnparser.dumps t = OK s.
Proof.
  unfold wf_token, TokenUnparser.dumps.
  destruct (str_truthy _) eqn:E; [eauto|].
  destruct (matcher _); [eauto|].
  rewrite bool_decide_eq_true_2 by done. discriminate.
Qed.

Lemma wf_sequence_dumps s :
  wf_sequence s -> exists d, TokenSequenceUnparser.dumps s = OK d.
Proof.
  unfold wf_sequence, TokenSequenceUnparser.dumps.
  assert (H : Forall (fun t => wf_token t = true) (TokenSequenceUnparser.tokens s) ->
              exists l, mapR TokenUnparser.dumps (TokenSequenceUnparser.tokens s) = OK l).
  { induction 1 as [|t l Ht _ [r IH]]; [by exists []|].
    destruct (wf_token_dumps t Ht) as [d Hd].
    rewrite mapR_cons, Hd, IH. simpl. eauto. }
  intros Hwf. destruct (H Hwf) as [l ->]. simpl. eauto.
Qed.

Lemma token_equivalent_same_text t1 t2 :
  wf_token t1 = true -> wf_token t2 = true ->
  exists b, TokenUnparser.equivalent (Some t1) (Some t2) = OK b
            /\ (b = true <-> same_text t1 t2).
Proof.
  intros H1 H2. unfold same_text. simpl.
  destruct (wf_token_dumps _ H1) as [s1 ->], (wf_token_dumps _ H2) as [s2 ->].
  simpl. eexists; split; [reflexivity|].
  rewrite string_eqb_eq. split.
  - intros ->. eauto.
  - intros (s & [= ->] & [= ->]). reflexivity.
Qed.

Lemma sequence_equivalent_spec s1 s2 :
  wf_sequence s1 -> wf_sequence s2 ->
  exists b, TokenSequenceUnparser.equivalent s1 s2 = OK b
            /\ (b = true <-> pairwise_equivalent s1 s2).
Proof.
  unfold wf_sequence, pairwise_equivalent, TokenSequenceUnparser.equivalent.
  destruct s1 as [l1], s2 as [l2]. cbn [TokenSequenceUnparser.tokens]. intros H1 H2.
  destruct (Nat.eqb (length l1) (length l2)) eqn:E.
  - apply Nat.eqb_eq in E. revert l2 H2 E.
    induction H1 as [|t1 l1 Ht1 _ IH]; intros [|t2 l2] H2 E; try discriminate.
    + simpl. exists true. split; [done|]. split; [constructor | done].
    + inversion H2 as [|? ? Ht2 H2']; subst. injection E as E.
      destruct (token_equivalent_same_text t1 t2 Ht1 Ht2) as (b & Hb & Hiff).
      cbn [zip zip_with]. rewrite allR_cons. cbv beta iota. rewrite Hb. cbn [bindR].
      destruct b.
      * destruct (IH l2 H2' E) as (b' & Hb' & Hiff').
        exists b'. split; [exact Hb'|]. rewrite Hiff'. split.
        -- intros. constructor; [by apply Hiff | done].
        -- by inversion 1.
      * exists false. split; [done|]. split; [done|].
        inversion 1; subst. by apply Hiff.
  - exists false. split; [done|]. split; [done|].
    intros HF. apply Forall2_length in HF. apply Nat.eqb_neq in E. done.
Qed.

(** [check_equivalence] accepts exactly the pairwise equivalent sequences
    and raises the "Inconsistent ..." diagnostic on the others. *)
Lemma check_equivalence_spec s1 name s2 :
  wf_sequence s1 -> wf_sequence s2 ->
  (pairwise_equivalent s1 s2 /\
   TokenSequenceUnparser.check_equivalence s1 name s2 = OK tt)
  \/ (~ pairwise_equivalent s1 s2 /\
      exists d, TokenSequenceUnparser.check_equivalence s1 name s2
                = Raise (DiagnosticError (PyStr ("Inconsistent " +:+ name +:+ d)))).
Proof.
  intros H1 H2. unfold TokenSequenceUnparser.check_equivalence.
  destruct (sequence_equivalent_spec s1 s2 H1 H2) as (b & -> & Hiff).
  destruct (wf_sequence_dumps _ H1) as [d1 ->], (wf_sequence_dumps _ H2) as [d2 ->].
  simpl. unfold check_source_language. destruct b; simpl.
  - left. split; [by apply Hiff | done].
  - right. split; [intros HF; by apply Hiff in HF|]. eauto.
Qed.

Lemma pairwise_equivalent_refl s : wf_sequence s -> pairwise_equivalent s s.
Proof.
  unfold wf_sequence, pairwise_equivalent. induction 1 as [|t l Ht _ IH]; constructor; [|done].
  destruct (wf_token_dumps t Ht) as [d Hd]. exists d. done.
Qed.

(** C10: the equivalence of token unparsers takes an absent token to be
    equivalent to an absent token only, and two present tokens to be
    equivalent exactly when their rendered texts are equal, also when their
    (kind, match text) keys differ. *)
Theorem token_equivalent_spec :
  TokenUnparser.equivalent None None = OK true
  /\ (forall t, TokenUnparser.equivalent None (Some t) = OK false
                /\ TokenUnparser.equivalent (Some t) None = OK false)
  /\ (forall t1 t2 s1 s2,
        TokenUnparser.dumps t1 = OK s1 -> TokenUnparser.dumps t2 = OK s2 ->
        TokenUnparser.equivalent (Some t1) (Some t2) = OK (bool_decide (s1 = s2)))
  /\ (exists t1 t2,
        wf_token t1 = true /\ wf_token t2 = true
        /\ (TokenUnparser.token t1, TokenUnparser.match_text t1)
           <> (TokenUnparser.token t2, TokenUnparser.match_text t2)
        /\ TokenUnparser.equivalent (Some t1) (Some t2) = OK true).
Proof.
  split; [reflexivity|]. split; [intros t; split; reflexivity|]. split.
  - intros t1 t2 s1 s2 H1 H2. simpl. rewrite H1, H2. simpl. f_equal.
    destruct (String.eqb s1 s2) eqn:E.
    + apply string_eqb_eq in E. by rewrite bool_decide_eq_true_2.
    + rewrite bool_decide_eq_false_2; [done|]. intros ->.
      by rewrite String.eqb_refl in E.
  - exists (TokenUnparser.Build_t
              {| tok_name := "Comma"; matcher := Some {| to_match := "," |} |} None),
           (TokenUnparser.Build_t
              {| tok_name := "Punctuation"; matcher := None |} (Some ",")).
    repeat split; [discriminate].
Qed.

Lemma token_equivalent_spec_witness :
  TokenUnparser.equivalent
    (Some (TokenUnparser.Build_t {| tok_name := "Identifier"; matcher := None |} (Some "begin")))
    (Some (TokenUnparser.Build_t
             {| tok_name := "Begin"; matcher := Some {| to_match := "begin" |} |} None))
  = OK true.
Proof.
  destruct token_equivalent_spec as (_ & _ & H & _).
  apply (H _ _ "begin" "begin"); reflexivity.
Defined.

(** ** Combination of unparsers *)

(** Whatever its separators are, the combination of two list unparsers
    hands the message to the diagnostics as the condition, and a message
    is never an empty text: no diagnostic is raised. *)
Lemma ListNodeUnparser_combine_no_diagnostic self other :
  ListNodeUnparser.node self = ListNodeUnparser.node other ->
  (forall t, ListNodeUnparser.separator self = Some t -> wf_token t = true) ->
  (forall t, ListNodeUnparser.separator other = Some t -> wf_token t = true) ->
  ListNodeUnparser._combine self other = OK self.
Proof.
  intros Hn H1 H2. unfold ListNodeUnparser._combine.
  rewrite bool_decide_eq_true_2 by done. cbn [assert bindR].
  assert (Hd : forall o, (forall t, o = Some t -> wf_token t = true) ->
                         exists d, TokenUnparser.dump_or_none o = OK d).
  { intros [t|] Ho; simpl; [|eauto]. apply wf_token_dumps. by apply Ho. }
  destruct (Hd _ H1) as [d1 Hd1], (Hd _ H2) as [d2 Hd2].
  rewrite Hd1, Hd2. cbn [bindR].
  assert (He : exists b, TokenUnparser.equivalent (ListNodeUnparser.separator self)
                           (ListNodeUnparser.separator other) = OK b).
  { destruct (ListNodeUnparser.separator self) as [t1|],
             (ListNodeUnparser.separator other) as [t2|]; simpl; eauto.
    simpl in Hd1, Hd2. rewrite Hd1, Hd2. simpl. eauto. }
  destruct He as [b ->]. reflexivity.
Qed.

(** C1: on two list unparsers of one node type whose separators are ","
    and ";", the combination raises nothing and returns the first operand;
    the same holds when one separator is absent. *)
Theorem list_combine_inconsistent_separators :
  combine (ListNode Ex.comma_list) (ListNode Ex.semicolon_list)
    = OK (ListNode Ex.comma_list)
  /\ combine (ListNode Ex.no_separator_list) (ListNode Ex.comma_list)
    = OK (ListNode Ex.no_separator_list)
  /\ TokenUnparser.equivalent (Some (Ex.unparser Ex.Comma)) (Some (Ex.unparser Ex.Semicolon))
    = OK false
  /\ TokenUnparser.equivalent None (Some (Ex.unparser Ex.Comma)) = OK false.
Proof. repeat split; reflexivity. Qed.

(** C8: merging two field unparsers of one (node, field): an
    always-absent operand yields the other operand unchanged; otherwise the
    merge succeeds exactly when the prefix and the postfix token sequences
    are pairwise equivalent, it then returns the first operand, and it
    raises a diagnostic otherwise; merging an unparser with itself returns
    it. *)
Theorem FieldUnparser_combine_spec (x y : FieldUnparser.t) :
  FieldUnparser.node y = FieldUnparser.node x ->
  FieldUnparser.field y = FieldUnparser.field x ->
  wf_field x -> wf_field y ->
  (FieldUnparser.always_absent x = true -> FieldUnparser.combine x y = OK y)
  /\ (FieldUnparser.always_absent x = false ->
      FieldUnparser.always_absent y = true -> FieldUnparser.combine x y = OK x)
  /\ (FieldUnparser.always_absent x = false ->
      FieldUnparser.always_absent y = false ->
      ((exists r, FieldUnparser.combine x y = OK r)
       <-> pairwise_equivalent (FieldUnparser.pre_tokens x) (FieldUnparser.pre_tokens y)
           /\ pairwise_equivalent (FieldUnparser.post_tokens x) (FieldUnparser.post_tokens y))
      /\ (forall r, FieldUnparser.combine x y = OK r -> r = x)
      /\ (forall e, FieldUnparser.combine x y = Raise e ->
                    exists m, e = DiagnosticError (PyStr m)))
  /\ FieldUnparser.combine x x = OK x.
Proof.
  intros Hn Hf [Hx1 Hx2] [Hy1 Hy2].
  unfold FieldUnparser.combine, FieldUnparser._combine.
  rewrite !bool_decide_eq_true_2 by done. cbn [assert bindR].
  split; [by intros ->|]. split; [by intros -> ->|]. split.
  - intros -> ->.
    destruct (check_equivalence_spec (FieldUnparser.pre_tokens x)
                ("prefix tokens for " +:+ qualname (FieldUnparser.field x))
                (FieldUnparser.pre_tokens y) Hx1 Hy1) as [[Hp ->]|[Hp [d ->]]];
      cbn [bindR].
    + destruct (check_equivalence_spec (FieldUnparser.post_tokens x)
                  ("postfix tokens for " +:+ qualname (FieldUnparser.field x))
                  (FieldUnparser.post_tokens y) Hx2 Hy2) as [[Hq ->]|[Hq [d ->]]];
        cbn [bindR].
      * split; [split; eauto|]. split; [by intros r [= <-] | discriminate].
      * split; [split; [intros [r ?]; discriminate | tauto]|].
        split; [discriminate | intros e [= <-]; eauto].
    + split; [split; [intros [r ?]; discriminate | tauto]|].
      split; [discriminate | intros e [= <-]; eauto].
  - destruct (FieldUnparser.always_absent x); [done|].
    destruct (check_equivalence_spec (FieldUnparser.pre_tokens x)
                ("prefix tokens for " +:+ qualname (FieldUnparser.field x))
                (FieldUnparser.pre_tokens x) Hx1 Hx1) as [[_ ->]|[Hp _]];
      [|destruct Hp; by apply pairwise_equivalent_refl].
    destruct (check_equivalence_spec (FieldUnparser.post_tokens x)
                ("postfix tokens for " +:+ qualname (FieldUnparser.field x))
                (FieldUnparser.post_tokens x) Hx2 Hx2) as [[_ ->]|[Hp _]];
      [|destruct Hp; by apply pairwise_equivalent_refl].
    reflexivity.
Qed.

Lemma FieldUnparser_combine_spec_witness :
  FieldUnparser.combine (Ex.field_unparser false [Ex.LPar] [Ex.RPar])
                        (Ex.field_unparser true [] [])
  = OK (Ex.field_unparser false [Ex.LPar] [Ex.RPar]).
Proof.
  destruct (FieldUnparser_combine_spec
              (Ex.field_unparser false [Ex.LPar] [Ex.RPar])
              (Ex.field_unparser true [] []) eq_refl eq_refl) as (_ & H & _).
  - split; repeat constructor.
  - split; repeat constructor.
  - apply H; reflexivity.
Defined.

(** ** Structural equality of parsers *)

Lemma remove_dups_constant {A} `{EqDecision A} (x : A) (l : list A) :
  l <> [] -> Forall (fun y => y = x) l -> remove_dups l = [x].
Proof.
  intros Hne Hall. induction Hall as [|y l -> Hall IH]; [done|].
  cbn [remove_dups]. destruct l as [|z l].
  - case_decide as Hin; [by apply elem_of_nil in Hin | done].
  - inversion Hall; subst. case_decide as Hin; [by apply IH|].
    destruct Hin. apply list_elem_of_here.
Qed.

Lemma is_same_true {A} `{EqDecision A} (l : list A) :
  is_same l = true <-> (forall x y, x ∈ l -> y ∈ l -> x = y).
Proof.
  destruct l as [|a l]; simpl.
  - split; [intros _ x y Hx; by apply elem_of_nil in Hx | done].
  - rewrite forallb_forall. split.
    + intros H x y Hx Hy.
      assert (Ha : forall z, z ∈ a :: l -> z = a).
      { intros z [->|Hz]%elem_of_cons; [done|].
        apply list_elem_of_In, H in Hz. by apply bool_decide_eq_true in Hz. }
      by rewrite (Ha x Hx), (Ha y Hy).
    + intros H y Hy%list_elem_of_In. apply bool_decide_eq_true.
      apply H; [by apply list_elem_of_further | apply list_elem_of_here].
Qed.

Lemma is_same_false {A} `{EqDecision A} (l : list A) x y :
  x ∈ l -> y ∈ l -> x <> y -> is_same l = false.
Proof.
  intros Hx Hy Hne. destruct (is_same l) eqn:E; [|done].
  destruct Hne. by eapply is_same_true.
Qed.

Section StructuralEqualityProperties.

Context {ops : ParserOps}.

  (** One step of [unparser_struct_eq] on parsers that are all token
      parsers, two of them at least: the token kinds decide. *)
Lemma unparser_struct_eq_rec_tokens fuel (toks : list (TokenAction * string)) toplevel :
    2 <= length toks ->
    unparser_struct_eq_rec (S fuel) (map token_parser toks) toplevel
    = OK (is_same (map fst toks)).
Proof.
    intros Hlen. cbn [unparser_struct_eq_rec].
    assert (Hf : filter (fun p => isinstance p KNull = false) (map token_parser toks)
                 = map token_parser toks).
    { clear Hlen. induction toks as [|[v m] toks IH]; [done|].
      cbn [map]. rewrite filter_cons_True by done. by rewrite IH. }
    rewrite Hf.
    assert (Hu : map unwrap_dont_skip (map token_parser toks) = map token_parser toks).
    { clear. induction toks as [|[v m] toks IH]; [done|]. cbn [map]. by rewrite IH. }
    rewrite Hu, length_map.
    destruct (Nat.eqb_spec (length toks) 1) as [E|_]; [lia|].
    rewrite (remove_dups_constant KToken).
    - cbn [bindR]. rewrite bool_decide_eq_false_2.
      2:{ rewrite !elem_of_cons, elem_of_nil. intros [?|[?|[?|[?|[]]]]]; discriminate. }
      cbn [bindR]. rewrite bool_decide_eq_true_2 by done. cbn [bindR]. f_equal.
      assert (Hm : map token_val (map token_parser toks) = map (fun t => Some t.1) toks).
      { clear. induction toks as [|[v m] toks IH]; [done|]. cbn [map]. by rewrite IH. }
      rewrite Hm. clear. destruct toks as [|[v m] toks]; [done|]. simpl.
      induction toks as [|[v' m'] toks IH]; [done|]. simpl. rewrite IH. f_equal.
      destruct (decide (v' = v)) as [->|Hne].
      + by rewrite !bool_decide_eq_true_2.
      + rewrite !bool_decide_eq_false_2; [done | done | congruence].
    - destruct toks; [simpl in Hlen; lia | done].
    - clear. induction toks as [|[v m] toks IH]; constructor; done.
Qed.

  (** C4, as the code has it: on two or more token parsers in one slot the
      structural equality compares the token kinds only; it is false as
      soon as two kinds differ, and true when all the kinds agree, whatever
      the literal match texts are. *)
Theorem unparser_struct_eq_tokens (toks : list (TokenAction * string)) toplevel :
    2 <= length toks ->
    ((exists t1 t2, t1 ∈ toks /\ t2 ∈ toks /\ t1.1 <> t2.1) ->
     unparser_struct_eq (map token_parser toks) toplevel = OK false)
    /\ ((forall t1 t2, t1 ∈ toks -> t2 ∈ toks -> t1.1 = t2.1) ->
        unparser_struct_eq (map token_parser toks) toplevel = OK true).
Proof.
    intros Hlen. unfold unparser_struct_eq.
    rewrite unparser_struct_eq_rec_tokens by done. split.
    - intros (t1 & t2 & H1 & H2 & Hne). f_equal.
      apply (is_same_false _ t1.1 t2.1); [by apply list_elem_of_fmap_2 ..| done].
    - intros Hall. f_equal. apply is_same_true.
      intros x y (t1 & -> & H1)%list_elem_of_fmap (t2 & -> & H2)%list_elem_of_fmap.
      by apply Hall.
Qed.

  (** C5, as the code has it: once the transparent wrappers are stripped
      and the always-empty parsers discarded, one remaining parser makes
      the structural equality true at every level; none remaining makes it
      true below the top level and false at the top level. *)
Theorem unparser_struct_eq_few_remaining (parsers : list Parser) toplevel :
    (length (remaining parsers) = 1 -> unparser_struct_eq parsers toplevel = OK true)
    /\ (length (remaining parsers) = 0 ->
        unparser_struct_eq parsers toplevel = OK (negb toplevel)).
Proof.
    unfold unparser_struct_eq, remaining. cbn [unparser_struct_eq_rec]. split.
    - intros ->. reflexivity.
    - intros E. rewrite E. cbn [Nat.eqb].
      apply nil_length_inv in E. rewrite E. cbn.
      by destruct toplevel.
Qed.

End StructuralEqualityProperties.

Lemma unparser_struct_eq_tokens_witness :
  unparser_struct_eq (ops := Ex.ops)
    [_Token Ex.Comma ""; _Token Ex.Semicolon ""; _Token Ex.Comma ""] true = OK false.
Proof.
  apply (unparser_struct_eq_tokens (ops := Ex.ops)
           [(Ex.Comma, ""); (Ex.Semicolon, ""); (Ex.Comma, "")] true).
  - simpl. lia.
  - exists (Ex.Comma, ""), (Ex.Semicolon, "").
    split; [apply list_elem_of_here|].
    split; [apply list_elem_of_further, list_elem_of_here | discriminate].
Defined.

(** C4 as stated fails: two token parsers of the identifier kind with the
    match texts "begin" and "end" have different identities and are
    structurally equal. *)
Lemma unparser_struct_eq_tokens_counterexample :
  (Ex.Identifier, Some "begin") <> (Ex.Identifier, Some "end")
  /\ unparser_struct_eq (ops := Ex.ops)
       [_Token Ex.Identifier "begin"; _Token Ex.Identifier "end"] true
     <> OK false.
Proof. split; [discriminate|]. vm_compute. discriminate. Qed.

Lemma unparser_struct_eq_few_remaining_witness :
  unparser_struct_eq (ops := Ex.ops)
    [Null Ex.Name; DontSkip (_Token Ex.Comma ""); Null Ex.Name] true = OK true.
Proof.
  apply (unparser_struct_eq_few_remaining (ops := Ex.ops)
           [Null Ex.Name; DontSkip (_Token Ex.Comma ""); Null Ex.Name] true).
  reflexivity.
Defined.

(** C5 as stated fails: at the top level, a single always-empty parser
    leaves no parser to compare and the result is false. *)
Lemma unparser_struct_eq_singleton_counterexample :
  length (remaining [Null Ex.Name]) = 0
  /\ unparser_struct_eq (ops := Ex.ops) [Null Ex.Name] true = OK false.
Proof. split; reflexivity. Qed.

(** ** Derivation *)

Lemma on_item_lookup {A B} (f : A -> M B) (l : list A) (i : nat) (x : A) :
  l !! i = Some x -> on_item f l i = f x.
Proof.
  revert i. induction l as [|y l IH]; intros [|i] Hl; try discriminate.
  - by injection Hl as ->.
  - simpl. by apply IH.
Qed.

Lemma getitem_OK {A} (l : list A) i x : getitem l i = OK x <-> l !! i = Some x.
Proof. unfold getitem. destruct (l !! i); split; congruence. Qed.

Lemma foldM_cons {A B} (f : B -> A -> M B) x l acc :
  foldM f (x :: l) acc = (acc' <- f acc x ;; foldM f l acc').
Proof. reflexivity. Qed.

Lemma forM__cons {A} (f : A -> M unit) x l :
  forM_ f (x :: l) = (f x ;; forM_ f l).
Proof. reflexivity. Qed.

Lemma empty_context_cache_ok b : cache_ok (Ex.empty_context b).
Proof. intros k u Hk. simpl in Hk. by rewrite lookup_empty in Hk. Qed.

(** Fetching the token unparser of a well-formed token parser succeeds
    with the unparser of its key, and changes the cache only. *)
Lemma from_token_spec v m ctx :
  cache_ok ctx -> wf_token (token_unparser_of (v, m)) = true ->
  exists cache,
    TokenUnparser_from_token v m ctx
    = OK (token_unparser_of (v, m), set_token_unparsers cache ctx)
    /\ cache_ok (set_token_unparsers cache ctx).
Proof.
  intros Hc Hwf. unfold TokenUnparser_from_token, bind, get.
  destruct (token_unparsers ctx !! _) as [u|] eqn:E.
  - apply Hc in E. subst u. exists (token_unparsers ctx).
    unfold ret. destruct ctx; simpl. done.
  - unfold lift, TokenUnparser.__init__, assert.
    unfold wf_token, token_unparser_of in Hwf. simpl in Hwf. rewrite Hwf.
    cbn [bindR]. unfold modify, ret. eexists. split; [reflexivity|].
    intros k u. simpl. rewrite lookup_insert. case_decide as Hk.
    + subst k. by intros [= <-].
    + apply Hc.
Qed.

Lemma set_token_unparsers_twice c1 c2 ctx :
  set_token_unparsers c2 (set_token_unparsers c1 ctx) = set_token_unparsers c2 ctx.
Proof. reflexivity. Qed.

Section DerivationProperties.

Context {ops : ParserOps}.

Lemma emit_token_spec v m seq ctx :
    cache_ok ctx -> wf_token (token_unparser_of (v, m)) = true ->
    exists cache,
      _emit_to_token_sequence (_Token v m) seq ctx
      = OK (TokenSequenceUnparser.append seq (token_unparser_of (v, m)),
            set_token_unparsers cache ctx)
      /\ cache_ok (set_token_unparsers cache ctx).
Proof.
    intros Hc Hwf. cbn [_emit_to_token_sequence unwrap_dont_skip].
    destruct (from_token_spec v m ctx Hc Hwf) as (cache & E & Hc').
    exists cache. unfold bind. rewrite E. done.
Qed.

Lemma emit_to_field_direct p fu :
    direct_field p ->
    _emit_to_field_unparser p fu
    = ret (set_always_absent
             (FieldUnparser.always_absent fu && isinstance (unwrap_dont_skip p) KNull) fu).
Proof.
    unfold direct_field. rewrite !elem_of_cons, elem_of_nil.
    intros H. destruct p as [| q | | | | | | | | | | |]; try reflexivity;
      try (exfalso; destruct H as [?|[?|[?|[?|[]]]]]; discriminate).
    destruct q; try reflexivity;
      exfalso; destruct H as [?|[?|[?|[?|[]]]]]; discriminate.
Qed.

End DerivationProperties.

Lemma bind_eq {A B} (m : M A) (k : A -> M B) ctx a ctx1 :
  m ctx = OK (a, ctx1) -> bind m k ctx = k a ctx1.
Proof. unfold bind. by intros ->. Qed.

Lemma bind_ret {A B} (a : A) (k : A -> M B) ctx : bind (ret a) k ctx = k a ctx.
Proof. reflexivity. Qed.

Lemma bind_lift {A B} (a : A) (k : A -> M B) ctx : bind (lift (OK a)) k ctx = k a ctx.
Proof. reflexivity. Qed.

Section ParenthesizedRule.

Context {ops : ParserOps}.

Lemma emit_discarded_pre t result ctx :
    cache_ok ctx -> wf_token (token_unparser_of t) = true ->
    exists cache,
      emit_discarded (token_parser t) 0 result ctx
      = OK (set_pre_tokens
              (TokenSequenceUnparser.append (RegularNodeUnparser.pre_tokens result)
                                            (token_unparser_of t)) result,
            set_token_unparsers cache ctx)
      /\ cache_ok (set_token_unparsers cache ctx).
Proof.
    intros Hc Hwf. unfold emit_discarded. cbn [Nat.eqb].
    destruct t as [v m].
    destruct (emit_token_spec v m (RegularNodeUnparser.pre_tokens result) ctx Hc Hwf)
      as (cache & E & Hc').
    exists cache. split; [|done].
    unfold token_parser. cbn [fst snd]. by rewrite (bind_eq _ _ _ _ _ E).
Qed.

Lemma emit_discarded_post t next_field result ctx :
    cache_ok ctx -> wf_token (token_unparser_of t) = true ->
    next_field <> 0 ->
    length (RegularNodeUnparser.field_unparsers result) <= next_field ->
    exists cache,
      emit_discarded (token_parser t) next_field result ctx
      = OK ({| RegularNodeUnparser.node := RegularNodeUnparser.node result;
               RegularNodeUnparser.pre_tokens := RegularNodeUnparser.pre_tokens result;
               RegularNodeUnparser.field_unparsers :=
                 RegularNodeUnparser.field_unparsers result;
               RegularNodeUnparser.inter_tokens := RegularNodeUnparser.inter_tokens result;
               RegularNodeUnparser.post_tokens :=
                 TokenSequenceUnparser.append (RegularNodeUnparser.post_tokens result)
                                              (token_unparser_of t) |},
            set_token_unparsers cache ctx)
      /\ cache_ok (set_token_unparsers cache ctx).
Proof.
    intros Hc Hwf Hnz Hlen. unfold emit_discarded.
    destruct (Nat.eqb_spec next_field 0) as [?|_]; [done|].
    destruct (Nat.ltb_spec next_field (length (RegularNodeUnparser.field_unparsers result)))
      as [?|_]; [lia|].
    destruct t as [v m].
    destruct (emit_token_spec v m (RegularNodeUnparser.post_tokens result) ctx Hc Hwf)
      as (cache & E & Hc').
    exists cache. split; [|done].
    unfold token_parser. cbn [fst snd]. by rewrite (bind_eq _ _ _ _ _ E).
Qed.

Lemma from_parser_parenthesized_step node f open close field_parser typ ctx :
    abstract node = false -> synthetic node = false -> is_token_node node = false ->
    get_parse_fields node = [f] ->
    discard (token_parser open) = true -> discard (token_parser close) = true ->
    discard field_parser = false -> direct_field field_parser ->
    wf_token (token_unparser_of open) = true ->
    wf_token (token_unparser_of close) = true ->
    cache_ok ctx ->
    exists cache,
      from_parser node
        (_Transform (_Row [token_parser open; field_parser; token_parser close]) typ) ctx
      = OK (parenthesized_result node f open close
              (isinstance (unwrap_dont_skip field_parser) KNull),
            set_token_unparsers cache ctx)
      /\ cache_ok (set_token_unparsers cache ctx).
Proof.
    intros Ha Hs Ht Hf Hd1 Hd2 Hd3 Hdir Hw1 Hw2 Hc.
    cbn [from_parser unwrap_dont_skip]. rewrite Ha, Hs, Ht.
    cbn [negb andb assert]. rewrite bind_lift.
    match goal with |- context [foldM ?f _ _] => set (step := f) end.
    destruct (emit_discarded_pre open (RegularNodeUnparser.__init__ node) ctx Hc Hw1)
      as (cache1 & E1 & Hc1).
    assert (S1 : step (0, RegularNodeUnparser.__init__ node) (token_parser open) ctx
                 = OK ((0, set_pre_tokens
                             (TokenSequenceUnparser.__init__ [token_unparser_of open])
                             (RegularNodeUnparser.__init__ node)),
                       set_token_unparsers cache1 ctx)).
    { subst step. cbv beta iota. rewrite Hd1, (bind_eq _ _ _ _ _ E1). reflexivity. }
    set (fu := set_always_absent (isinstance (unwrap_dont_skip field_parser) KNull)
                 (FieldUnparser.__init__ node f)).
    assert (S2 : forall r c,
               RegularNodeUnparser.field_unparsers r = [FieldUnparser.__init__ node f] ->
               step (0, r) field_parser c = OK ((1, set_field_unparser 0 fu r), c)).
    { intros r c Hr. subst step. cbv beta iota. rewrite Hd3, Hr.
      cbn [getitem lookup list_lookup]. rewrite bind_lift.
      rewrite (emit_to_field_direct _ _ Hdir), bind_ret. reflexivity. }
    destruct (emit_discarded_post close 1
                (set_field_unparser 0 fu
                   (set_pre_tokens (TokenSequenceUnparser.__init__ [token_unparser_of open])
                                   (RegularNodeUnparser.__init__ node)))
                (set_token_unparsers cache1 ctx) Hc1 Hw2)
      as (cache2 & E2 & Hc2); [done | simpl; rewrite Hf; simpl; lia |].
    match type of E2 with
    | _ = OK (?r2, ?c2) =>
        assert (F : foldM step [token_parser open; field_parser; token_parser close]
                      (0, RegularNodeUnparser.__init__ node) ctx
                    = OK ((1, r2), c2))
    end.
    { rewrite foldM_cons, (bind_eq _ _ _ _ _ S1).
      rewrite foldM_cons.
      rewrite (bind_eq _ _ _ _ _
                 (S2 (set_pre_tokens (TokenSequenceUnparser.__init__ [token_unparser_of open])
                                     (RegularNodeUnparser.__init__ node))
                     (set_token_unparsers cache1 ctx)
                     ltac:(cbn; by rewrite Hf))).
      rewrite foldM_cons. erewrite (bind_eq (step _ _)).
      2:{ subst step. cbv beta iota. rewrite Hd2, (bind_eq _ _ _ _ _ E2). reflexivity. }
      reflexivity. }
    rewrite (bind_eq _ _ _ _ _ F).
    exists cache2. split; [|done].
    unfold ret, parenthesized_result. cbn. rewrite Hf. reflexivity.
Qed.

  (** C6: a transform of the row (token, field parser, token), for a node
      with one parse field, derives the regular unparser whose prefix is
      the first token, whose only field unparser has empty prefix and
      postfix, that has no inter-field sequence and whose postfix is the
      last token; a second, independent derivation, with the token cache as
      the first one left it, yields the same unparser. *)
Theorem from_parser_parenthesized node f open close field_parser typ ctx :
    abstract node = false -> synthetic node = false -> is_token_node node = false ->
    get_parse_fields node = [f] ->
    discard (token_parser open) = true -> discard (token_parser close) = true ->
    discard field_parser = false -> direct_field field_parser ->
    wf_token (token_unparser_of open) = true ->
    wf_token (token_unparser_of close) = true ->
    cache_ok ctx ->
    let rule := _Transform (_Row [token_parser open; field_parser; token_parser close]) typ in
    let derived :=
      parenthesized_result node f open close
        (isinstance (unwrap_dont_skip field_parser) KNull) in
    exists ctx1 ctx2,
      from_parser node rule ctx = OK (derived, ctx1)
      /\ from_parser node rule ctx1 = OK (derived, ctx2).
Proof.
    intros Ha Hs Ht Hf Hd1 Hd2 Hd3 Hdir Hw1 Hw2 Hc rule derived.
    destruct (from_parser_parenthesized_step node f open close field_parser typ ctx)
      as (cache1 & E1 & Hc1); try done.
    destruct (from_parser_parenthesized_step node f open close field_parser typ
                (set_token_unparsers cache1 ctx))
      as (cache2 & E2 & Hc2); try done.
    eauto.
Qed.

End ParenthesizedRule.

Lemma from_parser_parenthesized_witness :
  let rule := _Transform (_Row [_Token Ex.LPar ""; Defer "expr"; _Token Ex.RPar ""]) Ex.Paren in
  let derived :=
    parenthesized_result Ex.Paren (Build_Field "Paren.f_expr")
                         (Ex.LPar, "") (Ex.RPar, "") false in
  exists ctx1 ctx2,
    from_parser (ops := Ex.ops) Ex.Paren rule (Ex.empty_context true) = OK (derived, ctx1)
    /\ from_parser (ops := Ex.ops) Ex.Paren rule ctx1 = OK (derived, ctx2).
Proof.
  apply (from_parser_parenthesized (ops := Ex.ops) Ex.Paren (Build_Field "Paren.f_expr")
           (Ex.LPar, "") (Ex.RPar, "") (Defer "expr") Ex.Paren (Ex.empty_context true));
    try reflexivity.
  - unfold direct_field. simpl. apply list_elem_of_here.
  - apply empty_context_cache_ok.
Defined.

(** The derived prefix and postfix render as the two parentheses. *)
Example parenthesized_dumps :
  TokenSequenceUnparser.dumps
    (TokenSequenceUnparser.__init__ [token_unparser_of (Ex.LPar, "")]) = OK "("
  /\ TokenSequenceUnparser.dumps
       (TokenSequenceUnparser.__init__ [token_unparser_of (Ex.RPar, "")]) = OK ")".
Proof. split; reflexivity. Qed.

Lemma fatal_raises {A} message ctx :
  @fatal A message ctx = Raise (DiagnosticError (PyStr message)).
Proof. reflexivity. Qed.

Lemma ret_OK {A} (a b : A) ctx ctx' : ret a ctx = OK (b, ctx') -> b = a /\ ctx' = ctx.
Proof. unfold ret. by intros [= -> ->]. Qed.

Section ExtractionProperties.

Context {ops : ParserOps}.

(** A [DontSkip] wrapper is transparent for the field derivation, except
    over another [DontSkip]. *)
Lemma emit_to_field_DontSkip q fu :
  _emit_to_field_unparser (DontSkip q) fu
  = if isinstance q KDontSkip
    then fatal ("Unsupported parser for node field: " +:+ repr q)
    else _emit_to_field_unparser q fu.
Proof. destruct q; reflexivity. Qed.

(** The source form of the extraction case: split, accumulate, recurse. *)
Lemma emit_to_field_Extract sub index fu ctx pre node_parser post ctx1 :
  _split_extract (_Extract sub index) ctx = OK ((pre, node_parser, post), ctx1) ->
  (exists subparsers, sub = _Row subparsers /\ subparsers !! index = Some node_parser)
  /\ _emit_to_field_unparser (_Extract sub index) fu ctx
     = _emit_to_field_unparser node_parser
         (FieldUnparser_tokens fu false
            (TokenSequenceUnparser.__add__ (FieldUnparser.pre_tokens fu) pre)
            (TokenSequenceUnparser.__add__ post (FieldUnparser.post_tokens fu)))
         ctx1.
Proof.
  intros E. cbn [_emit_to_field_unparser unwrap_dont_skip].
  rewrite (bind_eq _ _ _ _ _ E). cbv beta iota.
  unfold _split_extract in E. destruct sub; try discriminate.
  apply bind_OK in E as (pre' & c1 & _ & E).
  apply bind_OK in E as (np & c2 & Hnp & E).
  apply lift_OK in Hnp as [Hnp ->]. apply getitem_OK in Hnp.
  apply bind_OK in E as (post' & c3 & _ & E).
  apply ret_OK in E as [[= _ <- _] _].
  split; [eauto|]. by rewrite (on_item_lookup _ _ _ _ Hnp).
Qed.

(** The field derivation never turns a field that may be present into an
    always-absent one. *)
Lemma emit_to_field_keeps_present p :
  forall fu ctx fu' ctx',
    FieldUnparser.always_absent fu = false ->
    _emit_to_field_unparser p fu ctx = OK (fu', ctx') ->
    FieldUnparser.always_absent fu' = false.
Proof.
  set (Q := fun p => forall fu ctx fu' ctx',
              FieldUnparser.always_absent fu = false ->
              _emit_to_field_unparser p fu ctx = OK (fu', ctx') ->
              FieldUnparser.always_absent fu' = false).
  enough (H : Q p /\ (forall ps, p = _Row ps -> Forall Q ps)) by apply H.
  induction p as [rule | q IH | elt sep typ _ _ | | typ | sub b e IH | ps _ | sub _ | n
                 | sub i IH | ps IH | v m | sub typ _] using Parser_nested_ind;
    (split; [| try discriminate]); unfold Q; try intros fu ctx fu' ctx' Hfu E.
  - apply ret_OK in E as [-> _]. simpl. by rewrite Hfu.
  - rewrite emit_to_field_DontSkip in E.
    destruct (isinstance q KDontSkip); [discriminate|]. by eapply (proj1 IH).
  - apply ret_OK in E as [-> _]. simpl. by rewrite Hfu.
  - discriminate.
  - apply ret_OK in E as [-> _]. simpl. by rewrite Hfu.
  - cbn [_emit_to_field_unparser unwrap_dont_skip] in E. destruct b.
    + by apply ret_OK in E as [-> _].
    + by eapply (proj1 IH) in E.
  - cbn [_emit_to_field_unparser unwrap_dont_skip] in E.
    apply bind_OK in E as (? & ? & _ & E). by apply ret_OK in E as [-> _].
  - discriminate.
  - discriminate.
  - cbn [_emit_to_field_unparser unwrap_dont_skip] in E.
    apply bind_OK in E as ([[pre np] post] & c1 & Hs & E).
    destruct (emit_to_field_Extract sub i fu ctx pre np post c1 Hs)
      as ((ps & -> & Hnp) & _).
    rewrite (on_item_lookup _ _ _ _ Hnp) in E.
    destruct IH as [_ IH]. specialize (IH ps eq_refl).
    rewrite Forall_lookup in IH. by eapply (IH _ _ Hnp) in E.
  - discriminate.
  - intros ps' [= <-]. eapply Forall_impl; [exact IH|]. by intros x [Hx _].
  - discriminate.
  - apply ret_OK in E as [-> _]. simpl. by rewrite Hfu.
Qed.

End ExtractionProperties.

(** The split of a row whose elements around the extracted one are token
    parsers: the two runs are the token unparsers of these parsers. *)
Lemma emit_token_run {ops : ParserOps} toks seq ctx :
  cache_ok ctx -> Forall (fun t => wf_token (token_unparser_of t) = true) toks ->
  exists cache,
    foldM (fun seq p => _emit_to_token_sequence p seq) (map token_parser toks) seq ctx
    = OK (TokenSequenceUnparser.__init__
            (TokenSequenceUnparser.tokens seq ++ map token_unparser_of toks),
          set_token_unparsers cache ctx)
    /\ cache_ok (set_token_unparsers cache ctx).
Proof.
  intros Hc Hwf. revert seq ctx Hc.
  induction Hwf as [|[v m] toks Ht _ IH]; intros seq ctx Hc.
  - exists (token_unparsers ctx). cbn. rewrite app_nil_r.
    destruct seq, ctx. done.
  - cbn [map]. rewrite foldM_cons.
    destruct (emit_token_spec v m seq ctx Hc Ht) as (cache1 & E1 & Hc1).
    unfold token_parser at 1. cbn [fst snd]. rewrite (bind_eq _ _ _ _ _ E1).
    destruct (IH (TokenSequenceUnparser.append seq (token_unparser_of (v, m)))
                 _ Hc1) as (cache2 & E2 & Hc2).
    exists cache2. rewrite E2. split; [|done].
    cbn. by rewrite <- app_assoc.
Qed.

Lemma split_extract_token_runs {ops : ParserOps} pre_toks node_parser post_toks ctx :
  cache_ok ctx ->
  Forall (fun t => wf_token (token_unparser_of t) = true) pre_toks ->
  Forall (fun t => wf_token (token_unparser_of t) = true) post_toks ->
  exists cache,
    _split_extract
      (_Extract (_Row (map token_parser pre_toks ++ node_parser :: map token_parser post_toks))
                (length pre_toks)) ctx
    = OK ((TokenSequenceUnparser.__init__ (map token_unparser_of pre_toks),
           node_parser,
           TokenSequenceUnparser.__init__ (map token_unparser_of post_toks)),
          set_token_unparsers cache ctx)
    /\ cache_ok (set_token_unparsers cache ctx).
Proof.
  intros Hc Hpre Hpost. unfold _split_extract.
  assert (Hlen : length pre_toks = length (map token_parser pre_toks))
    by by rewrite length_map.
  rewrite (take_app_length' _ _ _ Hlen).
  destruct (emit_token_run pre_toks (TokenSequenceUnparser.__init__ []) ctx Hc Hpre)
    as (cache1 & E1 & Hc1).
  rewrite (bind_eq _ _ _ _ _ E1).
  assert (Hget : getitem (map token_parser pre_toks ++ node_parser :: map token_parser post_toks)
                   (length pre_toks) = OK node_parser).
  { apply getitem_OK. by apply list_lookup_middle. }
  rewrite Hget, bind_lift.
  assert (Hdrop : drop (S (length pre_toks))
                    (map token_parser pre_toks ++ node_parser :: map token_parser post_toks)
                  = map token_parser post_toks).
  { rewrite cons_middle, app_assoc. apply drop_app_length'.
    rewrite length_app. cbn. lia. }
  rewrite Hdrop.
  destruct (emit_token_run post_toks (TokenSequenceUnparser.__init__ [])
              _ Hc1 Hpost) as (cache2 & E2 & Hc2).
  rewrite (bind_eq _ _ _ _ _ E2).
  exists cache2. split; [reflexivity | done].
Qed.

(** ** The passes of the registry *)

Lemma whitelisted_row_spec row :
  node_then_termination row = true <-> whitelisted_row row.
Proof.
  unfold node_then_termination, whitelisted_row. split.
  - intros [Hlen Hterm]%andb_true_iff. apply Nat.eqb_eq in Hlen.
    destruct row as [|node [|term [|]]]; try discriminate.
    cbn in Hterm. destruct term; try discriminate.
    apply bool_decide_eq_true in Hterm as ->. eauto.
  - intros (node & text & ->). reflexivity.
Qed.

Section RegistryProperties.

Context {ops : ParserOps}.

(** With generation requested, the walk of a rule whose root is an
    extraction stops on the guard of the extraction unless its row is
    whitelisted. *)
Lemma compute_top_level_extract row index ctx :
  generate_unparser ctx = true ->
  is_dont_skip_parser (_Extract (_Row row) index) = false ->
  ~ whitelisted_row row ->
  compute (_Extract (_Row row) index) ctx = Raise top_level_information_loss.
Proof.
  intros Hg Hd Hrow. unfold compute. rewrite Hd.
  assert (E : node_then_termination row = false).
  { destruct (node_then_termination row) eqn:E; [|done].
    by apply whitelisted_row_spec in E. }
  unfold bind at 1. cbn [compute_internal]. unfold bind at 1.
  cbn [compute_visit]. unfold bind at 1. cbn [get].
  unfold bind at 1. rewrite Hg, E. reflexivity.
Qed.

(** C3: with unparser generation requested, [compute] on a rule whose
    top-level combinator is an extraction raises the fatal "Top-level
    information loss" diagnostic, unless the row is exactly a node followed
    by the termination token. *)
Theorem compute_rejects_top_level_information_loss row index ctx :
  generate_unparser ctx = true ->
  is_dont_skip_parser (_Extract (_Row row) index) = false ->
  ~ (exists node text, row = [node; _Token LexerToken.Termination text]) ->
  compute (_Extract (_Row row) index) ctx
  = Raise (DiagnosticError
             (PyStr "Top-level information loss prevents unparsers generation")).
Proof. intros Hg Hd Hrow. by apply compute_top_level_extract. Qed.

End RegistryProperties.

Lemma compute_rejects_top_level_information_loss_witness :
  compute (ops := Ex.ops)
    (_Extract (_Row [_Token Ex.LPar ""; Defer "expr"; _Token Ex.RPar ""]) 1)
    (Ex.empty_context true)
  = Raise (DiagnosticError
             (PyStr "Top-level information loss prevents unparsers generation")).
Proof.
  apply (compute_rejects_top_level_information_loss (ops := Ex.ops)).
  - reflexivity.
  - reflexivity.
  - intros (node & text & [=]).
Defined.

(** *** The walk of [compute] once generation is disabled *)

Lemma set_nodes_to_rules_id ctx : set_nodes_to_rules (nodes_to_rules ctx) ctx = ctx.
Proof. by destruct ctx. Qed.

Lemma record_all_app l1 l2 table :
  record_all (l1 ++ l2) table = record_all l2 (record_all l1 table).
Proof. unfold record_all. apply foldl_app. Qed.

Section DisabledGeneration.

Context {ops : ParserOps}.

Lemma after_recording_nil ctx : after_recording [] ctx = ctx.
Proof. apply set_nodes_to_rules_id. Qed.

Lemma after_recording_app l1 l2 ctx :
  after_recording (l1 ++ l2) ctx = after_recording l2 (after_recording l1 ctx).
Proof. unfold after_recording. cbn. by rewrite record_all_app. Qed.

Lemma after_recording_cons x l ctx :
  after_recording (x :: l) ctx = after_recording l (after_recording [x] ctx).
Proof. apply (after_recording_app [x] l). Qed.

Lemma append_disabled node p ctx :
  generate_unparser ctx = false ->
  append node p ctx = OK (tt, after_recording [(node, p)] ctx).
Proof.
  intros Hg. unfold append, bind, modify, get. cbn. by rewrite Hg.
Qed.

Lemma append_all_disabled alts p ctx :
  generate_unparser ctx = false ->
  forM_ (fun alt => append alt p) alts ctx
  = OK (tt, after_recording (map (fun alt => (alt, p)) alts) ctx).
Proof.
  revert ctx. induction alts as [|alt alts IH]; intros ctx Hg.
  - by rewrite after_recording_nil.
  - rewrite forM__cons, (bind_eq _ _ _ _ _ (append_disabled alt p ctx Hg)).
    rewrite IH by done. cbn [map].
    by rewrite (after_recording_cons (alt, p)).
Qed.

Lemma compute_visit_disabled p toplevel ctx :
  generate_unparser ctx = false ->
  compute_visit p toplevel ctx
  = match p with
    | _Extract sub _ =>
        if isinstance sub KRow then OK (toplevel, ctx) else Raise AssertionError
    | Opt _ (Some _) _ | List _ _ _ | _Transform _ _ =>
        OK (false, after_recording (recorded_here p) ctx)
    | _ => OK (toplevel, ctx)
    end.
Proof.
  intros Hg. destruct p as [| | | | | sub [b|] e | | | | sub i | | |];
    try reflexivity.
  - cbn [compute_visit recorded_here].
    by rewrite (bind_eq _ _ _ _ _ (append_disabled _ _ ctx Hg)).
  - cbn [compute_visit recorded_here].
    by rewrite (bind_eq _ _ _ _ _ (append_all_disabled _ _ ctx Hg)).
  - destruct sub; try reflexivity.
    cbn [compute_visit]. unfold bind, get, lift. rewrite Hg. reflexivity.
  - cbn [compute_visit recorded_here].
    by rewrite (bind_eq _ _ _ _ _ (append_disabled _ _ ctx Hg)).
Qed.

(** With generation disabled, the walk only records the parsers of the
    node types; it fails on an extraction that wraps no row, and on
    nothing else. *)
Lemma compute_internal_disabled p :
  forall toplevel ctx,
    generate_unparser ctx = false ->
    compute_internal p toplevel ctx
    = if extracts_rows p then OK (tt, after_recording (recorded p) ctx)
      else Raise AssertionError.
Proof.
  assert (Hlist : forall cs,
             Forall (fun c => forall toplevel ctx,
                         generate_unparser ctx = false ->
                         compute_internal c toplevel ctx
                         = if extracts_rows c
                           then OK (tt, after_recording (recorded c) ctx)
                           else Raise AssertionError) cs ->
             forall toplevel ctx,
               generate_unparser ctx = false ->
               forM_ (fun c => compute_internal c toplevel) cs ctx
               = if forallb extracts_rows cs
                 then OK (tt, after_recording (concat (map recorded cs)) ctx)
                 else Raise AssertionError).
  { induction 1 as [|c cs Hc _ IH]; intros toplevel ctx Hg.
    - by rewrite after_recording_nil.
    - rewrite forM__cons. unfold bind. rewrite Hc by done. cbn [forallb map concat].
      destruct (extracts_rows c); [|done]. cbn [andb].
      rewrite IH by done. destruct (forallb extracts_rows cs); [|done].
      by rewrite after_recording_app. }
  induction p as [rule | q IH | elt sep typ IHe IHs | | typ | sub b e IH | ps IH | sub IH
                 | n | sub i IH | ps IH | v m | sub typ IH] using Parser_nested_ind;
    intros toplevel ctx Hg; cbn [compute_internal extracts_rows recorded];
    unfold bind at 1; rewrite compute_visit_disabled by done.
  - by rewrite after_recording_nil.
  - rewrite IH by done. by destruct (extracts_rows q).
  - unfold bind at 1. rewrite IHe by done.
    destruct (extracts_rows elt); [|done]. cbn [andb].
    rewrite (after_recording_app (recorded_here _)), (after_recording_app (recorded elt)).
    destruct sep as [s|].
    + rewrite IHs by done. by destruct (extracts_rows s).
    + by rewrite after_recording_nil.
  - by rewrite after_recording_nil.
  - by rewrite after_recording_nil.
  - destruct b as [b|].
    + rewrite IH by done. destruct (extracts_rows sub); [|done].
      by rewrite after_recording_app.
    + rewrite IH by done. by destruct (extracts_rows sub).
  - rewrite (Hlist ps IH) by done. by destruct (forallb extracts_rows ps).
  - rewrite IH by done. by destruct (extracts_rows sub).
  - by rewrite after_recording_nil.
  - destruct (isinstance sub KRow); [|done]. cbn [andb].
    rewrite IH by done. by destruct (extracts_rows sub).
  - rewrite (Hlist ps IH) by done. by destruct (forallb extracts_rows ps).
  - by rewrite after_recording_nil.
  - rewrite IH by done. destruct (extracts_rows sub); [|done].
    by rewrite after_recording_app.
Qed.

End DisabledGeneration.

Section Passes.

Context {ops : ParserOps}.

(** The node-creation predicate returns on every parser whose extractions
    wrap rows. *)
Lemma creates_node_total p :
  extracts_rows p = true -> exists b, creates_node p = OK b.
Proof.
  set (Q := fun p => extracts_rows p = true -> exists b, creates_node p = OK b).
  enough (H : Q p /\ (forall ps, p = _Row ps -> Forall Q ps)) by apply H.
  induction p as [rule | q IH | elt sep typ _ _ | | typ | sub b e IH | ps IH | sub IH | n
                 | sub i IH | ps IH | v m | sub typ _] using Parser_nested_ind;
    (split; [| try discriminate]); unfold Q; try (intros _; by eexists).
  - cbn [creates_node extracts_rows]. intros Hwf.
    destruct (proj1 IH Hwf) as [c ->]. cbn [bindR]. destruct c; eauto.
  - cbn [creates_node extracts_rows]. induction IH as [|c cs [Hc _] _ IHcs].
    + by eexists.
    + cbn [forallb]. intros [Hwc Hwcs]%andb_true_iff.
      rewrite allR_cons. destruct (Hc Hwc) as [b ->]. cbn [bindR].
      destruct b; [by apply IHcs | by eexists].
  - cbn [creates_node extracts_rows]. intros Hwf. by apply (proj1 IH).
  - cbn [extracts_rows]. intros [Hrow Hwf]%andb_true_iff.
    destruct sub; try discriminate. cbn [creates_node].
    destruct IH as [_ IH]. specialize (IH _ eq_refl).
    destruct parsers as [|node [|term [|]]]; try by eexists.
    inversion IH as [|? ? Hnode _]; subst.
    cbn [extracts_rows forallb] in Hwf. apply andb_true_iff in Hwf as [Hwn _].
    destruct (Hnode Hwn) as [c ->]. by eexists.
  - intros ps' [= <-]. eapply Forall_impl; [exact IH|]. by intros x [Hx _].
Qed.

Lemma abort_unparser_spec message ctx :
  exists ws,
    abort_unparser message ctx = OK (tt, set_generate_unparser false (set_warnings ws ctx)).
Proof.
  unfold abort_unparser, bind, get, warn_if, modify. eexists. reflexivity.
Qed.

(** With generation disabled, [compute] raises no diagnostic: it records
    the parsers of the node types, derives nothing and leaves generation
    disabled. *)
Lemma compute_disabled rule ctx :
  generate_unparser ctx = false ->
  extracts_rows rule = true ->
  exists ctx',
    compute rule ctx = OK (tt, ctx')
    /\ generate_unparser ctx' = false
    /\ unparsers ctx' = unparsers ctx
    /\ node_unparser ctx' = node_unparser ctx
    /\ nodes_to_rules ctx'
       = if is_dont_skip_parser rule then nodes_to_rules ctx
         else record_all (recorded rule) (nodes_to_rules ctx).
Proof.
  intros Hg Hwf. unfold compute. destruct (is_dont_skip_parser rule).
  - exists ctx. done.
  - unfold bind at 1. rewrite compute_internal_disabled, Hwf by done.
    destruct (creates_node_total rule Hwf) as [b Hb].
    unfold bind, lift. rewrite Hb. destruct b; cbn [negb].
    + eexists. split; [reflexivity|]. done.
    + destruct (abort_unparser_spec
                  ("'" +:+ rule_name rule +:+ "' toplevel rule loses information.")
                  (after_recording (recorded rule) ctx)) as [ws ->].
      eexists. split; [reflexivity|]. done.
Qed.


Lemma warn_unused_spec (cond : Context -> CompiledType -> bool)
  (message : CompiledType -> string) node_types ctx :
  exists ws,
    forM_ (fun node_type =>
             ctx <- get ;; warn_if unused_node_type (cond ctx node_type) (message node_type))
          node_types ctx
    = OK (tt, set_warnings ws ctx).
Proof.
  revert ctx. induction node_types as [|nt nts IH]; intros ctx.
  - exists (warnings ctx). by destruct ctx.
  - rewrite forM__cons.
    assert (Hstep : (ctx <- get ;;
                     warn_if unused_node_type (cond ctx nt) (message nt)) ctx
                    = OK (tt, if cond ctx nt
                              then set_warnings
                                     (warnings ctx ++ [(unused_node_type, message nt)]) ctx
                              else ctx)) by reflexivity.
    rewrite (bind_eq _ _ _ _ _ Hstep).
    destruct (cond ctx nt).
    + destruct (IH (set_warnings (warnings ctx ++ [(unused_node_type, message nt)]) ctx))
        as [ws ->].
      by exists ws.
    + destruct (IH ctx) as [ws ->]. by exists ws.
Qed.

(** With generation disabled, the consistency check only emits warnings. *)
Lemma check_nodes_to_rules_disabled ctx :
  generate_unparser ctx = false ->
  exists ws, check_nodes_to_rules ctx = OK (tt, set_warnings ws ctx).
Proof.
  intros Hg. unfold check_nodes_to_rules. unfold bind at 1, get.
  destruct (warn_unused_spec
              (fun ctx node_type =>
                 bool_decide (nodes_to_rules ctx !! node_type = None)
                 && negb (abstract node_type) && negb (synthetic node_type)
                 && negb (is_list_type node_type && is_root_list_type node_type))
              (fun node_type =>
                 name node_type
                 +:+ " has no parser, and is marked neither abstract nor synthetic")
              (astnode_types ctx) ctx) as [ws E].
  rewrite (bind_eq _ _ _ _ _ E). unfold bind, get. cbn. rewrite Hg. cbn.
  by exists ws.
Qed.

End Passes.

(** *** What [finalize] leaves alone *)











Section Finalization.

Context {ops : ParserOps}.



(** Without any derived occurrence, [finalize] attaches no unparser to any
    node type: it leaves the whole context as it is. *)
Lemma finalize_nothing ctx :
  unparsers ctx = ∅ -> finalize ctx = OK (tt, ctx).
Proof.
  intros He. unfold finalize. unfold bind at 1, get.
  induction (astnode_types ctx) as [|node nodes IH]; [done|].
  rewrite forM__cons.
  assert (E : finalize_node node ctx = OK (tt, ctx)).
  { unfold finalize_node, bind, get. by rewrite He, lookup_empty. }
  by rewrite (bind_eq _ _ _ _ _ E).
Qed.




End Finalization.


(** ** The embedding and the source *)

(** The walks of the source go through [children]; the recursive
    definitions spell the children out, kind by kind.  The two agree. *)

Lemma bind_unit_ret (m : M unit) ctx : bind m (fun _ => ret tt) ctx = m ctx.
Proof. unfold bind, ret. by destruct (m ctx) as [[[] c]|]. Qed.

Section Children.

Context {ops : ParserOps}.

Lemma compute_internal_children p toplevel ctx :
  compute_internal p toplevel ctx
  = (toplevel' <- compute_visit p toplevel ;;
     forM_ (fun c => compute_internal c toplevel') (children p)) ctx.
Proof.
  destruct p as [| | elt [s|] typ | | | | | | | | | |];
    cbn [compute_internal children]; unfold bind at 1; symmetry; unfold bind at 1;
    destruct (compute_visit _ toplevel ctx) as [[tl c]|]; try reflexivity;
    rewrite ?forM__cons; cbn [forM_]; try apply bind_unit_ret.
  unfold bind at 1. symmetry. unfold bind at 1.
  destruct (compute_internal elt tl c) as [[[] c1]|]; [|done].
  symmetry. apply bind_unit_ret.
Qed.

Lemma has_null_children p :
  has_null p = isinstance p KNull || existsb has_null (children p).
Proof.
  destruct p as [| | elt [s|] typ | | | | | | | | | |]; cbn; try reflexivity;
    by rewrite ?orb_false_r.
Qed.

End Children.

(** *** The bound on the depth of the structural comparison *)

Lemma list_max_elem (l : list nat) x : x ∈ l -> x <= list_max l.
Proof.
  induction 1 as [x l|x y l _ IH]; unfold list_max in *; cbn; lia.
Qed.

Lemma list_max_lt (l : list nat) n :
  0 < n -> (forall x, x ∈ l -> x < n) -> list_max l < n.
Proof.
  intros Hn. induction l as [|y l IH]; intros Hl; [done|].
  assert (y < n) by apply Hl, list_elem_of_here.
  assert (list_max l < n) by (apply IH; intros x Hx; by apply Hl, list_elem_of_further).
  unfold list_max in *; cbn; lia.
Qed.

Lemma depth_unwrap_dont_skip p : depth (unwrap_dont_skip p) <= depth p.
Proof. destruct p; cbn; lia. Qed.

Lemma depth_children p c : c ∈ children p -> depth c < depth p.
Proof.
  destruct p as [| | elt [s|] typ | | | | ps | | | | ps | |]; cbn;
    rewrite ?elem_of_cons, ?elem_of_nil; try tauto;
    try (intros [->|[]]; lia); try (intros [->|[->|[]]]; lia).
  - intros Hc. apply Nat.lt_succ_r, list_max_elem. by apply list_elem_of_fmap_2.
  - intros Hc. apply Nat.lt_succ_r, list_max_elem. by apply list_elem_of_fmap_2.
Qed.

Lemma zip_star_upto_elem {A} n (lists : list (list A)) column x :
  column ∈ zip_star_upto n lists -> x ∈ column -> exists l, l ∈ lists /\ x ∈ l.
Proof.
  revert lists. induction n as [|n IH]; intros lists; cbn; [by intros ?%elem_of_nil|].
  destruct (forallb _ lists); [|by intros ?%elem_of_nil].
  intros [->|Hc]%elem_of_cons Hx.
  - apply list_elem_of_omap in Hx as (l & Hl & Hh).
    exists l. split; [done|]. destruct l; [done|]. injection Hh as ->. apply list_elem_of_here.
  - destruct (IH _ Hc Hx) as (l' & (l & -> & Hl)%list_elem_of_fmap & Hx').
    exists l. split; [done|]. destruct l; [done|]. by apply list_elem_of_further.
Qed.

Lemma zip_star_elem {A} (lists : list (list A)) column x :
  column ∈ zip_star lists -> x ∈ column -> exists l, l ∈ lists /\ x ∈ l.
Proof.
  unfold zip_star. destruct lists as [|l lists]; [by intros ?%elem_of_nil|].
  apply zip_star_upto_elem.
Qed.

Lemma allR_no_exn {A} (f : A -> result bool) l e :
  (forall x, x ∈ l -> f x <> Raise e) -> allR f l <> Raise e.
Proof.
  induction l as [|x l IH]; intros Hf; [done|].
  rewrite allR_cons. destruct (f x) as [b|e'] eqn:E.
  - cbn [bindR]. destruct b; [|done]. apply IH. intros y Hy.
    by apply Hf, list_elem_of_further.
  - cbn [bindR]. intros [= ->]. by apply (Hf x); [apply list_elem_of_here|].
Qed.

Section Fuel.

Context {ops : ParserOps}.

Lemma creates_node_no_recursion_error p : creates_node p <> Raise RecursionError.
Proof.
  set (Q := fun p => creates_node p <> Raise RecursionError).
  enough (H : Q p /\ (forall ps, (p = _Row ps \/ p = Or ps) -> Forall Q ps)) by apply H.
  induction p as [rule | q IH | elt sep typ _ _ | | typ | sub b e IH | ps IH | sub IH | n
                 | sub i IH | ps IH | v m | sub typ _] using Parser_nested_ind;
    (split; [| try (intros ? [?|?]; discriminate)]); unfold Q; try done.
  - cbn [creates_node]. destruct IH as [IH _]. unfold Q in IH.
    destruct (creates_node sub) as [[]|]; cbn [bindR]; congruence.
  - cbn [creates_node]. apply allR_no_exn. intros x Hx.
    rewrite Forall_forall in IH. by apply IH.
  - intros ps' [[=]|[= <-]]. eapply Forall_impl; [exact IH|]. by intros x [Hx _].
  - by apply IH.
  - destruct IH as [_ IH]. cbn [creates_node].
    assert (Hrow : forall parsers, Forall Q parsers ->
              match parsers with
              | [node; term] => c <~ creates_node node ;; OK (c && is_termination term)
              | _ => OK false
              end <> Raise RecursionError).
    { intros [|node [|term [|]]] HQ; try done.
      inversion HQ as [|? ? Hn _]; subst. unfold Q in Hn.
      destruct (creates_node node); cbn [bindR]; congruence. }
    destruct sub; try done; apply Hrow, IH; auto.
  - intros ps' [[= <-]|[=]]. eapply Forall_impl; [exact IH|]. by intros x [Hx _].
Qed.

(** The fuel that [unparser_struct_eq] starts with is never exhausted. *)
Lemma unparser_struct_eq_rec_fuel fuel :
  forall parsers toplevel,
    list_max (map depth parsers) < fuel ->
    unparser_struct_eq_rec fuel parsers toplevel <> Raise RecursionError.
Proof.
  induction fuel as [|fuel IH]; intros parsers toplevel Hfuel; [lia|].
  cbn [unparser_struct_eq_rec].
  set (remaining_parsers :=
         map unwrap_dont_skip (filter (fun p => isinstance p KNull = false) parsers)).
  assert (Hdepth : forall p, p ∈ remaining_parsers -> 1 <= depth p <= fuel).
  { intros p (q & -> & Hq%list_elem_of_filter)%list_elem_of_fmap.
    destruct Hq as [_ Hq].
    pose proof (depth_unwrap_dont_skip q).
    pose proof (list_max_elem (map depth parsers) (depth q)
                  ltac:(by apply list_elem_of_fmap_2)).
    split; [destruct (unwrap_dont_skip q); cbn; lia | lia]. }
  clearbody remaining_parsers.
  destruct (length remaining_parsers =? 1); [done|].
  assert (Hfallback :
            (if negb toplevel
             then allR creates_node
                    (map (fun p => if isinstance p KDefer then resolve p else p)
                         remaining_parsers)
             else OK false) <> Raise RecursionError).
  { destruct toplevel; cbn [negb]; [done|].
    apply allR_no_exn. intros x _. apply creates_node_no_recursion_error. }
  destruct (remove_dups (map type_of remaining_parsers)) as [|typ [|]] eqn:Hkinds;
    cbn [bindR]; try exact Hfallback.
  assert (Htyp : forall p, p ∈ remaining_parsers -> type_of p = typ).
  { intros p Hp. apply (list_elem_of_fmap_2 type_of) in Hp.
    apply (proj2 (elem_of_remove_dups _ _)) in Hp.
    change (type_of p ∈ remove_dups (map type_of remaining_parsers)) in Hp.
    rewrite Hkinds in Hp. by apply list_elem_of_singleton in Hp. }
  assert (Hpos : 0 < fuel).
  { destruct remaining_parsers as [|p ps]; [discriminate|].
    specialize (Hdepth p ltac:(apply list_elem_of_here)). lia. }
  repeat case_bool_decide; cbn [bindR]; try exact Hfallback; try done.
  - destruct (is_same _); [|done].
    match goal with |- context [allR ?f ?l] => destruct (allR f l) as [b|e] eqn:E end;
      cbn [bindR]; [done|].
    intros [= ->]. revert E. apply allR_no_exn. intros column Hcolumn.
    apply IH, list_max_lt; [done|].
    intros x (c & -> & Hc)%list_elem_of_fmap.
    destruct (zip_star_elem _ _ _ Hcolumn Hc) as (l & Hl & Hcl).
    apply list_elem_of_fmap in Hl as (p & -> & Hp).
    apply list_elem_of_filter in Hcl as [_ Hcl].
    apply depth_children in Hcl. specialize (Hdepth p Hp). lia.
  - match goal with
    | |- context [unparser_struct_eq_rec fuel ?l true] =>
        destruct (unparser_struct_eq_rec fuel l true) as [b|e] eqn:E
    end; cbn [bindR]; [by destruct b|].
    intros [= ->]. revert E. apply IH, list_max_lt; [done|].
    intros x (c & -> & (p & -> & Hp)%list_elem_of_fmap)%list_elem_of_fmap.
    specialize (Hdepth p Hp). specialize (Htyp p Hp). subst typ.
    destruct p; try discriminate. cbn in *. lia.
Qed.

(** [unparser_struct_eq] never stops for want of fuel. *)
Lemma unparser_struct_eq_terminates parsers toplevel :
  unparser_struct_eq parsers toplevel <> Raise RecursionError.
Proof. apply unparser_struct_eq_rec_fuel. lia. Qed.

End Fuel.

(** * Further properties of the pass *)

(** ** Tokens and token sequences *)

(** X1: On token unparsers that satisfy the constructor's invariant, absent
    ones included, [equivalent] is an equivalence relation. *)
Theorem token_equivalent_is_equivalence (o1 o2 o3 : option TokenUnparser.t) :
  wf_separator o1 -> wf_separator o2 -> wf_separator o3 ->
  TokenUnparser.equivalent o1 o1 = OK true
  /\ TokenUnparser.equivalent o1 o2 = TokenUnparser.equivalent o2 o1
  /\ (TokenUnparser.equivalent o1 o2 = OK true ->
      TokenUnparser.equivalent o2 o3 = OK true ->
      TokenUnparser.equivalent o1 o3 = OK true).
Proof.
  intros H1 H2 H3.
  assert (Hd : forall o, wf_separator o ->
                 match o with
                 | Some t => exists s, TokenUnparser.dumps t = OK s
                 | None => True
                 end).
  { intros [t|] Ho; [|done]. by apply wf_token_dumps, Ho. }
  specialize (Hd o1 H1) as Hd1. specialize (Hd o2 H2) as Hd2. specialize (Hd o3 H3) as Hd3.
  destruct o1 as [t1|], o2 as [t2|], o3 as [t3|]; cbn;
    repeat match goal with H : exists s, _ = OK s |- _ => destruct H as [? ->] end;
    cbn; rewrite ?String.eqb_refl; repeat split; try done.
  all: try by rewrite String.eqb_sym.
  intros [= ->%string_eqb_eq] [= ->%string_eqb_eq]. by rewrite String.eqb_refl.
Qed.

Lemma token_equivalent_is_equivalence_witness :
  TokenUnparser.equivalent (Some (Ex.unparser Ex.Comma))
                           (Some (token_unparser_of (Ex.Identifier, ",")))
  = TokenUnparser.equivalent (Some (token_unparser_of (Ex.Identifier, ",")))
                             (Some (Ex.unparser Ex.Comma)).
Proof.
  apply (token_equivalent_is_equivalence
           (Some (Ex.unparser Ex.Comma)) (Some (token_unparser_of (Ex.Identifier, ","))) None);
    intros t [= <-] || intros t [=]; reflexivity.
Defined.

(** X2: A token unparser that the constructor accepts always renders: to its
    match text when it has one, to the literal of its token kind
    otherwise; the constructor refuses a kind with a literal together with
    a match text, and a kind without literal without a match text. *)
Theorem token_unparser_always_renders tok text :
  (forall t, TokenUnparser.__init__ tok text = OK t ->
     exists s, TokenUnparser.dumps t = OK s
               /\ (text = Some s /\ s <> "" /\ matcher tok = None
                   \/ matcher tok = Some {| to_match := s |} /\ str_truthy text = false))
  /\ ((forall t, TokenUnparser.__init__ tok text <> OK t) <->
      TokenUnparser.__init__ tok text = Raise AssertionError)
  /\ (TokenUnparser.__init__ tok text = Raise AssertionError <->
      (matcher tok = None <-> str_truthy text = false)).
Proof.
  unfold TokenUnparser.__init__, assert, TokenUnparser.dumps. split.
  - intros t. destruct (Bool.eqb _ _) eqn:E; [|discriminate].
    cbn [bindR]. intros [= <-]. cbn.
    apply Bool.eqb_prop in E. destruct (str_truthy text) eqn:Ht.
    + apply bool_decide_eq_true in E. destruct text as [s|]; [|discriminate].
      exists s. split; [done|]. left. repeat split; [|done].
      intros ->. discriminate.
    + apply bool_decide_eq_false in E. destruct (matcher tok) as [[s]|]; [|done].
      exists s. eauto.
  - destruct (Bool.eqb _ _) eqn:E; cbn [bindR].
    + split; [split; [intros H; by destruct (H _ eq_refl) | discriminate]|].
      split; [discriminate|]. apply Bool.eqb_prop in E.
      destruct (str_truthy text); case_bool_decide; intros [? ?]; try discriminate;
        naive_solver.
    + split; [split; [done | intros _ t; discriminate]|].
      split; [intros _|done]. apply Bool.eqb_false_iff in E.
      destruct (str_truthy text); case_bool_decide; split; congruence.
Qed.

(** X3: [check_equivalence] returns exactly on the sequences that have the
    same length and pairwise the same rendered text; on the others it
    raises the diagnostic "Inconsistent <name>...". *)
Theorem check_equivalence_accepts s1 name s2 :
  wf_sequence s1 -> wf_sequence s2 ->
  (TokenSequenceUnparser.check_equivalence s1 name s2 = OK tt
   <-> length (TokenSequenceUnparser.tokens s1) = length (TokenSequenceUnparser.tokens s2)
       /\ forall i t1 t2,
            TokenSequenceUnparser.tokens s1 !! i = Some t1 ->
            TokenSequenceUnparser.tokens s2 !! i = Some t2 ->
            TokenUnparser.dumps t1 = TokenUnparser.dumps t2)
  /\ (TokenSequenceUnparser.check_equivalence s1 name s2 <> OK tt ->
      exists d, TokenSequenceUnparser.check_equivalence s1 name s2
                = Raise (DiagnosticError (PyStr ("Inconsistent " +:+ name +:+ d)))).
Proof.
  intros H1 H2.
  assert (Hiff : pairwise_equivalent s1 s2 <->
            length (TokenSequenceUnparser.tokens s1) = length (TokenSequenceUnparser.tokens s2)
            /\ forall i t1 t2,
                 TokenSequenceUnparser.tokens s1 !! i = Some t1 ->
                 TokenSequenceUnparser.tokens s2 !! i = Some t2 ->
                 TokenUnparser.dumps t1 = TokenUnparser.dumps t2).
  { unfold pairwise_equivalent. rewrite Forall2_same_length_lookup. split.
    - intros [Hlen Hall]. split; [done|]. intros i t1 t2 Ht1 Ht2.
      destruct (Hall i t1 t2 Ht1 Ht2) as (s & -> & ->). done.
    - intros [Hlen Hall]. split; [done|]. intros i t1 t2 Ht1 Ht2.
      unfold wf_sequence in H1. rewrite Forall_lookup in H1.
      destruct (wf_token_dumps t1 (H1 i t1 Ht1)) as [s Hs].
      exists s. split; [done|]. by rewrite <- (Hall i t1 t2 Ht1 Ht2). }
  rewrite <- Hiff.
  destruct (check_equivalence_spec s1 name s2 H1 H2) as [[Hp ->]|[Hp [d ->]]].
  - split; [done|]. intros H. by destruct H.
  - split; [split; [discriminate | done]|]. eauto.
Qed.

Lemma check_equivalence_accepts_witness :
  exists d,
    TokenSequenceUnparser.check_equivalence
      (Ex.sequence [Ex.LPar; Ex.Comma]) "prefix tokens" (Ex.sequence [Ex.LPar])
    = Raise (DiagnosticError (PyStr ("Inconsistent " +:+ "prefix tokens" +:+ d))).
Proof.
  apply (check_equivalence_accepts (Ex.sequence [Ex.LPar; Ex.Comma]) "prefix tokens"
           (Ex.sequence [Ex.LPar])).
  - repeat constructor.
  - repeat constructor.
  - vm_compute. discriminate.
Defined.

(** X4: Sequences that [check_equivalence] accepts have the same dump. *)
Theorem equivalent_sequences_dump_alike s1 name s2 :
  TokenSequenceUnparser.check_equivalence s1 name s2 = OK tt ->
  exists d, TokenSequenceUnparser.dumps s1 = OK d /\ TokenSequenceUnparser.dumps s2 = OK d.
Proof.
  unfold TokenSequenceUnparser.check_equivalence, TokenSequenceUnparser.equivalent,
    TokenSequenceUnparser.dumps.
  destruct s1 as [l1], s2 as [l2]. cbn [TokenSequenceUnparser.tokens].
  intros H. apply bindR_OK in H as (cond & Hcond & H).
  apply bindR_OK in H as (d1 & Hd1 & H). apply bindR_OK in H as (d2 & Hd2 & H).
  unfold check_source_language in H. cbn in H. destruct cond; [|discriminate].
  apply bindR_OK in Hd1 as (r1 & Hr1 & [= <-]).
  apply bindR_OK in Hd2 as (r2 & Hr2 & [= <-]).
  rewrite Hr1, Hr2. cbn [bindR]. exists (join " " r1). split; [done|]. do 2 f_equal.
  destruct (length l1 =? length l2) eqn:Hlen; [|discriminate].
  apply Nat.eqb_eq in Hlen. clear H. revert l2 r1 r2 Hlen Hcond Hr1 Hr2.
  induction l1 as [|t1 l1 IH]; intros [|t2 l2] r1 r2 Hlen Hcond Hr1 Hr2; try discriminate.
  - injection Hr1 as <-. by injection Hr2 as <-.
  - cbn [zip zip_with] in Hcond. rewrite allR_cons in Hcond. cbv beta iota in Hcond.
    rewrite mapR_cons in Hr1, Hr2.
    apply bindR_OK in Hr1 as (x1 & Hx1 & Hr1). apply bindR_OK in Hr1 as (y1 & Hy1 & [= <-]).
    apply bindR_OK in Hr2 as (x2 & Hx2 & Hr2). apply bindR_OK in Hr2 as (y2 & Hy2 & [= <-]).
    cbn [TokenUnparser.equivalent] in Hcond. rewrite Hx1, Hx2 in Hcond. cbn [bindR] in Hcond.
    destruct (String.eqb x1 x2) eqn:Hx; [|discriminate].
    apply string_eqb_eq in Hx as ->. f_equal.
    injection Hlen as Hlen. by apply (IH l2).
Qed.

Lemma equivalent_sequences_dump_alike_witness :
  exists d,
    TokenSequenceUnparser.dumps (Ex.sequence [Ex.LPar; Ex.Comma]) = OK d
    /\ TokenSequenceUnparser.dumps
         (TokenSequenceUnparser.__init__
            [token_unparser_of (Ex.Identifier, "("); Ex.unparser Ex.Comma]) = OK d.
Proof.
  apply (equivalent_sequences_dump_alike _ "prefix tokens"). reflexivity.
Defined.

(** ** The cache of token unparsers *)

Lemma set_token_unparsers_id ctx : set_token_unparsers (token_unparsers ctx) ctx = ctx.
Proof. by destruct ctx. Qed.

Lemma cache_step_refl ctx : cache_step ctx ctx.
Proof. split; [by rewrite set_token_unparsers_id | done]. Qed.

Lemma cache_step_trans c1 c2 c3 : cache_step c1 c2 -> cache_step c2 c3 -> cache_step c1 c3.
Proof.
  intros (E1 & S1 & K1) (E2 & S2 & K2). split; [|split].
  - rewrite E2, E1. reflexivity.
  - by etrans.
  - auto.
Qed.

Lemma from_token_cache v m ctx u ctx1 :
  TokenUnparser_from_token v m ctx = OK (u, ctx1) ->
  let key := (v, if String.eqb m "" then None else Some m) in
  token_unparsers ctx1 !! key = Some u
  /\ (forall k, k <> key -> token_unparsers ctx1 !! k = token_unparsers ctx !! k)
  /\ cache_step ctx ctx1
  /\ (token_unparsers ctx !! key = None -> u = token_unparser_of (v, m)).
Proof.
  intros E key. unfold TokenUnparser_from_token, bind, get in E. fold key in E.
  destruct (token_unparsers ctx !! key) as [r|] eqn:Hk.
  - apply ret_OK in E as [-> ->]. split; [done|]. split; [done|].
    split; [apply cache_step_refl | done].
  - unfold lift in E. destruct (TokenUnparser.__init__ v _) as [t|] eqn:Hi; [|done].
    cbn in E. injection E as <- <-. cbn.
    apply init_wf in Hi as [_ ->].
    split; [apply lookup_insert_eq|]. split; [intros k Hne; by apply lookup_insert_ne|].
    split; [|done]. split; [done|]. split; [by apply insert_subseteq|].
    intros Hc k u. cbn. rewrite lookup_insert. case_decide as Hkk.
    + subst k. by intros [= <-].
    + apply Hc.
Qed.

(** X5: The cache of token unparsers is a round trip: once a token parser has
    been given its unparser, the cache holds it under the key of the
    parser, the other keys are as before, and asking again returns the
    same unparser and leaves the context as it is. *)
Theorem token_cache_round_trip v m ctx u ctx1 :
  TokenUnparser_from_token v m ctx = OK (u, ctx1) ->
  token_unparsers ctx1 !! (v, if String.eqb m "" then None else Some m) = Some u
  /\ (forall k, k <> (v, if String.eqb m "" then None else Some m) ->
                token_unparsers ctx1 !! k = token_unparsers ctx !! k)
  /\ TokenUnparser_from_token v m ctx1 = OK (u, ctx1)
  /\ TokenUnparser_from_parser (Some (_Token v m)) ctx1 = OK (Some u, ctx1).
Proof.
  intros E. destruct (from_token_cache v m ctx u ctx1 E) as (Hk & Hother & _ & _).
  split; [done|]. split; [done|].
  assert (E' : TokenUnparser_from_token v m ctx1 = OK (u, ctx1)).
  { unfold TokenUnparser_from_token, bind, get. by rewrite Hk. }
  split; [done|]. cbn [TokenUnparser_from_parser]. by rewrite (bind_eq _ _ _ _ _ E').
Qed.

Lemma token_cache_round_trip_witness :
  exists u ctx1,
    TokenUnparser_from_token Ex.Identifier "begin" (Ex.empty_context true) = OK (u, ctx1)
    /\ TokenUnparser_from_token Ex.Identifier "begin" ctx1 = OK (u, ctx1).
Proof.
  destruct (from_token_spec Ex.Identifier "begin" (Ex.empty_context true)
              (empty_context_cache_ok true) eq_refl) as (cache & E & _).
  eexists _, _. split; [exact E|].
  by apply (token_cache_round_trip _ _ _ _ _ E).
Defined.

(** X6: A token parser whose kind has no literal and that carries no match
    text has no token unparser: unless the cache holds its key, the
    constructor's assertion fails; so does the assertion of [from_parser]
    on a parser that is not a token parser, while no parser gives no
    unparser. *)
Theorem token_unparser_from_parser_edges ctx :
  TokenUnparser_from_parser None ctx = OK (None, ctx)
  /\ (forall p, isinstance p KToken = false ->
                TokenUnparser_from_parser (Some p) ctx = Raise AssertionError)
  /\ (forall v m,
        token_unparsers ctx !! (v, if String.eqb m "" then None else Some m) = None ->
        wf_token (token_unparser_of (v, m)) = false ->
        TokenUnparser_from_parser (Some (_Token v m)) ctx = Raise AssertionError).
Proof.
  split; [done|]. split.
  - intros p Hp. destruct p; try done.
  - intros v m Hk Hwf. cbn [TokenUnparser_from_parser].
    unfold bind at 1. unfold TokenUnparser_from_token, bind, get. rewrite Hk.
    unfold lift, TokenUnparser.__init__, assert.
    unfold wf_token, token_unparser_of in Hwf. cbn in Hwf. by rewrite Hwf.
Qed.

Lemma token_unparser_from_parser_edges_witness :
  TokenUnparser_from_parser (Some (_Token Ex.Identifier "")) (Ex.empty_context true)
  = Raise AssertionError.
Proof.
  apply (token_unparser_from_parser_edges (Ex.empty_context true)); reflexivity.
Defined.

(** ** What the derivation keeps *)

Lemma foldM_invariant {A B} (f : B -> A -> M B) (S : B * Context -> B * Context -> Prop)
  `{!PreOrder S} (l : list A) :
  (forall x, x ∈ l -> forall acc ctx acc' ctx',
     f acc x ctx = OK (acc', ctx') -> S (acc, ctx) (acc', ctx')) ->
  forall acc ctx acc' ctx',
    foldM f l acc ctx = OK (acc', ctx') -> S (acc, ctx) (acc', ctx').
Proof.
  induction l as [|x l IH]; intros Hf acc ctx acc' ctx' E.
  - apply ret_OK in E as [-> ->]. reflexivity.
  - rewrite foldM_cons in E. apply bind_OK in E as (a1 & c1 & E1 & E2).
    etrans; [eapply Hf; [apply list_elem_of_here | exact E1]|].
    eapply IH; [|exact E2]. intros y Hy. by apply Hf, list_elem_of_further.
Qed.

Lemma forM__invariant {A} (f : A -> M unit) (R : Context -> Context -> Prop)
  `{!PreOrder R} (l : list A) :
  (forall x, x ∈ l -> respects R (f x)) -> respects R (forM_ f l).
Proof.
  induction l as [|x l IH]; intros Hf ctx a ctx' E.
  - apply ret_OK in E as [_ ->]. reflexivity.
  - rewrite forM__cons in E. apply bind_OK in E as (a1 & c1 & E1 & E2).
    etrans; [eapply Hf; [apply list_elem_of_here | exact E1]|].
    eapply IH; [|exact E2]. intros y Hy. by apply Hf, list_elem_of_further.
Qed.

Global Instance cache_step_preorder : PreOrder cache_step.
Proof. split; [intros ?; apply cache_step_refl | intros ???; apply cache_step_trans]. Qed.

Global Instance field_step_preorder : PreOrder field_step.
Proof.
  split.
  - intros fu. by repeat split.
  - intros f1 f2 f3 (N1 & F1 & A1 & P1 & S1) (N2 & F2 & A2 & P2 & S2).
    repeat split; [congruence | congruence | auto | by etrans | by etrans].
Qed.

Global Instance regular_step_preorder : PreOrder regular_step.
Proof.
  split.
  - intros r. by repeat split.
  - intros r1 r2 r3 (N1 & F1 & M1 & L1) (N2 & F2 & M2 & L2).
    repeat split; congruence.
Qed.

Section DerivationInvariants.

Context {ops : ParserOps}.

Lemma emit_to_token_sequence_DontSkip q seq :
  _emit_to_token_sequence (DontSkip q) seq
  = if isinstance q KDontSkip then ret seq else _emit_to_token_sequence q seq.
Proof. destruct q; reflexivity. Qed.

Global Instance emission_step_preorder : PreOrder emission_step.
Proof.
  split.
  - intros [s c]. split; reflexivity.
  - intros [s1 c1] [s2 c2] [s3 c3] [P1 C1] [P2 C2]. split; by etrans.
Qed.

Lemma emit_to_token_sequence_step p :
  forall seq ctx seq' ctx',
    _emit_to_token_sequence p seq ctx = OK (seq', ctx') ->
    emission_step (seq, ctx) (seq', ctx').
Proof.
  induction p as [rule | q IH | elt sep typ _ _ | | typ | sub b e IH | ps _ | sub _ | n
                 | sub i _ | ps IH | v m | sub typ _] using Parser_nested_ind;
    intros seq ctx seq' ctx' E; try discriminate.
  - rewrite emit_to_token_sequence_DontSkip in E.
    destruct (isinstance q KDontSkip); [|by apply IH].
    apply ret_OK in E as [-> ->]. reflexivity.
  - apply ret_OK in E as [-> ->]. reflexivity.
  - cbn [_emit_to_token_sequence unwrap_dont_skip] in E.
    destruct e; [by apply IH | discriminate].
  - cbn [_emit_to_token_sequence unwrap_dont_skip] in E.
    eapply (foldM_invariant _ emission_step); [|exact E].
    intros x Hx acc c acc' c' Ex. rewrite Forall_forall in IH. by apply (IH x Hx).
  - cbn [_emit_to_token_sequence unwrap_dont_skip] in E.
    apply bind_OK in E as (u & c1 & E1 & E2). apply ret_OK in E2 as [-> ->].
    destruct (from_token_cache v m ctx u c1 E1) as (_ & _ & Hstep & _).
    split; [|done]. cbn. by apply prefix_app_r.
Qed.

End DerivationInvariants.

Global Instance row_step_preorder : PreOrder row_step.
Proof.
  split.
  - intros [[n r] c]. split; reflexivity.
  - intros [[n1 r1] c1] [[n2 r2] c2] [[n3 r3] c3] [C1 R1] [C2 R2]. split; by etrans.
Qed.

Lemma init_well_shaped node :
  RegularNodeUnparser.node (RegularNodeUnparser.__init__ node) = node
  /\ well_shaped (RegularNode (RegularNodeUnparser.__init__ node)).
Proof.
  split; [done|]. cbn. split; [|split].
  - induction (get_parse_fields node) as [|f l IH]; [done|]. cbn. by rewrite IH.
  - apply Forall_fmap, Forall_forall. done.
  - apply length_replicate.
Qed.

Lemma regular_step_well_shaped r r' :
  regular_step r r' -> well_shaped (RegularNode r) -> well_shaped (RegularNode r').
Proof.
  intros (N & F & M & L) (Hf & Hn & Hl). cbn. rewrite N, F, L. split; [done|]. split; [|done].
  apply Forall_forall. intros fu Hfu.
  assert (Hin : FieldUnparser.node fu
                ∈ map FieldUnparser.node (RegularNodeUnparser.field_unparsers r'))
    by (by apply list_elem_of_fmap_2).
  rewrite M in Hin. apply list_elem_of_fmap in Hin as (fu0 & -> & Hfu0).
  rewrite Forall_forall in Hn. by apply Hn.
Qed.

Lemma token_unparser_from_parser_step o ctx r ctx' :
  TokenUnparser_from_parser o ctx = OK (r, ctx') -> cache_step ctx ctx'.
Proof.
  destruct o as [p|]; [|intros [_ ->]%ret_OK; reflexivity].
  destruct p; try discriminate. cbn [TokenUnparser_from_parser].
  intros (u & c1 & E1 & [_ ->]%ret_OK)%bind_OK.
  by destruct (from_token_cache _ _ _ _ _ E1) as (_ & _ & H & _).
Qed.

Section DerivationInvariants2.

Context {ops : ParserOps}.

Lemma emit_tokens_cache_step p seq ctx seq' ctx' :
  _emit_to_token_sequence p seq ctx = OK (seq', ctx') -> cache_step ctx ctx'.
Proof. intros E. by destruct (emit_to_token_sequence_step p seq ctx seq' ctx' E). Qed.

Lemma split_extract_step p ctx r ctx' :
  _split_extract p ctx = OK (r, ctx') -> cache_step ctx ctx'.
Proof.
  unfold _split_extract. destruct p as [| | | | | | | | |sub i| | |]; try discriminate.
  destruct sub; try discriminate.
  intros (pre & c1 & E1 & E)%bind_OK.
  apply bind_OK in E as (np & c2 & [_ ->]%lift_OK & E).
  apply bind_OK in E as (post & c3 & E3 & [_ ->]%ret_OK).
  assert (Hfold : forall l acc c acc' c',
            foldM (fun seq q => _emit_to_token_sequence q seq) l acc c = OK (acc', c') ->
            emission_step (acc, c) (acc', c')).
  { intros l. apply (foldM_invariant _ emission_step).
    intros x _ acc c acc' c'. apply emit_to_token_sequence_step. }
  etrans; [apply (Hfold _ _ _ _ _ E1) | apply (Hfold _ _ _ _ _ E3)].
Qed.

Lemma emit_discarded_step subp next_field r ctx r' ctx' :
  emit_discarded subp next_field r ctx = OK (r', ctx') ->
  cache_step ctx ctx' /\ regular_step r r'.
Proof.
  unfold emit_discarded. destruct (next_field =? 0); [|destruct (next_field <? _)].
  - intros (seq & c1 & E1 & [-> ->]%ret_OK)%bind_OK.
    split; [by eapply emit_tokens_cache_step | by repeat split].
  - intros (seq0 & c0 & [_ ->]%lift_OK & E)%bind_OK.
    apply bind_OK in E as (seq & c1 & E1 & [-> ->]%ret_OK).
    split; [by eapply emit_tokens_cache_step|]. repeat split. cbn. apply length_insert.
  - intros (seq & c1 & E1 & [-> ->]%ret_OK)%bind_OK.
    split; [by eapply emit_tokens_cache_step | by repeat split].
Qed.

Lemma from_parser_DontSkip node q ctx u ctx' :
  from_parser node (DontSkip q) ctx = OK (u, ctx') ->
  from_parser node q ctx = OK (u, ctx').
Proof.
  destruct q; try exact id.
  cbn [from_parser unwrap_dont_skip].
  intros (? & ? & [_ ->]%lift_OK & E)%bind_OK. exfalso.
  destruct (is_token_node node); discriminate.
Qed.

Lemma set_field_unparser_step next_field fu fu' r :
  RegularNodeUnparser.field_unparsers r !! next_field = Some fu ->
  field_step fu fu' ->
  regular_step r (set_field_unparser next_field fu' r).
Proof.
  intros Hfu (N & F & _). repeat split; cbn.
  - rewrite list_fmap_insert, F. apply list_insert_id. by rewrite list_lookup_fmap, Hfu.
  - rewrite list_fmap_insert, N. apply list_insert_id. by rewrite list_lookup_fmap, Hfu.
Qed.

(** The derivation of a node unparser and the derivation of a field
    unparser write nothing but the cache of token unparsers; the node
    unparser is for the requested node type and has its shape; the field
    unparser keeps what it had. *)
Lemma derivation_steps p :
  (forall node ctx u ctx',
     from_parser node p ctx = OK (u, ctx') ->
     cache_step ctx ctx' /\ node_of u = node /\ well_shaped u)
  /\ (forall fu ctx fu' ctx',
        _emit_to_field_unparser p fu ctx = OK (fu', ctx') ->
        cache_step ctx ctx' /\ field_step fu fu').
Proof.
  set (Q := fun p =>
    (forall node ctx u ctx',
       from_parser node p ctx = OK (u, ctx') ->
       cache_step ctx ctx' /\ node_of u = node /\ well_shaped u)
    /\ (forall fu ctx fu' ctx',
          _emit_to_field_unparser p fu ctx = OK (fu', ctx') ->
          cache_step ctx ctx' /\ field_step fu fu')).
  enough (H : Q p /\ (forall ps, p = _Row ps -> Forall Q ps)) by apply H.
  assert (Htoken : forall node cond message ctx u ctx',
            (lift (check_source_language (PyBool cond) (PyStr message)) ;;
             ret (TokenNode {| TokenNodeUnparser.node := node |})) ctx = OK (u, ctx') ->
            cache_step ctx ctx' /\ node_of u = node /\ well_shaped u).
  { intros node cond message ctx u ctx' (? & ? & [_ ->]%lift_OK & [-> ->]%ret_OK)%bind_OK.
    split; [reflexivity | done]. }
  assert (Hdirect : forall b fu ctx fu' ctx',
            ret (set_always_absent (FieldUnparser.always_absent fu && b) fu) ctx
            = OK (fu', ctx') ->
            cache_step ctx ctx' /\ field_step fu fu').
  { intros b fu ctx fu' ctx' [-> ->]%ret_OK. split; [reflexivity|].
    repeat split; cbn; [by intros -> | done | done]. }
  induction p as [rule | q IH | elt sep typ _ _ | | typ | sub b e IH | ps IH | sub _ | n
                 | sub i IH | ps IH | v m | sub typ IH] using Parser_nested_ind;
    (split; [split|]); try discriminate.
  all: try (lazymatch goal with
            | |- forall _ _ _ _, from_parser _ (DontSkip _) _ = _ -> _ => fail
            | |- forall _ _ _ _, from_parser _ _ _ = _ -> _ => idtac
            end;
            intros node ctx u ctx' E; cbn [from_parser unwrap_dont_skip] in E;
            apply bind_OK in E as (? & ? & [_ ->]%lift_OK & E);
            destruct (is_token_node node); [by eapply Htoken | try discriminate]).
  all: try (lazymatch goal with
            | |- forall _ _ _ _, _emit_to_field_unparser (DontSkip _) _ _ = _ -> _ => fail
            | |- forall _ _ _ _, _emit_to_field_unparser _ _ _ = _ -> _ => idtac
            end;
            intros fu ctx fu' ctx' E; cbn [_emit_to_field_unparser unwrap_dont_skip] in E;
            try discriminate; try (by eapply Hdirect)).
  - (* DontSkip *) intros node ctx u ctx' E. apply from_parser_DontSkip in E.
    by apply (proj1 IH).
  - intros fu ctx fu' ctx' E. rewrite emit_to_field_DontSkip in E.
    destruct (isinstance q KDontSkip); [discriminate|]. by apply (proj1 IH).
  - (* List *)
    apply bind_OK in E as (s & c1 & E1 & [-> ->]%ret_OK).
    split; [by eapply token_unparser_from_parser_step | done].
  - (* Null *) apply ret_OK in E as [-> ->]. split; [reflexivity | done].
  - (* Opt *)
    destruct b as [b|]; [|by apply (proj1 IH)].
    destruct (init_well_shaped node) as [Hn Hs].
    case_bool_decide.
    + apply bind_OK in E as (seq & c1 & E1 & [-> ->]%ret_OK).
      split; [by eapply emit_tokens_cache_step | done].
    + apply ret_OK in E as [-> ->]. split; [reflexivity | done].
  - destruct b as [b|].
    + apply ret_OK in E as [-> ->]. split; reflexivity.
    + apply (proj1 IH) in E as [Hc Hf]. split; [done|]. etrans; [|exact Hf].
      repeat split; done.
  - (* Or *)
    apply bind_OK in E as ([] & c1 & E1 & [-> ->]%ret_OK). split.
    + eapply (forM__invariant _ cache_step); [|exact E1].
      intros x Hx c a c' Ex. rewrite Forall_forall in IH.
      destruct (isinstance x KDefer); [apply ret_OK in Ex as [_ ->]; reflexivity|].
      apply bind_OK in Ex as (u & c2 & Eu & [_ ->]%ret_OK).
      by apply (proj1 (IH x Hx)) in Eu as [Hc _].
    + repeat split; done.
  - (* _Extract *)
    apply bind_OK in E as ([[pre np] post] & c1 & Hs & E).
    destruct (emit_to_field_Extract sub i fu ctx pre np post c1 Hs)
      as ((ps & -> & Hnp) & _).
    rewrite (on_item_lookup _ _ _ _ Hnp) in E.
    destruct IH as [_ IH]. specialize (IH ps eq_refl). rewrite Forall_lookup in IH.
    apply (proj2 (IH _ _ Hnp)) in E as [Hc Hf].
    split; [etrans; [by eapply split_extract_step | done]|].
    etrans; [|exact Hf]. repeat split; cbn; [apply prefix_app_r | apply suffix_app_r]; done.
  - (* _Row *) intros ps' [= <-]. eapply Forall_impl; [exact IH|]. by intros x [Hx _].
  - (* _Transform *)
    destruct sub as [| | | | | | | | | |ps| |]; try discriminate.
    apply bind_OK in E as ([nf r] & c1 & E1 & [-> ->]%ret_OK).
    destruct IH as [_ IH]. specialize (IH ps eq_refl). rewrite Forall_forall in IH.
    destruct (init_well_shaped node) as [Hn Hs].
    enough (Hrow : row_step (0, RegularNodeUnparser.__init__ node, ctx) (nf, r, c1)).
    { destruct Hrow as [Hc Hr]. cbn in Hc, Hr. split; [done|]. split.
      - cbn. by destruct Hr as [-> _].
      - by eapply regular_step_well_shaped. }
    eapply (foldM_invariant _ row_step); [|exact E1].
    intros subp Hsubp [nf0 r0] c [nf1 r1] c' Estep. cbv beta iota in Estep.
    destruct (discard subp).
    + apply bind_OK in Estep as (r2 & c2 & Ed & [[= <- <-] ->]%ret_OK).
      by apply emit_discarded_step in Ed.
    + apply bind_OK in Estep as (fu & c2 & [Hg ->]%lift_OK & Estep).
      apply bind_OK in Estep as (fu' & c3 & Ef & [Heq ->]%ret_OK).
      injection Heq as -> ->.
      apply getitem_OK in Hg. apply (proj2 (IH subp Hsubp)) in Ef as [Hc Hf].
      split; [done|]. by eapply set_field_unparser_step.
Qed.

End DerivationInvariants2.

Section DerivationTheorems.

Context {ops : ParserOps}.

(** X7: The emission of the tokens of a parser into a token sequence only
    appends to the sequence, and writes nothing in the context but the
    cache of token unparsers, which it only extends. *)
Theorem emit_to_token_sequence_appends p seq ctx seq' ctx' :
  _emit_to_token_sequence p seq ctx = OK (seq', ctx') ->
  (exists new, TokenSequenceUnparser.tokens seq'
               = TokenSequenceUnparser.tokens seq ++ new)
  /\ ctx' = set_token_unparsers (token_unparsers ctx') ctx
  /\ token_unparsers ctx ⊆ token_unparsers ctx'.
Proof.
  intros E. destruct (emit_to_token_sequence_step p seq ctx seq' ctx' E)
    as [Hp (Hc & Hs & _)].
  done.
Qed.

(** X8: The derivation of a node unparser writes nothing in the context but
    the cache of token unparsers: the request flag, the recorded parsers
    and the occurrences are as before; the cache is only extended, and
    stays consistent with its keys. *)
Theorem from_parser_writes_cache_only node p ctx u ctx' :
  from_parser node p ctx = OK (u, ctx') ->
  ctx' = set_token_unparsers (token_unparsers ctx') ctx
  /\ token_unparsers ctx ⊆ token_unparsers ctx'
  /\ (cache_ok ctx -> cache_ok ctx').
Proof. intros E. by destruct (proj1 (derivation_steps p) node ctx u ctx' E) as [? _]. Qed.

(** X9: A derived node unparser is for the requested node type; when it is a
    regular one it has one field unparser per parse field of the node
    type, in the order of the fields and for that node type, and one token
    sequence between two consecutive fields. *)
Theorem from_parser_well_shaped node p ctx u ctx' :
  from_parser node p ctx = OK (u, ctx') ->
  node_of u = node
  /\ match u with
     | RegularNode r =>
         map FieldUnparser.field (RegularNodeUnparser.field_unparsers r)
         = get_parse_fields node
         /\ Forall (fun fu => FieldUnparser.node fu = node)
                   (RegularNodeUnparser.field_unparsers r)
         /\ length (RegularNodeUnparser.inter_tokens r)
            = length (get_parse_fields node) - 1
     | _ => True
     end.
Proof.
  intros E. destruct (proj1 (derivation_steps p) node ctx u ctx' E) as (_ & Hn & Hs).
  split; [done|]. destruct u as [r| | |]; try done. cbn in Hn, Hs. by rewrite Hn in Hs.
Qed.

(** X10: The derivation of a field unparser keeps the node and the field of
    the unparser it completes, keeps the tokens it had (the prefix tokens
    are extended at their end, the postfix tokens at their start), and
    never makes always-absent a field that may be present. *)
Theorem emit_to_field_unparser_accumulates p fu ctx fu' ctx' :
  _emit_to_field_unparser p fu ctx = OK (fu', ctx') ->
  FieldUnparser.node fu' = FieldUnparser.node fu
  /\ FieldUnparser.field fu' = FieldUnparser.field fu
  /\ (FieldUnparser.always_absent fu = false -> FieldUnparser.always_absent fu' = false)
  /\ (exists new, TokenSequenceUnparser.tokens (FieldUnparser.pre_tokens fu')
                  = TokenSequenceUnparser.tokens (FieldUnparser.pre_tokens fu) ++ new)
  /\ (exists new, TokenSequenceUnparser.tokens (FieldUnparser.post_tokens fu')
                  = new ++ TokenSequenceUnparser.tokens (FieldUnparser.post_tokens fu)).
Proof. intros E. by destruct (proj2 (derivation_steps p) fu ctx fu' ctx' E) as [_ ?]. Qed.

End DerivationTheorems.

Lemma emit_to_token_sequence_appends_witness :
  exists seq' ctx',
    _emit_to_token_sequence (ops := Ex.ops) (_Token Ex.LPar "")
      (Ex.sequence [Ex.Comma]) (Ex.empty_context true) = OK (seq', ctx')
    /\ exists new, TokenSequenceUnparser.tokens seq' = [Ex.unparser Ex.Comma] ++ new.
Proof.
  destruct (emit_token_spec (ops := Ex.ops) Ex.LPar "" (Ex.sequence [Ex.Comma])
              (Ex.empty_context true) (empty_context_cache_ok true) eq_refl)
    as (cache & E & _).
  eexists _, _. split; [exact E|].
  by destruct (emit_to_token_sequence_appends (ops := Ex.ops) _ _ _ _ _ E) as (H & _).
Defined.

Lemma parenthesized_derivation :
  exists u ctx',
    from_parser (ops := Ex.ops) Ex.Paren
      (_Transform (_Row [_Token Ex.LPar ""; Defer "expr"; _Token Ex.RPar ""]) Ex.Paren)
      (Ex.empty_context true) = OK (u, ctx').
Proof.
  destruct (from_parser_parenthesized_step (ops := Ex.ops) Ex.Paren
              (Build_Field "Paren.f_expr") (Ex.LPar, "") (Ex.RPar, "") (Defer "expr")
              Ex.Paren (Ex.empty_context true)) as (cache & E & _); try reflexivity.
  - unfold direct_field. cbn. apply list_elem_of_here.
  - apply empty_context_cache_ok.
  - eauto.
Qed.

Lemma from_parser_writes_cache_only_witness :
  exists u ctx',
    from_parser (ops := Ex.ops) Ex.Paren
      (_Transform (_Row [_Token Ex.LPar ""; Defer "expr"; _Token Ex.RPar ""]) Ex.Paren)
      (Ex.empty_context true) = OK (u, ctx')
    /\ ctx' = set_token_unparsers (token_unparsers ctx') (Ex.empty_context true).
Proof.
  destruct parenthesized_derivation as (u & ctx' & E). exists u, ctx'. split; [exact E|].
  by destruct (from_parser_writes_cache_only (ops := Ex.ops) _ _ _ _ _ E) as (H & _).
Defined.

Lemma from_parser_well_shaped_witness :
  exists u ctx',
    from_parser (ops := Ex.ops) Ex.Paren
      (_Transform (_Row [_Token Ex.LPar ""; Defer "expr"; _Token Ex.RPar ""]) Ex.Paren)
      (Ex.empty_context true) = OK (u, ctx')
    /\ node_of u = Ex.Paren.
Proof.
  destruct parenthesized_derivation as (u & ctx' & E). exists u, ctx'. split; [exact E|].
  by destruct (from_parser_well_shaped (ops := Ex.ops) _ _ _ _ _ E) as (H & _).
Defined.

Lemma emit_to_field_unparser_accumulates_witness :
  exists fu' ctx',
    _emit_to_field_unparser (ops := Ex.ops)
      (_Extract (_Row [_Token Ex.LPar ""; Defer "expr"; _Token Ex.RPar ""]) 1)
      (Ex.field_unparser true [Ex.Comma] [Ex.Semicolon]) (Ex.empty_context true)
    = OK (fu', ctx')
    /\ exists new, TokenSequenceUnparser.tokens (FieldUnparser.pre_tokens fu')
                   = [Ex.unparser Ex.Comma] ++ new.
Proof.
  destruct (split_extract_token_runs (ops := Ex.ops)
              [(Ex.LPar, "")] (Defer "expr") [(Ex.RPar, "")] (Ex.empty_context true))
    as (cache1 & E1 & Hc1);
    [apply empty_context_cache_ok | by repeat constructor | by repeat constructor |].
  destruct (emit_to_field_Extract (ops := Ex.ops) _ _
              (Ex.field_unparser true [Ex.Comma] [Ex.Semicolon]) _ _ _ _ _ E1) as (_ & E).
  eexists _, _. split; [exact E|].
  by destruct (emit_to_field_unparser_accumulates (ops := Ex.ops) _ _ _ _ _ E)
    as (_ & _ & _ & H & _).
Defined.

(** ** The walk of [compute] *)

Global Instance walk_step_preorder : PreOrder walk_step.
Proof.
  split.
  - intros c. by repeat split.
  - intros c1 c2 c3 (G1 & W1 & K1 & O1 & U1) (G2 & W2 & K2 & O2 & U2). repeat split.
    + congruence.
    + congruence.
    + auto.
    + intros Hg node. specialize (O1 Hg node). rewrite <- G1 in Hg.
      specialize (O2 Hg node). lia.
    + intros Hg. rewrite U2, U1; [done | done | congruence].
Qed.

Lemma occurrences_dict_append {V} k (x : V) table node :
  occurrences (dict_append k x table) node
  = occurrences table node + (if decide (k = node) then 1 else 0).
Proof.
  unfold occurrences, dict_append. rewrite lookup_insert. case_decide as Hk.
  - subst. cbn. rewrite length_app. cbn. lia.
  - lia.
Qed.

Section Walk.

Context {ops : ParserOps}.

Lemma append_step node p ctx ctx' :
  append node p ctx = OK (tt, ctx') ->
  walk_step ctx ctx'
  /\ nodes_to_rules ctx' = dict_append node p (nodes_to_rules ctx).
Proof.
  unfold append. intros (? & c1 & [= _ <-] & E)%bind_OK.
  apply bind_OK in E as (c & c2 & [= <- <-] & E). cbn [generate_unparser set_nodes_to_rules] in E.
  destruct (generate_unparser ctx) eqn:Hg.
  - apply bind_OK in E as (u & c2 & Eu & [= <-]).
    destruct (proj1 (derivation_steps p) _ _ _ _ Eu) as ((Ec & _ & Hk) & _).
    rewrite Ec. cbn. split; [|done]. repeat split; cbn; [| | congruence].
    + intros Hc k v Hkv. exact (Hk Hc k v Hkv).
    + intros _ n. rewrite !occurrences_dict_append. lia.
  - apply ret_OK in E as [_ ->]. cbn. split; [|done].
    repeat split; cbn; try done. congruence.
Qed.

Lemma append_all_step alts p ctx ctx' :
  forM_ (fun alt => append alt p) alts ctx = OK (tt, ctx') ->
  walk_step ctx ctx'
  /\ nodes_to_rules ctx'
     = record_all (map (fun alt => (alt, p)) alts) (nodes_to_rules ctx).
Proof.
  revert ctx. induction alts as [|alt alts IH]; intros ctx E.
  - apply ret_OK in E as [_ ->]. split; [reflexivity | done].
  - rewrite forM__cons in E. apply bind_OK in E as ([] & c1 & E1 & E2).
    apply append_step in E1 as [W1 N1]. apply IH in E2 as [W2 N2].
    split; [by etrans|]. rewrite N2, N1. reflexivity.
Qed.

Lemma compute_visit_step p toplevel ctx toplevel' ctx' :
  compute_visit p toplevel ctx = OK (toplevel', ctx') ->
  walk_step ctx ctx'
  /\ nodes_to_rules ctx' = record_all (recorded_here p) (nodes_to_rules ctx).
Proof.
  assert (Hret : forall b, ret b ctx = OK (toplevel', ctx') ->
            walk_step ctx ctx' /\ nodes_to_rules ctx' = record_all [] (nodes_to_rules ctx)).
  { intros b [_ ->]%ret_OK. split; [reflexivity | done]. }
  destruct p as [| | | | | sub [b|] e | | | | sub i | | |]; cbn [compute_visit recorded_here];
    try apply Hret.
  - intros ([] & c1 & E1 & [_ ->]%ret_OK)%bind_OK. by apply append_step in E1.
  - intros ([] & c1 & E1 & [_ ->]%ret_OK)%bind_OK. by apply append_all_step in E1.
  - destruct sub; try discriminate.
    intros (c & c1 & [= <- <-] & E)%bind_OK.
    apply bind_OK in E as (? & c2 & [_ ->]%lift_OK & [_ ->]%ret_OK).
    split; [reflexivity | done].
  - intros ([] & c1 & E1 & [_ ->]%ret_OK)%bind_OK. by apply append_step in E1.
Qed.

(** Whatever the request flag, a walk that returns has kept the flag, has
    recorded the parsers of the node types and, with generation enabled,
    has derived one occurrence for each of them. *)
Lemma compute_internal_step p :
  forall toplevel ctx ctx',
    compute_internal p toplevel ctx = OK (tt, ctx') ->
    walk_step ctx ctx'
    /\ nodes_to_rules ctx' = record_all (recorded p) (nodes_to_rules ctx).
Proof.
  assert (Hlist : forall cs,
             Forall (fun c => forall toplevel ctx ctx',
                         compute_internal c toplevel ctx = OK (tt, ctx') ->
                         walk_step ctx ctx'
                         /\ nodes_to_rules ctx'
                            = record_all (recorded c) (nodes_to_rules ctx)) cs ->
             forall toplevel ctx ctx',
               forM_ (fun c => compute_internal c toplevel) cs ctx = OK (tt, ctx') ->
               walk_step ctx ctx'
               /\ nodes_to_rules ctx'
                  = record_all (concat (map recorded cs)) (nodes_to_rules ctx)).
  { induction 1 as [|c cs Hc _ IH]; intros toplevel ctx ctx' E.
    - apply ret_OK in E as [_ ->]. split; [reflexivity | done].
    - rewrite forM__cons in E. apply bind_OK in E as ([] & c1 & E1 & E2).
      apply Hc in E1 as [W1 N1]. apply IH in E2 as [W2 N2].
      split; [by etrans|]. cbn [map concat]. by rewrite record_all_app, N2, N1. }
  induction p as [rule | q IH | elt sep typ IHe IHs | | typ | sub b e IH | ps IH | sub IH
                 | n | sub i IH | ps IH | v m | sub typ IH] using Parser_nested_ind;
    intros toplevel ctx ctx' E; cbn [compute_internal recorded] in E |- *;
    apply bind_OK in E as (tl & c1 & Ev & E);
    apply compute_visit_step in Ev as [Wv Nv];
    rewrite record_all_app, <- Nv.
  all: try (apply ret_OK in E as [_ ->]; by split).
  all: try (apply IH in E as [W N]; split; [by etrans | done]).
  all: try (apply (Hlist _ IH) in E as [W N]; split; [by etrans | done]).
  apply bind_OK in E as ([] & c2 & Ee & E). apply IHe in Ee as [We Ne].
  rewrite record_all_app, <- Ne. destruct sep as [s|].
  - apply IHs in E as [W N]. split; [|done]. etrans; [|exact W]. by etrans.
  - apply ret_OK in E as [_ ->]. split; [by etrans | done].
Qed.

End Walk.

Lemma abort_unparser_result message ctx :
  abort_unparser message ctx
  = OK (tt, set_generate_unparser false
              (set_warnings
                 (warnings ctx
                  ++ [(unparser_bad_grammar,
                       message +:+ " This prevents the generation of an automatic unparser."
                       +:+ (if generate_unparser ctx
                            then nl +:+ "For more information, enable the the unparser_eq trace."
                            else ""))])
                 ctx)).
Proof. reflexivity. Qed.

Section ComputeTheorems.

Context {ops : ParserOps}.

(** X11: [compute] never sets the request flag: when it returns, the flag is
    the one it found if the rule creates a node, and is cleared otherwise,
    with one warning about the grammar; no other warning is emitted. *)
Theorem compute_clears_flag_iff_no_node rule ctx ctx' :
  is_dont_skip_parser rule = false ->
  compute rule ctx = OK (tt, ctx') ->
  exists creates,
    creates_node rule = OK creates
    /\ generate_unparser ctx' = generate_unparser ctx && creates
    /\ if creates then warnings ctx' = warnings ctx
       else exists text, warnings ctx' = warnings ctx ++ [(unparser_bad_grammar, text)].
Proof.
  intros Hd E. unfold compute in E. rewrite Hd in E.
  apply bind_OK in E as ([] & c1 & Ew & E).
  apply compute_internal_step in Ew as [(G & W & _) _].
  apply bind_OK in E as (creates & c2 & [Hc ->]%lift_OK & E).
  exists creates. split; [done|]. destruct creates; cbn [negb] in E.
  - apply ret_OK in E as [_ ->]. by rewrite G, andb_true_r.
  - rewrite abort_unparser_result in E. injection E as <-. cbn.
    rewrite andb_false_r, W. eauto.
Qed.


(** X13: While generation is enabled, [compute] keeps the two tables of the
    registry parallel: it derives one occurrence for each parser that it
    records. *)
Theorem compute_keeps_tables_parallel rule ctx ctx' :
  generate_unparser ctx = true ->
  parallel ctx ->
  compute rule ctx = OK (tt, ctx') ->
  parallel ctx'.
Proof.
  intros Hg Hp E. unfold compute in E. destruct (is_dont_skip_parser rule).
  - by apply ret_OK in E as [_ ->].
  - apply bind_OK in E as ([] & c1 & Ew & E).
    apply compute_internal_step in Ew as [(_ & _ & _ & O & _) _].
    assert (Hp1 : parallel c1).
    { intros node. specialize (O Hg node). specialize (Hp node). lia. }
    apply bind_OK in E as (creates & c2 & [Hc ->]%lift_OK & E).
    destruct creates; cbn [negb] in E.
    + by apply ret_OK in E as [_ ->].
    + rewrite abort_unparser_result in E. by injection E as <-.
Qed.

End ComputeTheorems.

Lemma list_rule_computed :
  exists ctx',
    compute (ops := Ex.ops) (List (Defer "name") None Ex.NameList) (Ex.empty_context true)
    = OK (tt, ctx').
Proof. eexists. reflexivity. Qed.

Lemma compute_clears_flag_iff_no_node_witness :
  exists ctx',
    compute (ops := Ex.ops) (List (Defer "name") None Ex.NameList) (Ex.empty_context true)
    = OK (tt, ctx')
    /\ generate_unparser ctx' = true.
Proof.
  destruct list_rule_computed as [ctx' E]. exists ctx'. split; [exact E|].
  destruct (compute_clears_flag_iff_no_node (ops := Ex.ops) _ _ _ eq_refl E)
    as (creates & Hc & Hg & _).
  injection Hc as <-. exact Hg.
Defined.


Lemma compute_keeps_tables_parallel_witness :
  exists ctx',
    compute (ops := Ex.ops) (List (Defer "name") None Ex.NameList) (Ex.empty_context true)
    = OK (tt, ctx')
    /\ parallel ctx'.
Proof.
  destruct list_rule_computed as [ctx' E]. exists ctx'. split; [exact E|].
  apply (compute_keeps_tables_parallel (ops := Ex.ops) _ (Ex.empty_context true) _ eq_refl)
    in E; [exact E|].
  intros node. unfold occurrences. cbn. by rewrite !lookup_empty.
Defined.

(** ** The consistency check *)

Lemma warn_unused_result node_types ctx :
  forM_ (fun node_type =>
           ctx <- get ;;
           warn_if unused_node_type
             (bool_decide (nodes_to_rules ctx !! node_type = None)
              && negb (abstract node_type) && negb (synthetic node_type)
              && negb (is_list_type node_type && is_root_list_type node_type))
             (name node_type
              +:+ " has no parser, and is marked neither abstract nor synthetic"))
        node_types ctx
  = OK (tt, set_warnings
              (warnings ctx ++ map unused_warning (filter (fun nt => warns_unused ctx nt = true)
                                                          node_types))
              ctx).
Proof.
  revert ctx. induction node_types as [|nt nts IH]; intros ctx.
  - cbn. rewrite app_nil_r. by destruct ctx.
  - rewrite forM__cons.
    assert (Hstep : (ctx <- get ;;
                     warn_if unused_node_type
                       (bool_decide (nodes_to_rules ctx !! nt = None)
                        && negb (abstract nt) && negb (synthetic nt)
                        && negb (is_list_type nt && is_root_list_type nt))
                       (name nt
                        +:+ " has no parser, and is marked neither abstract nor synthetic"))
                      ctx
                    = OK (tt, if warns_unused ctx nt
                              then set_warnings (warnings ctx ++ [unused_warning nt]) ctx
                              else ctx)) by reflexivity.
    rewrite (bind_eq _ _ _ _ _ Hstep), IH.
    destruct (warns_unused ctx nt) eqn:Hw.
    + rewrite filter_cons_True by done. cbn [map]. do 2 f_equal.
      cbn. by rewrite <- app_assoc.
    + by rewrite filter_cons_False by congruence.
Qed.

Lemma find_canonical_parser_nonempty p ps :
  exists q, find_canonical_parser (p :: ps) = OK q.
Proof.
  unfold find_canonical_parser.
  destruct (filter (fun p => has_null p = false) (p :: ps)) as [|q l] eqn:Hf; [|eauto].
  destruct (has_null p) eqn:Hp.
  - rewrite filter_cons_True by done. eauto.
  - by rewrite filter_cons_True in Hf by done.
Qed.

Section CheckTheorems.

Context {ops : ParserOps}.

(** X14: [find_canonical_parser] fails on no parser only; on one parser or
    more it returns one of the parsers: the first one without an
    always-empty parser in it when there is one, the first parser when all
    have one. *)
Theorem find_canonical_parser_spec parsers :
  (parsers = [] <-> find_canonical_parser parsers = Raise IndexError)
  /\ (parsers <> [] -> exists p, find_canonical_parser parsers = OK p)
  /\ forall p, find_canonical_parser parsers = OK p ->
       (has_null p = false /\
        exists before after, parsers = before ++ p :: after
                             /\ Forall (fun q => has_null q = true) before)
       \/ (has_null p = true /\ head parsers = Some p
           /\ Forall (fun q => has_null q = true) parsers).
Proof.
  split; [|split]; [| |unfold find_canonical_parser].
  - unfold find_canonical_parser.
    split; [by intros ->|]. destruct parsers as [|p ps]; [done|].
    destruct (find_canonical_parser_nonempty p ps) as [q Hq].
    unfold find_canonical_parser in Hq. rewrite Hq. discriminate.
  - destruct parsers as [|p ps]; [done|]. intros _.
    apply find_canonical_parser_nonempty.
  - intros p. induction parsers as [|q ps IH]; [discriminate|].
    destruct (has_null q) eqn:Hq.
    + rewrite (filter_cons_False _ q) by congruence.
      rewrite (filter_cons_True (fun p => has_null p = true)) by done.
      destruct (filter (fun p => has_null p = false) ps) as [|r l] eqn:Hf.
      * intros [= <-]. right. split; [done|]. split; [done|]. constructor; [done|].
        apply Forall_forall. intros x Hx. destruct (has_null x) eqn:Hn; [done|].
        assert (x ∈ filter (fun p => has_null p = false) ps)
          by by apply list_elem_of_filter.
        rewrite Hf in *. by apply elem_of_nil in H.
      * intros [= <-]. destruct (IH eq_refl) as [(Hr & b & a & -> & Hb)|(Hr & Hh & Hall)].
        -- left. split; [done|]. exists (q :: b), a. split; [done|]. by constructor.
        -- exfalso. assert (r ∈ filter (fun p => has_null p = false) ps)
             by (rewrite Hf; apply list_elem_of_here).
           apply list_elem_of_filter in H as [H _]. congruence.
    + rewrite filter_cons_True by done. intros [= <-].
      left. split; [done|]. exists [], ps. split; [done | constructor].
Qed.

Lemma check_items_step items :
  forall ctx ctx',
    check_items items ctx = OK (tt, ctx') ->
    nodes_to_rules ctx' = nodes_to_rules ctx
    /\ unparsers ctx' = unparsers ctx
    /\ node_unparser ctx' = node_unparser ctx
    /\ (forall node, node ∉ map fst items -> node_parser ctx' !! node = node_parser ctx !! node)
    /\ ((Forall (fun item => unparser_struct_eq item.2 true = OK true) items
         /\ generate_unparser ctx' = generate_unparser ctx
         /\ warnings ctx' = warnings ctx
         /\ (NoDup (map fst items) ->
             forall node parsers, (node, parsers) ∈ items ->
               exists p, find_canonical_parser parsers = OK p
                         /\ node_parser ctx' !! node = Some p))
        \/ (Exists (fun item => unparser_struct_eq item.2 true = OK false) items
            /\ generate_unparser ctx' = false
            /\ exists text, warnings ctx' = warnings ctx ++ [(unparser_bad_grammar, text)])).
Proof.
  induction items as [|[node parsers] items IH]; intros ctx ctx' E.
  - apply ret_OK in E as [_ ->]. repeat split; try done. left.
    repeat split; try done. intros _ n ps Hin. by apply elem_of_nil in Hin.
  - cbn [check_items] in E. apply bind_OK in E as (eq & c1 & [Heq ->]%lift_OK & E).
    destruct eq; cbn [negb] in E.
    + apply bind_OK in E as (canonical & c1 & [Hcan ->]%lift_OK & E).
      apply bind_OK in E as ([] & c2 & [= <-] & E).
      apply IH in E as (N & U & NU & NP & H). cbn in N, U, NU, NP |- *.
      split; [done|]. split; [done|]. split; [done|]. split.
      { intros n Hn. apply not_elem_of_cons in Hn as [Hne Hn].
        rewrite (NP n Hn). by apply lookup_insert_ne. }
      destruct H as [(Hall & G & W & Hcanon)|(Hex & G & W)].
      * left. split; [by constructor|]. split; [done|]. split; [done|].
        intros Hnd n ps Hin. apply NoDup_cons in Hnd as [Hnew Hnd].
        apply elem_of_cons in Hin as [[= -> ->]|Hin].
        -- exists canonical. split; [done|]. rewrite (NP node Hnew). apply lookup_insert_eq.
        -- by apply Hcanon.
      * right. split; [by apply Exists_cons_tl | done].
    + rewrite abort_unparser_result in E. injection E as <-. cbn.
      repeat split; try done. right. split; [by apply Exists_cons_hd|]. split; [done|]. eauto.
Qed.

(** X15: [check_nodes_to_rules] emits one warning for every node type of the
    context, in their order, that has no recorded parser, is concrete and
    is not a root list type; it leaves the two tables of the registry as
    they are.  With generation enabled, it keeps the flag exactly when the
    parsers of every node type are structurally equal at the top level,
    and it then attaches to every node type with recorded parsers its
    canonical parser; otherwise it clears the flag with one more warning. *)
Theorem check_nodes_to_rules_spec ctx ctx' :
  check_nodes_to_rules ctx = OK (tt, ctx') ->
  let unused :=
    map unused_warning (filter (fun nt => warns_unused ctx nt = true) (astnode_types ctx)) in
  nodes_to_rules ctx' = nodes_to_rules ctx
  /\ unparsers ctx' = unparsers ctx
  /\ (generate_unparser ctx = false ->
      generate_unparser ctx' = false /\ warnings ctx' = warnings ctx ++ unused)
  /\ (generate_unparser ctx = true ->
      (generate_unparser ctx' = true
       /\ warnings ctx' = warnings ctx ++ unused
       /\ forall node parsers,
            nodes_to_rules ctx !! node = Some parsers ->
            unparser_struct_eq parsers true = OK true
            /\ exists p, find_canonical_parser parsers = OK p
                         /\ node_parser ctx' !! node = Some p)
      \/ (generate_unparser ctx' = false
          /\ (exists text,
                warnings ctx' = warnings ctx ++ unused ++ [(unparser_bad_grammar, text)])
          /\ exists node parsers,
               nodes_to_rules ctx !! node = Some parsers
               /\ unparser_struct_eq parsers true = OK false)).
Proof.
  intros E unused. unfold check_nodes_to_rules in E.
  apply bind_OK in E as (c & c0 & [= <- <-] & E).
  rewrite (bind_eq _ _ _ _ _ (warn_unused_result (astnode_types ctx) ctx)) in E.
  fold unused in E.
  apply bind_OK in E as (c & c0 & [= <- <-] & E).
  cbn [generate_unparser set_warnings nodes_to_rules] in E.
  destruct (generate_unparser ctx) eqn:Hg; cbn [negb] in E.
  - apply check_items_step in E as (N & U & _ & _ & H). cbn in N, U, H.
    split; [done|]. split; [done|]. split; [done|]. intros _.
    destruct H as [(Hall & G & W & Hcanon)|(Hex & G & (text & W))].
    + left. rewrite G, W. split; [done|]. split; [done|].
      intros node parsers Hlook. apply elem_of_map_to_list in Hlook.
      rewrite Forall_forall in Hall. split; [by apply (Hall (node, parsers))|].
      apply Hcanon; [apply NoDup_fst_map_to_list | done].
    + right. split; [done|]. split; [exists text; rewrite W; by rewrite app_assoc|].
      apply Exists_exists in Hex as ([node parsers] & Hin & Heq).
      exists node, parsers. split; [by apply elem_of_map_to_list | done].
  - apply ret_OK in E as [_ ->]. cbn. rewrite Hg. repeat split; done.
Qed.

End CheckTheorems.

Lemma check_nodes_to_rules_spec_witness :
  exists ctx',
    check_nodes_to_rules (ops := Ex.ops) (Ex.empty_context false) = OK (tt, ctx')
    /\ warnings ctx' = [unused_warning Ex.Paren; unused_warning Ex.Name].
Proof.
  destruct (check_nodes_to_rules_disabled (ops := Ex.ops) (Ex.empty_context false) eq_refl)
    as [ws E].
  eexists. split; [exact E|].
  destruct (check_nodes_to_rules_spec (ops := Ex.ops) _ _ E) as (_ & _ & H & _).
  destruct (H eq_refl) as [_ ->]. cbn [Ex.empty_context warnings astnode_types app].
  assert (Hw : forall nt, warns_unused (Ex.empty_context false) nt
                          = negb (abstract nt) && negb (synthetic nt)
                            && negb (is_list_type nt && is_root_list_type nt)).
  { intros nt. unfold warns_unused. cbn [Ex.empty_context nodes_to_rules].
    by rewrite lookup_empty. }
  rewrite !filter_cons, !Hw. reflexivity.
Defined.

Lemma find_canonical_parser_spec_witness :
  exists p,
    find_canonical_parser [Null Ex.Name; Opt (Defer "name") None false; Defer "name"] = OK p
    /\ has_null p = false.
Proof.
  eexists. split; [reflexivity|].
  destruct (proj2 (proj2 (find_canonical_parser_spec
                            [Null Ex.Name; Opt (Defer "name") None false; Defer "name"]))
              _ eq_refl) as [[H _]|[H _]]; [exact H | discriminate H].
Defined.

(** ** More on the structural equality of parsers *)

Lemma remove_dups_two {A} `{EqDecision A} (l : list A) x y :
  x ∈ l -> y ∈ l -> x <> y -> exists a b rest, remove_dups l = a :: b :: rest.
Proof.
  intros Hx%elem_of_remove_dups Hy%elem_of_remove_dups Hne.
  destruct (remove_dups l) as [|a [|b rest]]; [by apply elem_of_nil in Hx | | eauto].
  apply list_elem_of_singleton in Hx, Hy. congruence.
Qed.

Lemma allR_ext_no_exn {A} (f g : A -> result bool) l e :
  allR f l <> Raise e -> (forall x, x ∈ l -> f x <> Raise e -> g x = f x) ->
  allR g l = allR f l.
Proof.
  induction l as [|x l IH]; intros Hf Hg; [done|].
  rewrite !allR_cons in *.
  assert (Hx : f x <> Raise e).
  { intros Hx. rewrite Hx in Hf. by apply Hf. }
  rewrite (Hg x (list_elem_of_here _ _) Hx). destruct (f x) as [[]|e']; cbn [bindR] in *;
    [|done|done].
  apply IH; [done|]. intros y Hy. by apply Hg, list_elem_of_further.
Qed.

(** One step of [unparser_struct_eq], on the parsers that remain. *)
Lemma unparser_struct_eq_rec_remaining {ops : ParserOps} fuel ps ps' toplevel :
  remaining ps = remaining ps' ->
  unparser_struct_eq_rec (S fuel) ps toplevel = unparser_struct_eq_rec (S fuel) ps' toplevel.
Proof.
  intros H. cbn [unparser_struct_eq_rec]. unfold remaining in H. by rewrite H.
Qed.

Lemma unparser_struct_eq_rec_more_fuel {ops : ParserOps} fuel :
  forall ps toplevel fuel',
    unparser_struct_eq_rec fuel ps toplevel <> Raise RecursionError ->
    fuel <= fuel' ->
    unparser_struct_eq_rec fuel' ps toplevel = unparser_struct_eq_rec fuel ps toplevel.
Proof.
  induction fuel as [|fuel IH]; intros ps toplevel fuel' Hok Hle; [by destruct Hok|].
  destruct fuel' as [|fuel']; [lia|]. apply Nat.succ_le_mono in Hle.
  cbn [unparser_struct_eq_rec] in *.
  destruct (length _ =? 1); [done|].
  destruct (remove_dups _) as [|typ [|]]; try done.
  repeat case_bool_decide; try done.
  - destruct (is_same _); [|done].
    match type of Hok with
    | context [allR ?f ?l] =>
        assert (Hall : allR f l <> Raise RecursionError)
          by (intros Hr; rewrite Hr in Hok; by apply Hok);
        rewrite (allR_ext_no_exn f _ l RecursionError Hall); [done|]
    end.
    intros column _ Hc. by apply IH.
  - match type of Hok with
    | context [unparser_struct_eq_rec fuel ?l true] =>
        assert (Hrows : unparser_struct_eq_rec fuel l true <> Raise RecursionError)
          by (intros Hr; rewrite Hr in Hok; by apply Hok);
        by rewrite (IH l true fuel' Hrows Hle)
    end.
Qed.

(** X16: The structural equality only depends on the parsers that remain once
    the always-empty parsers are discarded and the [DontSkip] wrappers
    stripped: always-empty occurrences play no part, and a [DontSkip]
    wrapper is transparent. *)
Theorem unparser_struct_eq_remaining {ops : ParserOps} ps ps' toplevel :
  remaining ps = remaining ps' ->
  unparser_struct_eq ps toplevel = unparser_struct_eq ps' toplevel.
Proof.
  intros H. unfold unparser_struct_eq.
  set (f := list_max (map depth ps)). set (f' := list_max (map depth ps')).
  pose proof (unparser_struct_eq_rec_fuel (S f) ps toplevel ltac:(subst f; lia)) as Hok.
  pose proof (unparser_struct_eq_rec_fuel (S f') ps' toplevel ltac:(subst f'; lia)) as Hok'.
  rewrite (unparser_struct_eq_rec_remaining f ps ps' toplevel H) in *.
  destruct (Nat.le_ge_cases f f') as [Hle|Hle].
  - symmetry. apply unparser_struct_eq_rec_more_fuel; [done | lia].
  - apply unparser_struct_eq_rec_more_fuel; [done | lia].
Qed.

Lemma unparser_struct_eq_remaining_witness :
  unparser_struct_eq (ops := Ex.ops)
    [Null Ex.Name; DontSkip (_Token Ex.Comma ""); Null Ex.Name; _Token Ex.Semicolon ""] true
  = unparser_struct_eq (ops := Ex.ops) [_Token Ex.Comma ""; _Token Ex.Semicolon ""] true.
Proof. apply (unparser_struct_eq_remaining (ops := Ex.ops)). reflexivity. Defined.

(** X17: When two of the remaining parsers are of different kinds, the
    structural equality is false at the top level; below the top level it
    is decided by [creates_node] alone, on the remaining parsers with the
    deferred references resolved. *)
Theorem unparser_struct_eq_mixed_kinds {ops : ParserOps} ps p1 p2 :
  p1 ∈ remaining ps -> p2 ∈ remaining ps -> type_of p1 <> type_of p2 ->
  unparser_struct_eq ps true = OK false
  /\ unparser_struct_eq ps false
     = allR creates_node
         (map (fun p => if isinstance p KDefer then resolve p else p) (remaining ps)).
Proof.
  intros H1 H2 Hne. unfold unparser_struct_eq. cbn [unparser_struct_eq_rec].
  fold (remaining ps).
  assert (Hlen : (length (remaining ps) =? 1) = false).
  { apply Nat.eqb_neq. intros Hlen.
    destruct (remaining ps) as [|x [|]]; try discriminate.
    apply list_elem_of_singleton in H1, H2. congruence. }
  rewrite Hlen.
  destruct (remove_dups_two (map type_of (remaining ps)) (type_of p1) (type_of p2))
    as (a & b & rest & ->); [by apply list_elem_of_fmap_2 .. | done |].
  done.
Qed.

Lemma unparser_struct_eq_mixed_kinds_witness :
  unparser_struct_eq (ops := Ex.ops)
    [_Transform (_Row []) Ex.Name; List (Defer "name") None Ex.NameList] true = OK false.
Proof.
  apply (unparser_struct_eq_mixed_kinds (ops := Ex.ops) _
           (_Transform (_Row []) Ex.Name) (List (Defer "name") None Ex.NameList)).
  - apply list_elem_of_here.
  - apply list_elem_of_further, list_elem_of_here.
  - discriminate.
Defined.

(** X18: Two or more remaining parsers that are all predicates, all
    error-recovery insertions, all no-backtrack markers, all [DontSkip]
    wrappers or all always-empty parsers are not compared: the
    structural equality raises [NotImplementedError]. *)
Theorem unparser_struct_eq_unhandled_kind {ops : ParserOps} ps k toplevel :
  k ∈ [KDontSkip; KNoBacktrack; KNull; KPredicate; KSkip] ->
  2 <= length (remaining ps) ->
  Forall (fun p => type_of p = k) (remaining ps) ->
  unparser_struct_eq ps toplevel = Raise (NotImplementedError "Parser type not handled").
Proof.
  intros Hk Hlen Hall. unfold unparser_struct_eq. cbn [unparser_struct_eq_rec].
  fold (remaining ps).
  destruct (Nat.eqb_spec (length (remaining ps)) 1) as [?|_]; [lia|].
  rewrite (remove_dups_constant k).
  - rewrite !elem_of_cons, elem_of_nil in Hk.
    destruct Hk as [->|[->|[->|[->|[->|[]]]]]]; reflexivity.
  - destruct (remaining ps); [cbn in Hlen; lia | done].
  - by apply Forall_fmap.
Qed.

Lemma unparser_struct_eq_unhandled_kind_witness :
  unparser_struct_eq (ops := Ex.ops) [Skip Ex.Name; Skip Ex.Name] false
  = Raise (NotImplementedError "Parser type not handled").
Proof.
  apply (unparser_struct_eq_unhandled_kind (ops := Ex.ops) _ KSkip).
  - rewrite !elem_of_cons. tauto.
  - vm_compute. lia.
  - vm_compute. by repeat constructor.
Defined.

(** X19: Sequences, transforms, lists and optional parsers with different
    numbers of children, the no-backtrack markers apart, are not
    structurally equal: a list with a separator is never equal to a list
    without, when neither its element nor its separator is a no-backtrack
    marker. *)
Theorem unparser_struct_eq_child_counts {ops : ParserOps} ps k p1 p2 toplevel :
  k ∈ [KRow; KTransform; KList; KOpt] ->
  Forall (fun p => type_of p = k) (remaining ps) ->
  p1 ∈ remaining ps -> p2 ∈ remaining ps ->
  length (compared_children p1) <> length (compared_children p2) ->
  unparser_struct_eq ps toplevel = OK false.
Proof.
  intros Hk Hall H1 H2 Hne. unfold unparser_struct_eq. cbn [unparser_struct_eq_rec].
  fold (remaining ps).
  assert (Hlen : (length (remaining ps) =? 1) = false).
  { apply Nat.eqb_neq. intros Hlen.
    destruct (remaining ps) as [|x [|]]; try discriminate.
    apply list_elem_of_singleton in H1, H2. congruence. }
  rewrite Hlen, (remove_dups_constant k).
  - cbn [bindR]. rewrite bool_decide_eq_true_2 by done.
    assert (Hs : is_same (map length (map compared_children (remaining ps))) = false).
    { apply (is_same_false _ (length (compared_children p1))
               (length (compared_children p2))); [ | | done];
        apply list_elem_of_fmap_2; by apply list_elem_of_fmap_2. }
    unfold compared_children in Hs. by rewrite Hs.
  - destruct (remaining ps); [by apply elem_of_nil in H1 | done].
  - by apply Forall_fmap.
Qed.

Lemma unparser_struct_eq_child_counts_witness :
  unparser_struct_eq (ops := Ex.ops)
    [List (Defer "name") (Some (_Token Ex.Comma "")) Ex.NameList;
     List (Defer "name") None Ex.NameList] true = OK false.
Proof.
  apply (unparser_struct_eq_child_counts (ops := Ex.ops) _ KList
           (List (Defer "name") (Some (_Token Ex.Comma "")) Ex.NameList)
           (List (Defer "name") None Ex.NameList)).
  - rewrite !elem_of_cons. tauto.
  - vm_compute. by repeat constructor.
  - apply list_elem_of_here.
  - apply list_elem_of_further, list_elem_of_here.
  - vm_compute. lia.
Defined.

(** X20: Extractions at different indexes are never structurally equal,
    whatever their rows are: the comparison gives false, or fails in the
    comparison of the rows. *)
Theorem unparser_struct_eq_extract_index {ops : ParserOps} ps p1 p2 toplevel :
  Forall (fun p => type_of p = KExtract) (remaining ps) ->
  p1 ∈ remaining ps -> p2 ∈ remaining ps ->
  extract_index p1 <> extract_index p2 ->
  unparser_struct_eq ps toplevel = OK false
  \/ exists e, unparser_struct_eq ps toplevel = Raise e.
Proof.
  intros Hall H1 H2 Hne.
  assert (Hno : unparser_struct_eq ps toplevel <> OK true).
  { unfold unparser_struct_eq. cbn [unparser_struct_eq_rec].
    fold (remaining ps).
    assert (Hlen : (length (remaining ps) =? 1) = false).
    { apply Nat.eqb_neq. intros Hlen.
      destruct (remaining ps) as [|x [|]]; try discriminate.
      apply list_elem_of_singleton in H1, H2. congruence. }
    rewrite Hlen, (remove_dups_constant KExtract).
    - cbn [bindR]. rewrite bool_decide_eq_false_2.
      2:{ rewrite !elem_of_cons, elem_of_nil. intros [?|[?|[?|[?|[]]]]]; discriminate. }
      rewrite bool_decide_eq_false_2 by discriminate.
      rewrite bool_decide_eq_true_2 by done.
      destruct (unparser_struct_eq_rec _ _ true) as [[]|]; cbn [bindR]; try discriminate.
      rewrite (is_same_false _ (extract_index p1) (extract_index p2));
        [discriminate | by apply list_elem_of_fmap_2 .. | done].
    - destruct (remaining ps); [by apply elem_of_nil in H1 | done].
    - by apply Forall_fmap. }
  destruct (unparser_struct_eq ps toplevel) as [[]|e]; [done | by left | right; by exists e].
Qed.

Lemma unparser_struct_eq_extract_index_witness :
  unparser_struct_eq (ops := Ex.ops)
    [_Extract (_Row [_Token Ex.LPar ""; Defer "name"]) 0;
     _Extract (_Row [_Token Ex.LPar ""; Defer "name"]) 1] false = OK false
  \/ exists e,
       unparser_struct_eq (ops := Ex.ops)
         [_Extract (_Row [_Token Ex.LPar ""; Defer "name"]) 0;
          _Extract (_Row [_Token Ex.LPar ""; Defer "name"]) 1] false = Raise e.
Proof.
  apply (unparser_struct_eq_extract_index (ops := Ex.ops) _
           (_Extract (_Row [_Token Ex.LPar ""; Defer "name"]) 0)
           (_Extract (_Row [_Token Ex.LPar ""; Defer "name"]) 1)).
  - vm_compute. by repeat constructor.
  - apply list_elem_of_here.
  - apply list_elem_of_further, list_elem_of_here.
  - discriminate.
Defined.


(** ** Combination of node unparsers, and the finalization pass *)

Lemma assert_OK b : assert b = OK tt -> b = true.
Proof. by destruct b. Qed.

Lemma field_combine_frame x y r :
  FieldUnparser.combine x y = OK r ->
  FieldUnparser.field r = FieldUnparser.field x
  /\ FieldUnparser.node r = FieldUnparser.node x.
Proof.
  unfold FieldUnparser.combine, FieldUnparser._combine.
  intros H. apply bindR_OK in H as ([] & Hn%assert_OK%bool_decide_eq_true & H).
  apply bindR_OK in H as ([] & Hf%assert_OK%bool_decide_eq_true & H).
  destruct (FieldUnparser.always_absent x); [by injection H as <-|].
  destruct (FieldUnparser.always_absent y); [by injection H as <-|].
  apply bindR_OK in H as ([] & _ & H). apply bindR_OK in H as ([] & _ & H).
  by injection H as <-.
Qed.

Lemma field_combine_self x : wf_field x -> FieldUnparser.combine x x = OK x.
Proof.
  intros [H1 H2]. unfold FieldUnparser.combine, FieldUnparser._combine.
  rewrite !bool_decide_eq_true_2 by done. cbn [assert bindR].
  destruct (FieldUnparser.always_absent x); [done|].
  destruct (check_equivalence_spec (FieldUnparser.pre_tokens x)
              ("prefix tokens for " +:+ qualname (FieldUnparser.field x))
              (FieldUnparser.pre_tokens x) H1 H1) as [[_ ->]|[Hp _]];
    [|destruct Hp; by apply pairwise_equivalent_refl].
  destruct (check_equivalence_spec (FieldUnparser.post_tokens x)
              ("postfix tokens for " +:+ qualname (FieldUnparser.field x))
              (FieldUnparser.post_tokens x) H2 H2) as [[_ ->]|[Hp _]];
    [|destruct Hp; by apply pairwise_equivalent_refl].
  reflexivity.
Qed.

Lemma combine_fields_frame l1 : forall l2 l,
  mapR (fun '(self_fu, other_fu) => FieldUnparser.combine self_fu other_fu) (zip l1 l2)
  = OK l ->
  length l1 = length l2 ->
  map FieldUnparser.field l = map FieldUnparser.field l1
  /\ map FieldUnparser.node l = map FieldUnparser.node l1.
Proof.
  induction l1 as [|x l1 IH]; intros [|y l2] l H Hlen; try discriminate.
  - by injection H as <-.
  - cbn [zip zip_with] in H. rewrite mapR_cons in H.
    apply bindR_OK in H as (r & Hr & H). apply bindR_OK in H as (rs & Hrs & H).
    injection H as <-. injection Hlen as Hlen.
    destruct (field_combine_frame _ _ _ Hr) as [F1 F2].
    destruct (IH _ _ Hrs Hlen) as [E1 E2]. cbn [map]. by rewrite F1, F2, E1, E2.
Qed.

Lemma combine_fields_self l :
  Forall wf_field l ->
  mapR (fun '(self_fu, other_fu) => FieldUnparser.combine self_fu other_fu) (zip l l)
  = OK l.
Proof.
  induction 1 as [|x l Hx _ IH]; [done|].
  cbn [zip zip_with]. rewrite mapR_cons, (field_combine_self _ Hx). cbn [bindR].
  fold (zip l l). by rewrite IH.
Qed.

Lemma check_inter_self (fus : list FieldUnparser.t) l : forall i,
  Forall wf_sequence l -> i + length l <= length fus ->
  for_enumerate
    (fun i '(self_inter, other_inter) =>
       fu <~ getitem fus i ;;
       TokenSequenceUnparser.check_equivalence self_inter
         ("tokens after " +:+ qualname (FieldUnparser.field fu)) other_inter)
    i (zip l l) = OK tt.
Proof.
  induction l as [|s l IH]; intros i Hwf Hlen; [done|].
  inversion Hwf as [|? ? Hs Hl]; subst. cbn [length] in Hlen.
  cbn [zip zip_with for_enumerate].
  destruct (lookup_lt_is_Some_2 fus i ltac:(lia)) as [fu Hfu].
  apply getitem_OK in Hfu. rewrite Hfu. cbn [bindR].
  destruct (check_equivalence_spec s
              ("tokens after " +:+ qualname (FieldUnparser.field fu)) s Hs Hs)
    as [[_ ->]|[Hp _]]; [|destruct Hp; by apply pairwise_equivalent_refl].
  cbn [bindR]. apply IH; [done | lia].
Qed.

Lemma combine_frame self other r :
  combine self other = OK r ->
  keeps_frame self r /\ node_of other = node_of self /\ same_class other r = true.
Proof.
  unfold combine. intros H. apply bindR_OK in H as ([] & Hc%assert_OK & H).
  destruct self as [a|a|a|a], other as [b|b|b|b]; try discriminate.
  - apply bindR_OK in H as (r' & H & [= <-]).
    unfold RegularNodeUnparser._combine in H.
    apply bindR_OK in H as ([] & Hn%assert_OK%bool_decide_eq_true & H).
    apply bindR_OK in H as ([] & Hlen%assert_OK%Nat.eqb_eq & H).
    apply bindR_OK in H as ([] & _ & H). apply bindR_OK in H as ([] & _ & H).
    apply bindR_OK in H as ([] & _ & H). apply bindR_OK in H as (fus & Hfus & H).
    injection H as <-. destruct (combine_fields_frame _ _ _ Hfus Hlen) as [E1 E2].
    cbn. by rewrite E1, E2.
  - apply bindR_OK in H as (r' & H & [= <-]).
    unfold ListNodeUnparser._combine in H.
    apply bindR_OK in H as ([] & Hn%assert_OK%bool_decide_eq_true & H).
    apply bindR_OK in H as (d1 & _ & H). apply bindR_OK in H as (d2 & _ & H).
    apply bindR_OK in H as (eqv & _ & H). apply bindR_OK in H as ([] & _ & H).
    injection H as <-. done.
  - apply bindR_OK in H as (r' & H & [= <-]).
    unfold TokenNodeUnparser._combine in H.
    apply bindR_OK in H as ([] & Hn%assert_OK%bool_decide_eq_true & H).
    injection H as <-. done.
Qed.

Lemma keeps_frame_refl u : is_NullNodeUnparser u = false -> keeps_frame u u.
Proof. by destruct u. Qed.

Lemma keeps_frame_trans u1 u2 u3 : keeps_frame u1 u2 -> keeps_frame u2 u3 -> keeps_frame u1 u3.
Proof.
  destruct u1, u2, u3; cbn; try done; try congruence.
  intros (-> & -> & -> & -> & -> & ->) (-> & -> & -> & -> & -> & ->). done.
Qed.

Lemma keeps_frame_class u u' :
  keeps_frame u u' ->
  same_class u u' = true /\ node_of u' = node_of u /\ is_NullNodeUnparser u' = false.
Proof. destruct u, u'; cbn; try done; [tauto | by intros -> ..]. Qed.

(** X22: The unparser that results from combining two unparsers has the class
    and the node type of both, so that the check of the classes that
    follows a combination never fails; of a regular unparser it has the
    tokens outside the fields of the first operand, the postfix tokens of
    the second playing no part, and the same fields in the same order; a
    list or token unparser is the first operand itself. *)
Theorem combine_keeps_first self other r :
  combine self other = OK r ->
  keeps_frame self r
  /\ node_of other = node_of self
  /\ same_class other r = true
  /\ (forall post, match other with
                   | RegularNode o =>
                       combine self
                         (RegularNode
                            {| RegularNodeUnparser.node := RegularNodeUnparser.node o;
                               RegularNodeUnparser.pre_tokens :=
                                 RegularNodeUnparser.pre_tokens o;
                               RegularNodeUnparser.field_unparsers :=
                                 RegularNodeUnparser.field_unparsers o;
                               RegularNodeUnparser.inter_tokens :=
                                 RegularNodeUnparser.inter_tokens o;
                               RegularNodeUnparser.post_tokens := post |}) = OK r
                   | _ => True
                   end).
Proof.
  intros H. destruct (combine_frame _ _ _ H) as (H1 & H2 & H3).
  repeat split; try done. intros post. destruct other as [o| | |]; [|done..].
  by destruct self.
Qed.

(** X23: Combining an unparser whose tokens can be rendered with itself
    succeeds and gives it back. *)
Theorem combine_idempotent u : wf_unparser u -> combine u u = OK u.
Proof.
  destruct u as [r|l|t|n]; cbn [wf_unparser]; [| | |done].
  - intros (Hpre & Hfus & Hinter & Hlen). unfold combine. cbn [same_class assert bindR].
    unfold RegularNodeUnparser._combine.
    rewrite bool_decide_eq_true_2, !Nat.eqb_refl by done. cbn [assert bindR].
    destruct (check_equivalence_spec (RegularNodeUnparser.pre_tokens r)
                ("prefix tokens for " +:+ dsl_name (RegularNodeUnparser.node r))
                (RegularNodeUnparser.pre_tokens r) Hpre Hpre) as [[_ ->]|[Hp _]];
      [|destruct Hp; by apply pairwise_equivalent_refl].
    cbn [bindR]. rewrite (check_inter_self _ _ 0 Hinter) by (cbn; lia).
    cbn [bindR]. rewrite (combine_fields_self _ Hfus). cbn [bindR]. by destruct r.
  - intros Hsep. unfold combine. cbn [same_class assert bindR].
    by rewrite (ListNodeUnparser_combine_no_diagnostic l l eq_refl Hsep Hsep).
  - intros _. unfold combine. cbn [same_class assert bindR].
    unfold TokenNodeUnparser._combine. by rewrite bool_decide_eq_true_2.
Qed.

Lemma combine_keeps_first_witness :
  same_class
    (RegularNode (paren_unparser [Ex.LPar] [Ex.Semicolon] (Ex.field_unparser true [] [])))
    (RegularNode (paren_unparser [Ex.LPar] [Ex.RPar]
                    (Ex.field_unparser false [Ex.LPar] [Ex.RPar]))) = true.
Proof.
  apply (combine_keeps_first
           (RegularNode (paren_unparser [Ex.LPar] [Ex.RPar]
                           (Ex.field_unparser false [Ex.LPar] [Ex.RPar])))
           (RegularNode (paren_unparser [Ex.LPar] [Ex.Semicolon]
                           (Ex.field_unparser true [] [])))
           (RegularNode (paren_unparser [Ex.LPar] [Ex.RPar]
                           (Ex.field_unparser false [Ex.LPar] [Ex.RPar])))).
  vm_compute. reflexivity.
Defined.

Lemma combine_idempotent_witness :
  combine (RegularNode (paren_unparser [Ex.LPar] [Ex.RPar]
                          (Ex.field_unparser false [Ex.LPar] [Ex.RPar])))
          (RegularNode (paren_unparser [Ex.LPar] [Ex.RPar]
                          (Ex.field_unparser false [Ex.LPar] [Ex.RPar])))
  = OK (RegularNode (paren_unparser [Ex.LPar] [Ex.RPar]
                       (Ex.field_unparser false [Ex.LPar] [Ex.RPar]))).
Proof.
  apply (combine_idempotent
           (RegularNode (paren_unparser [Ex.LPar] [Ex.RPar]
                           (Ex.field_unparser false [Ex.LPar] [Ex.RPar])))).
  cbn. repeat split; repeat constructor; cbn; lia.
Defined.

(** ** Collection of the token sequences, and the finalization pass *)

Lemma set_token_sequence_unparsers_same ctx :
  set_token_sequence_unparsers (token_sequence_unparsers ctx) ctx = ctx.
Proof. by destruct ctx. Qed.

Section FinalizationTheorems.

Context {ops : ParserOps}.

Lemma collect_fields zs : forall ctx,
  forM_ (fun '(field_unparser, inter_tokens) =>
           FieldUnparser_collect field_unparser ;;
           tok_seq_list_append inter_tokens) zs ctx
  = OK (tt, set_token_sequence_unparsers
              (token_sequence_unparsers ctx
                 ++ flat_map (fun '(fu, inter) =>
                                [FieldUnparser.pre_tokens fu;
                                 FieldUnparser.post_tokens fu; inter]) zs) ctx).
Proof.
  induction zs as [|[fu inter] zs IH]; intros ctx.
  - cbn [flat_map]. by rewrite app_nil_r, set_token_sequence_unparsers_same.
  - rewrite forM__cons. unfold bind at 1.
    unfold bind at 1, FieldUnparser_collect at 1, tok_seq_list_append at 1, modify.
    rewrite IH. cbn [flat_map token_sequence_unparsers set_token_sequence_unparsers].
    do 2 f_equal. unfold set_token_sequence_unparsers. cbn.
    f_equal. by rewrite <- !app_assoc.
Qed.

Lemma collect_eq u ctx :
  collect u ctx
  = if is_NullNodeUnparser u then Raise (NotImplementedError "collect")
    else OK (tt, set_token_sequence_unparsers
                   (token_sequence_unparsers ctx ++ sequences_of u) ctx).
Proof.
  destruct u as [r| | |]; cbn [collect is_NullNodeUnparser sequences_of];
    [| by rewrite app_nil_r, set_token_sequence_unparsers_same .. | done].
  unfold bind at 1, tok_seq_list_append at 1, modify.
  unfold bind at 1. rewrite collect_fields.
  unfold tok_seq_list_append, modify.
  cbn [token_sequence_unparsers set_token_sequence_unparsers].
  do 2 f_equal. unfold set_token_sequence_unparsers. cbn.
  f_equal. by rewrite <- !app_assoc.
Qed.

End FinalizationTheorems.

Lemma length_field_sequences (zs : list (FieldUnparser.t * TokenSequenceUnparser.t)) :
  length (flat_map (fun '(fu, inter) =>
                      [FieldUnparser.pre_tokens fu; FieldUnparser.post_tokens fu; inter]) zs)
  = 3 * length zs.
Proof. induction zs as [|[fu inter] zs IH]; cbn [flat_map length app]; lia. Qed.

(** X24: Collecting the token sequences of an unparser only appends to the
    list of token sequences: nothing for a list or token unparser, and for
    a regular unparser of the shape of its node type, with [n] fields,
    [3 * n + 2] sequences; the null unparser cannot be collected. *)
Theorem collect_appends u ctx :
  collect u ctx
  = (if is_NullNodeUnparser u then Raise (NotImplementedError "collect")
     else OK (tt, set_token_sequence_unparsers
                    (token_sequence_unparsers ctx ++ sequences_of u) ctx))
  /\ (forall r, u = RegularNode r -> well_shaped u ->
        length (sequences_of u)
        = 3 * length (get_parse_fields (RegularNodeUnparser.node r)) + 2)
  /\ ((forall r, u <> RegularNode r) -> sequences_of u = []).
Proof.
  split; [apply collect_eq|]. split.
  - intros r -> (Hf & _ & Hi). cbn [sequences_of length]. rewrite length_app.
    rewrite length_field_sequences. unfold RegularNodeUnparser.zip_fields.
    rewrite length_zip. cbn [length]. rewrite Hi, <- Hf, length_map. lia.
  - intros Hr. destruct u; [by destruct (Hr u) | done..].
Qed.

Lemma collect_appends_witness :
  length (sequences_of
            (RegularNode (paren_unparser [Ex.LPar] [Ex.RPar]
                            (Ex.field_unparser false [Ex.LPar] [Ex.RPar]))))
  = 3 * length (get_parse_fields Ex.Paren) + 2.
Proof.
  apply (proj1 (proj2 (collect_appends
           (RegularNode (paren_unparser [Ex.LPar] [Ex.RPar]
                           (Ex.field_unparser false [Ex.LPar] [Ex.RPar])))
           (Ex.empty_context true)))
           (paren_unparser [Ex.LPar] [Ex.RPar]
              (Ex.field_unparser false [Ex.LPar] [Ex.RPar])) eq_refl).
  cbn. repeat split. by repeat constructor.
Defined.

Lemma fold_combine_frame rest : forall c ctx c' ctx',
  is_NullNodeUnparser c = false ->
  foldM (fun combined unparser =>
           combined <- lift (combine combined unparser) ;;
           lift (assert (same_class unparser combined)) ;;
           ret combined) rest c ctx = OK (c', ctx') ->
  ctx' = ctx /\ keeps_frame c c'.
Proof.
  induction rest as [|u rest IH]; intros c ctx c' ctx' Hc E.
  - apply ret_OK in E as [-> ->]. split; [done | by apply keeps_frame_refl].
  - rewrite foldM_cons in E. apply bind_OK in E as (c1 & ctx1 & E1 & E).
    apply bind_OK in E1 as (c2 & ctx2 & [E1 ->]%lift_OK & E2).
    apply bind_OK in E2 as ([] & ctx3 & [_ ->]%lift_OK & [-> ->]%ret_OK).
    destruct (combine_frame _ _ _ E1) as (Hk & _ & _).
    destruct (keeps_frame_class _ _ Hk) as (_ & _ & Hn).
    destruct (IH _ _ _ _ Hn E) as [-> Hk']. split; [done|].
    by eapply keeps_frame_trans.
Qed.

Lemma finalize_node_eq node ctx :
  finalize_node node ctx
  = match recorded_unparsers ctx node with
    | [] => OK (tt, ctx)
    | _ :: _ =>
        match filter (fun u => is_NullNodeUnparser u = false)
                     (recorded_unparsers ctx node) with
        | [] => Raise AssertionError
        | combined :: unparsers =>
            (combined <- foldM (fun combined unparser =>
                                  combined <- lift (combine combined unparser) ;;
                                  lift (assert (same_class unparser combined)) ;;
                                  ret combined)
                               unparsers combined ;;
             modify (fun ctx => set_node_unparser
                                  (<[node := combined]> (node_unparser ctx)) ctx) ;;
             collect combined) ctx
        end
    end.
Proof.
  unfold finalize_node, recorded_unparsers, bind at 1, get.
  destruct (default [] (unparsers ctx !! node)); [done|].
  by destruct (filter _ _).
Qed.

Lemma finalize_node_result node ctx :
  (recorded_unparsers ctx node = [] /\ finalize_node node ctx = OK (tt, ctx))
  \/ (recorded_unparsers ctx node <> []
      /\ filter (fun u => is_NullNodeUnparser u = false) (recorded_unparsers ctx node) = []
      /\ finalize_node node ctx = Raise AssertionError)
  \/ (exists first rest,
        filter (fun u => is_NullNodeUnparser u = false) (recorded_unparsers ctx node)
        = first :: rest
        /\ forall ctx', finalize_node node ctx = OK (tt, ctx') ->
             exists combined,
               keeps_frame first combined
               /\ ctx' = set_token_sequence_unparsers
                           (token_sequence_unparsers ctx ++ sequences_of combined)
                           (set_node_unparser (<[node := combined]> (node_unparser ctx))
                              ctx)).
Proof.
  pose proof (finalize_node_eq node ctx) as Eq.
  destruct (recorded_unparsers ctx node) as [|u0 us] eqn:Hus; [by left|].
  right. destruct (filter _ (u0 :: us)) as [|first rest] eqn:Hf.
  - left. done.
  - right. exists first, rest. split; [done|]. intros ctx' E. rewrite Eq in E.
    apply bind_OK in E as (combined & c1 & E1 & E).
    assert (Hfirst : is_NullNodeUnparser first = false).
    { assert (Hin : first ∈ filter (fun u => is_NullNodeUnparser u = false) (u0 :: us))
        by (rewrite Hf; apply list_elem_of_here).
      by apply list_elem_of_filter in Hin as [? _]. }
    destruct (fold_combine_frame _ _ _ _ _ Hfirst E1) as [-> Hk].
    exists combined. split; [done|].
    apply bind_OK in E as ([] & c2 & Em & Ec). injection Em as <-.
    rewrite collect_eq in Ec.
    destruct (keeps_frame_class _ _ Hk) as (_ & _ & Hn). rewrite Hn in Ec.
    by injection Ec as <-.
Qed.

Lemma finalize_node_effect m c c1 :
  finalize_node m c = OK (tt, c1) ->
  unparsers c1 = unparsers c
  /\ finalize_step [m] c c1
  /\ forall ctx0 n, unparsers ctx0 = unparsers c ->
       (attached ctx0 c n -> attached ctx0 c1 n)
       /\ (n = m -> recorded_unparsers ctx0 n <> [] -> attached ctx0 c1 n).
Proof.
  intros E. destruct (finalize_node_result m c) as [[Hnil E']|[(_ & _ & E')|H]].
  - rewrite E' in E. injection E as <-. split; [done|]. split.
    + unfold finalize_step. by repeat split.
    + intros ctx0 n H0. split; [done|]. intros -> Hne. destruct Hne.
      unfold recorded_unparsers in *. by rewrite H0.
  - rewrite E' in E. discriminate.
  - destruct H as (first & rest & Hf & H). destruct (H _ E) as (combined & Hk & ->).
    split; [done|]. split.
    + unfold finalize_step. cbn. repeat split; try done.
      * by apply prefix_app_r.
      * intros n Hn. apply lookup_insert_ne. intros ->. apply Hn, list_elem_of_here.
    + intros ctx0 n H0.
      assert (Hm : attached ctx0
                     (set_token_sequence_unparsers
                        (token_sequence_unparsers c ++ sequences_of combined)
                        (set_node_unparser (<[m := combined]> (node_unparser c)) c)) m).
      { exists first, rest, combined. unfold recorded_unparsers in *. rewrite H0.
        split; [done|]. split; [|done]. cbn. apply lookup_insert_eq. }
      split; [|by intros ->].
      destruct (decide (n = m)) as [->|Hne]; [done|].
      intros (f & r & u & H1 & H2 & H3). exists f, r, u. split; [done|]. split; [|done].
      cbn. by rewrite lookup_insert_ne.
Qed.

Lemma finalize_step_cons n nodes c c1 c2 :
  finalize_step [n] c c1 -> finalize_step nodes c1 c2 -> finalize_step (n :: nodes) c c2.
Proof.
  intros (A1 & A2 & A3 & A4 & A5 & A6 & A7 & A8 & A9) (B1 & B2 & B3 & B4 & B5 & B6 & B7 & B8 & B9).
  unfold finalize_step. split_and!; try congruence.
  - by etrans.
  - intros k Hk. rewrite B9, A9; [done | |].
    + intros ->%list_elem_of_singleton. apply Hk, list_elem_of_here.
    + intros Hin. by apply Hk, list_elem_of_further.
Qed.

Lemma finalize_loop nodes : forall c c',
  forM_ finalize_node nodes c = OK (tt, c') ->
  unparsers c' = unparsers c
  /\ finalize_step nodes c c'
  /\ forall ctx0 n, unparsers ctx0 = unparsers c ->
       (attached ctx0 c n -> attached ctx0 c' n)
       /\ (n ∈ nodes -> recorded_unparsers ctx0 n <> [] -> attached ctx0 c' n).
Proof.
  induction nodes as [|m nodes IH]; intros c c' E.
  - apply ret_OK in E as [_ ->]. split; [done|]. split.
    + unfold finalize_step. by repeat split.
    + intros ctx0 n _. split; [done|]. by intros ?%elem_of_nil.
  - rewrite forM__cons in E. apply bind_OK in E as ([] & c1 & E1 & E2).
    destruct (finalize_node_effect _ _ _ E1) as (U1 & S1 & A1).
    destruct (IH _ _ E2) as (U2 & S2 & A2).
    split; [congruence|]. split; [by eapply finalize_step_cons|].
    intros ctx0 n H0.
    destruct (A1 ctx0 n H0) as [P1 Q1].
    destruct (A2 ctx0 n ltac:(congruence)) as [P2 Q2].
    split; [by intros ?%P1%P2|].
    intros [->|Hin]%elem_of_cons Hne; [by apply P2, Q1 | by apply Q2].
Qed.

(** X25: The finalization pass changes nothing but the unparser attached to
    the node types of the context and the list of token sequences, which
    only grows; when it succeeds, every node type of the context that has
    unparsers recorded has an unparser attached, with the class, the node
    type and the outer tokens of the first of them that is not the null
    unparser. *)
Theorem finalize_attaches_unparsers ctx ctx' :
  finalize ctx = OK (tt, ctx') ->
  finalize_step (astnode_types ctx) ctx ctx'
  /\ forall n, n ∈ astnode_types ctx -> recorded_unparsers ctx n <> [] ->
       attached ctx ctx' n.
Proof.
  unfold finalize, bind at 1, get. intros E.
  destruct (finalize_loop _ _ _ E) as (_ & Hs & Ha). split; [done|].
  intros n Hn Hne. by apply (Ha ctx n eq_refl).
Qed.

(** X26: A node type of the context for which only null unparsers are
    recorded makes the finalization pass fail. *)
Theorem finalize_rejects_null_only ctx n :
  n ∈ astnode_types ctx ->
  recorded_unparsers ctx n <> [] ->
  Forall (fun u => is_NullNodeUnparser u = true) (recorded_unparsers ctx n) ->
  exists e, finalize ctx = Raise e.
Proof.
  intros Hn Hne Hall. destruct (finalize ctx) as [[[] ctx']|e] eqn:E; [|by exists e].
  exfalso. unfold finalize, bind at 1, get in E.
  destruct (finalize_loop _ _ _ E) as (_ & _ & Ha).
  destruct (Ha ctx n eq_refl) as [_ H]. destruct (H Hn Hne) as (f & r & u & Hf & _).
  assert (Hin : f ∈ filter (fun u => is_NullNodeUnparser u = false)
                           (recorded_unparsers ctx n))
    by (rewrite Hf; apply list_elem_of_here).
  apply list_elem_of_filter in Hin as [H1 H2].
  rewrite Forall_forall in Hall. specialize (Hall _ H2). congruence.
Qed.

Lemma registry_with_recorded us : recorded_unparsers (registry_with us) Ex.NameList = us.
Proof.
  unfold recorded_unparsers, registry_with. cbn [unparsers].
  by rewrite lookup_singleton_eq.
Qed.

Lemma registry_with_finalized :
  finalize
    (registry_with [NullNode {| NullNodeUnparser.node := Ex.NameList |};
                    ListNode Ex.comma_list; ListNode Ex.comma_list])
  = OK (tt, set_node_unparser (<[Ex.NameList := ListNode Ex.comma_list]> ∅)
              (registry_with [NullNode {| NullNodeUnparser.node := Ex.NameList |};
                              ListNode Ex.comma_list; ListNode Ex.comma_list])).
Proof.
  unfold finalize, bind at 1, get. cbn [astnode_types registry_with].
  rewrite forM__cons. unfold bind at 1. rewrite finalize_node_eq.
  change {| generate_unparser := true; astnode_types := [Ex.NameList];
            nodes_to_rules := ∅; unparsers := {[Ex.NameList := ?us]};
            token_unparsers := ∅; token_sequence_unparsers := [];
            warnings := []; node_parser := ∅; node_unparser := ∅ |}
    with (registry_with us).
  rewrite registry_with_recorded. reflexivity.
Qed.

Lemma finalize_attaches_unparsers_witness :
  attached
    (registry_with [NullNode {| NullNodeUnparser.node := Ex.NameList |};
                    ListNode Ex.comma_list; ListNode Ex.comma_list])
    (set_node_unparser (<[Ex.NameList := ListNode Ex.comma_list]> ∅)
       (registry_with [NullNode {| NullNodeUnparser.node := Ex.NameList |};
                       ListNode Ex.comma_list; ListNode Ex.comma_list]))
    Ex.NameList.
Proof.
  apply (proj2 (finalize_attaches_unparsers _ _ registry_with_finalized)).
  - apply list_elem_of_here.
  - by rewrite registry_with_recorded.
Defined.

Lemma finalize_rejects_null_only_witness :
  exists e, finalize (registry_with [NullNode {| NullNodeUnparser.node := Ex.NameList |}])
            = Raise e.
Proof.
  apply (finalize_rejects_null_only _ Ex.NameList).
  - apply list_elem_of_here.
  - by rewrite registry_with_recorded.
  - rewrite registry_with_recorded. by repeat constructor.
Defined.

(** X21: Two or more remaining parsers that are all deferred references, or
    all alternatives, are never structurally equal at the top level, even
    when they are the same parser; below the top level the comparison is
    decided by [creates_node] alone. *)
Theorem unparser_struct_eq_references {ops : ParserOps} ps k :
  k ∈ [KDefer; KOr] ->
  2 <= length (remaining ps) ->
  Forall (fun p => type_of p = k) (remaining ps) ->
  unparser_struct_eq ps true = OK false
  /\ unparser_struct_eq ps false
     = allR creates_node
         (map (fun p => if isinstance p KDefer then resolve p else p) (remaining ps)).
Proof.
  intros Hk Hlen Hall. unfold unparser_struct_eq. cbn [unparser_struct_eq_rec].
  fold (remaining ps).
  destruct (Nat.eqb_spec (length (remaining ps)) 1) as [?|_]; [lia|].
  rewrite (remove_dups_constant k).
  - rewrite !elem_of_cons, elem_of_nil in Hk.
    destruct Hk as [->|[->|[]]]; split; reflexivity.
  - destruct (remaining ps); [cbn in Hlen; lia | done].
  - by apply Forall_fmap.
Qed.

Lemma unparser_struct_eq_references_witness :
  unparser_struct_eq (ops := Ex.ops) [Defer "name"; Defer "name"] true = OK false.
Proof.
  apply (unparser_struct_eq_references (ops := Ex.ops) _ KDefer).
  - rewrite !elem_of_cons. tauto.
  - vm_compute. lia.
  - vm_compute. by repeat constructor.
Defined.

Lemma token_unparser_always_renders_witness :
  exists s, TokenUnparser.dumps (TokenUnparser.Build_t Ex.Identifier (Some "begin")) = OK s
            /\ (Some "begin" = Some s /\ s <> "" /\ matcher Ex.Identifier = None
                \/ matcher Ex.Identifier = Some {| to_match := s |}
                   /\ str_truthy (Some "begin") = false).
Proof.
  apply (proj1 (token_unparser_always_renders Ex.Identifier (Some "begin"))).
  reflexivity.
Defined.

(** ** Extraction in a field slot *)

Lemma accumulated_cons pre post layers fu :
  accumulated layers
    (FieldUnparser_tokens fu false
       (TokenSequenceUnparser.__add__ (FieldUnparser.pre_tokens fu)
          (TokenSequenceUnparser.__init__ (map token_unparser_of pre)))
       (TokenSequenceUnparser.__add__
          (TokenSequenceUnparser.__init__ (map token_unparser_of post))
          (FieldUnparser.post_tokens fu)))
  = accumulated ((pre, post) :: layers) fu.
Proof.
  unfold accumulated, leading_runs, trailing_runs. cbn.
  rewrite map_app, concat_app. cbn. by rewrite app_nil_r, <- !app_assoc.
Qed.

(** The derivation on a tower of extractions goes on with the innermost
    element, on the field unparser with the runs accumulated. *)
Lemma emit_to_field_nested {ops : ParserOps} layers inner :
  layers <> [] -> wf_layers layers ->
  forall fu ctx, cache_ok ctx ->
    exists cache,
      cache_ok (set_token_unparsers cache ctx)
      /\ _emit_to_field_unparser (nested_extract layers inner) fu ctx
         = _emit_to_field_unparser inner (accumulated layers fu)
             (set_token_unparsers cache ctx).
Proof.
  intros Hne Hwf. induction Hwf as [|[pre post] layers [Hpre Hpost] Hwf IH];
    [done|]. clear Hne. intros fu ctx Hc. cbn [nested_extract].
  destruct (split_extract_token_runs pre (nested_extract layers inner) post ctx
              Hc Hpre Hpost) as (cache1 & E1 & Hc1).
  destruct (emit_to_field_Extract _ _ fu _ _ _ _ _ E1) as (_ & Heq).
  rewrite Heq. destruct layers as [|layer layers].
  - exists cache1. split; [done|]. cbn [nested_extract]. f_equal.
    unfold accumulated, leading_runs, trailing_runs, FieldUnparser_tokens,
      TokenSequenceUnparser.__add__, TokenSequenceUnparser.__init__.
    cbn. by rewrite !app_nil_r.
  - destruct (IH ltac:(done)
                (FieldUnparser_tokens fu false
                   (TokenSequenceUnparser.__add__ (FieldUnparser.pre_tokens fu)
                      (TokenSequenceUnparser.__init__ (map token_unparser_of pre)))
                   (TokenSequenceUnparser.__add__
                      (TokenSequenceUnparser.__init__ (map token_unparser_of post))
                      (FieldUnparser.post_tokens fu)))
                _ Hc1) as (cache2 & Hc2 & E2).
    exists cache2. rewrite set_token_unparsers_twice in *. split; [done|].
    by rewrite E2, accumulated_cons.
Qed.

(** C7: on extractions of one element from a row, nested in one another,
    whose other elements are token parsers, the field derivation marks the
    field not always absent, accumulates the token runs around the
    extracted elements onto the tokens the field has (the final prefix
    lists the leading runs from the outermost to the innermost extraction,
    the final postfix the trailing runs from the innermost to the
    outermost), and goes on with the innermost element: the result is the
    one of that element on the accumulated field; when that element goes
    directly to node creation, the result is the accumulated field, and
    when it is a parser that no field supports, the derivation fails. *)
Theorem emit_to_field_extract_spec {ops : ParserOps} layers inner fu ctx :
  layers <> [] -> wf_layers layers -> cache_ok ctx ->
  exists cache,
    let ctx' := set_token_unparsers cache ctx in
    cache_ok ctx'
    /\ _emit_to_field_unparser (nested_extract layers inner) fu ctx
       = _emit_to_field_unparser inner (accumulated layers fu) ctx'
    /\ (direct_field inner ->
        _emit_to_field_unparser (nested_extract layers inner) fu ctx
        = OK (accumulated layers fu, ctx'))
    /\ (type_of inner ∈ [KNoBacktrack; KPredicate; KRow; KSkip; KToken] ->
        _emit_to_field_unparser (nested_extract layers inner) fu ctx
        = Raise (DiagnosticError
                   (PyStr ("Unsupported parser for node field: " +:+ repr inner)))).
Proof.
  intros Hne Hwf Hc.
  destruct (emit_to_field_nested layers inner Hne Hwf fu ctx Hc) as (cache & Hc' & E).
  exists cache. cbv zeta. split; [done|]. split; [done|]. split.
  - intros Hd. rewrite E, (emit_to_field_direct _ _ Hd). reflexivity.
  - rewrite E. rewrite !elem_of_cons, elem_of_nil.
    intros H. destruct inner; try reflexivity;
      exfalso; destruct H as [?|[?|[?|[?|[?|[]]]]]]; discriminate.
Qed.

Lemma emit_to_field_extract_spec_witness :
  exists ctx',
    _emit_to_field_unparser (ops := Ex.ops)
      (_Extract
         (_Row [_Token Ex.LPar "";
                _Extract (_Row [_Token Ex.Comma ""; Defer "name"; _Token Ex.Semicolon ""]) 1;
                _Token Ex.RPar ""]) 1)
      (Ex.field_unparser true [] []) (Ex.empty_context true)
    = OK (Ex.field_unparser false [Ex.LPar; Ex.Comma] [Ex.Semicolon; Ex.RPar], ctx').
Proof.
  destruct (emit_to_field_extract_spec (ops := Ex.ops)
              [([(Ex.LPar, "")], [(Ex.RPar, "")]);
               ([(Ex.Comma, "")], [(Ex.Semicolon, "")])]
              (Defer "name") (Ex.field_unparser true [] []) (Ex.empty_context true))
    as (cache & _ & _ & H & _).
  - discriminate.
  - by repeat constructor.
  - apply empty_context_cache_ok.
  - eexists. etransitivity; [apply H|reflexivity].
    unfold direct_field. cbn. rewrite !elem_of_cons. tauto.
Defined.

(** ** Top-level information loss *)

(** The finalization pass attaches nothing to a node type that has no
    unparser recorded. *)
Lemma finalize_node_unrecorded m c c1 n :
  finalize_node m c = OK (tt, c1) ->
  recorded_unparsers c n = [] ->
  node_unparser c1 !! n = node_unparser c !! n.
Proof.
  intros E Hn. destruct (finalize_node_result m c) as [[_ E']|[(_ & _ & E')|H]].
  - rewrite E' in E. by injection E as <-.
  - rewrite E' in E. discriminate.
  - destruct H as (first & rest & Hf & H). destruct (H _ E) as (combined & _ & ->).
    cbn. apply lookup_insert_ne. intros ->. by rewrite Hn in Hf.
Qed.

Lemma finalize_unrecorded ctx ctx' n :
  finalize ctx = OK (tt, ctx') ->
  recorded_unparsers ctx n = [] ->
  node_unparser ctx' !! n = node_unparser ctx !! n.
Proof.
  unfold finalize, bind at 1, get. generalize (astnode_types ctx) as nodes.
  intros nodes. revert ctx. induction nodes as [|m nodes IH]; intros ctx E Hn.
  - by apply ret_OK in E as [_ ->].
  - rewrite forM__cons in E. apply bind_OK in E as ([] & c1 & E1 & E2).
    destruct (finalize_node_effect _ _ _ E1) as (U1 & _ & _).
    rewrite (IH c1 E2), (finalize_node_unrecorded _ _ _ _ E1 Hn); [done|].
    unfold recorded_unparsers in *. by rewrite U1.
Qed.

(** C2, as the code has it: on a rule whose top-level combinator is an
    extraction from a row that is not exactly a node followed by the
    termination token, [compute] raises the fatal diagnostic when
    generation is requested.  When generation is disabled already, and the
    extractions of the row are extractions from rows, it raises nothing,
    leaves the flag cleared, derives no occurrence and attaches no
    unparser; a later [finalize] then attaches no unparser to a node type
    that had no occurrence recorded before the [compute], and changes
    nothing at all when no occurrence was recorded. *)
Theorem top_level_information_loss_policy {ops : ParserOps} row index ctx :
  is_dont_skip_parser (_Extract (_Row row) index) = false ->
  ~ whitelisted_row row ->
  (generate_unparser ctx = true ->
   compute (_Extract (_Row row) index) ctx = Raise top_level_information_loss)
  /\ (generate_unparser ctx = false ->
      forallb extracts_rows row = true ->
      exists ctx',
        compute (_Extract (_Row row) index) ctx = OK (tt, ctx')
        /\ generate_unparser ctx' = false
        /\ unparsers ctx' = unparsers ctx
        /\ node_unparser ctx' = node_unparser ctx
        /\ (forall ctx'' n,
              finalize ctx' = OK (tt, ctx'') ->
              recorded_unparsers ctx n = [] ->
              node_unparser ctx'' !! n = node_unparser ctx !! n)
        /\ (unparsers ctx = ∅ -> finalize ctx' = OK (tt, ctx'))).
Proof.
  intros Hd Hrow. split.
  - intros Hg. by apply compute_top_level_extract.
  - intros Hg Hwf.
    destruct (compute_disabled (_Extract (_Row row) index) ctx Hg)
      as (ctx' & E & Hg' & Hu & Hnu & _); [done|].
    exists ctx'. split; [done|]. split; [done|]. split; [done|]. split; [done|]. split.
    + intros ctx'' n Ef Hn. rewrite <- Hnu. apply (finalize_unrecorded _ _ _ Ef).
      unfold recorded_unparsers in *. by rewrite Hu.
    + intros He. apply finalize_nothing. by rewrite Hu.
Qed.

Lemma top_level_information_loss_policy_witness :
  let rule := _Extract (_Row [_Token Ex.LPar ""; Defer "expr"; _Token Ex.RPar ""]) 1 in
  exists ctx',
    compute (ops := Ex.ops) rule (Ex.empty_context false) = OK (tt, ctx')
    /\ generate_unparser ctx' = false
    /\ finalize ctx' = OK (tt, ctx').
Proof.
  intros rule.
  destruct (top_level_information_loss_policy (ops := Ex.ops)
              [_Token Ex.LPar ""; Defer "expr"; _Token Ex.RPar ""] 1
              (Ex.empty_context false)) as [_ H].
  - reflexivity.
  - intros (node & text & [=]).
  - destruct (H eq_refl eq_refl) as (ctx' & E & Hg & _ & _ & _ & Hf).
    exists ctx'. split; [exact E|]. split; [exact Hg|]. by apply Hf.
Defined.

(** C2 as stated fails: with generation requested, [compute] on a rule
    whose top-level extraction keeps the middle of three elements raises
    the fatal diagnostic; it does not return with the flag cleared. *)
Lemma top_level_information_loss_counterexample :
  let rule := _Extract (_Row [_Token Ex.LPar ""; Defer "expr"; _Token Ex.RPar ""]) 1 in
  generate_unparser (Ex.empty_context true) = true
  /\ compute (ops := Ex.ops) rule (Ex.empty_context true)
     = Raise (DiagnosticError
                (PyStr "Top-level information loss prevents unparsers generation"))
  /\ ~ (exists ctx', compute (ops := Ex.ops) rule (Ex.empty_context true) = OK (tt, ctx')
                     /\ generate_unparser ctx' = false).
Proof.
  intros rule.
  assert (E : compute (ops := Ex.ops) rule (Ex.empty_context true)
              = Raise (DiagnosticError
                         (PyStr "Top-level information loss prevents unparsers generation")))
    by (vm_compute; reflexivity).
  split; [reflexivity|]. split; [exact E|].
  intros (ctx' & E' & _). rewrite E in E'. discriminate.
Qed.
